(** * RELION motion-parameter estimation and B-factor fitting

    A shallow embedding of [src/jaz/motion/motion_param_estimator.cpp]
    (class [MotionParamEstimator]) and of the B-factor refiner that is
    shipped in the same source unit (class [BFactorRefiner]).

    Numeric models.  A C++ [double] is modelled in two ways.

    In the first model it is an exact rational ([Q]): every finite
    double is a rational number, and the arithmetic of the source is
    read without rounding, overflow or NaN; equality of doubles is
    [Qeq] ([==]).  This model carries the control flow, the integer
    logic and the comparisons of values that are not computed, and the
    statements that are marked as holding in exact arithmetic.

    In the second model ([Binary64], [BFactorRefiner64] and the modules
    after them) a double is the binary64 value itself, with the
    operations of IEEE 754: each operation rounded once to nearest
    (no fused multiply-add, no extended precision), with signed zeros,
    infinities and NaN.  It carries the search of [findBKRec1D], and it
    is the model in which the rounding of the other numeric code is
    evaluated.

    The C library functions [exp] and [sqrt] are parameters of the
    development.  A C++ [int] is a [Z]; the conversion [(int) x] of a
    double truncates towards zero and is undefined outside the range of
    [int], which both models make explicit with an [option].  Text
    written to [std::cout] is not modelled. *)

From Stdlib Require Import ZArith QArith Qround Qabs List Bool Lia Lqa.
From Stdlib Require Import Permutation.
From Stdlib Require Floats Uint63.
Import ListNotations.
Open Scope Q_scope.

(** ** Doubles, ints and small vectors *)

(** The first model of a [double]: the rational number it stands for.
    (The second model, [Binary64.double], is further down.) *)
Definition double : Type := Q.

(** [std::numeric_limits<double>::max()], i.e. (2^53 - 1) * 2^971. *)
Definition DBL_MAX : double := inject_Z ((2 ^ 53 - 1) * 2 ^ 971).

Definition INT_MIN : Z := (- 2 ^ 31)%Z.
Definition INT_MAX : Z := (2 ^ 31 - 1)%Z.

(** Truncation of a rational towards zero. *)
Definition Qtrunc (x : double) : Z := Z.quot (Qnum x) (Zpos (Qden x)).

(** [(int) x]: defined when the truncated value is representable. *)
Definition double_to_int (x : double) : option Z :=
  let n := Qtrunc x in
  if ((INT_MIN <=? n) && (n <=? INT_MAX))%Z then Some n else None.

(** Comparison of doubles as the boolean the source tests. *)
Definition dltb (x y : double) : bool :=
  match x ?= y with Lt => true | _ => false end.
Definition dleb (x y : double) : bool :=
  match x ?= y with Gt => false | _ => true end.

Record d2Vector : Type := mk_d2 { d2_0 : double; d2_1 : double }.
Record d3Vector : Type := mk_d3 { d3_0 : double; d3_1 : double; d3_2 : double }.
Record d4Vector : Type :=
  mk_d4 { d4_0 : double; d4_1 : double; d4_2 : double; d4_3 : double }.

Definition d3_add (a b : d3Vector) : d3Vector :=
  mk_d3 (d3_0 a + d3_0 b) (d3_1 a + d3_1 b) (d3_2 a + d3_2 b).

(** A computable stand-in for the C library's [exp], used where a
    concrete run is evaluated: the Taylor polynomial of degree 10 at the
    reduced argument.  On the arguments used below (|x| <= 1) it agrees
    with the exponential to better than 1e-7. *)
Fixpoint exp_terms (n : nat) (k : Z) (term acc x : Q) : Q :=
  match n with
  | O => acc
  | S n' =>
      let term' := Qred (term * x / inject_Z k) in
      exp_terms n' (k + 1)%Z term' (Qred (acc + term')) x
  end.

Definition exp_poly (x : Q) : Q := exp_terms 10 1 1 1 (Qred x).

(** ** BFactorRefiner: recursive 1D search for decay and scale *)

Module BFactorRefiner.

Section Fit.

(** The C library's [exp]. *)
Variable exp : double -> double.

(** [const double eps = 1e-10;] *)
Definition eps : double := 1 # 10000000000.

(** The running optimum of one scan: [minErr], [bestB], [bestA]. *)
Record search : Type :=
  mk_search { minErr : double; bestB : double; bestA : double }.

Section Profiles.

(** [t_rad] and [s_rad]; [sh = t_rad.size()].  The source reads
    [s_rad[r]] for every [r < sh]; its callers pass vectors of equal
    length, and a read past the end of [s_rad] is read as 0 here. *)
Variables t_rad s_rad : list double.
Variable min_scale : double.
Variable steps : Z.

(** [sigVals[r] = exp(-B * r * r / 4.0)].  The argument is handed to
    [exp] in lowest terms: equal doubles give equal results. *)
Definition sigVal (B : double) (r : nat) : double :=
  exp (Qred (- B * inject_Z (Z.of_nat r) * inject_Z (Z.of_nat r) / 4)).

(** The loop accumulating [num] and [denom], from radius [r] on;
    [ts] is the part of [t_rad] not yet visited. *)
Fixpoint scaleSums (B : double) (r : nat) (ts : list double)
         (num denom : double) : double * double :=
  match ts with
  | [] => (num, denom)
  | tr :: ts' =>
      let sr := nth r s_rad 0 in
      let br := sigVal B r in
      scaleSums B (S r) ts' (num + sr * br) (denom + tr * br * br)
  end.

(** The optimal scale for a hypothetical decay [B], clamped below. *)
Definition scaleFor (B : double) : double :=
  let '(num, denom) := scaleSums B 0 t_rad 0 0 in
  let a := if dltb eps denom then num / denom else num / eps in
  if dltb a min_scale then min_scale else a.

(** The loop accumulating [sum]. *)
Fixpoint residualSum (B a : double) (r : nat) (ts : list double)
         (sum : double) : double :=
  match ts with
  | [] => sum
  | tr :: ts' =>
      let sr := nth r s_rad 0 in
      let br := sigVal B r in
      residualSum B a (S r) ts'
        (sum + (tr * a * a * br * br - 2 * a * br * sr))
  end.

(** The residual the source minimises, for decay [B] and scale [a]: the
    weighted least-squares residual [sum tr * (a * br - sr / tr)^2] less
    its term [sum sr^2 / tr], which depends on neither [B] nor [a]. *)
Definition residual (B a : double) : double := residualSum B a 0 t_rad 0.

(** The candidate decay of step [st]:
    [B0 + st*(B1 - B0)/(steps-1)]. *)
Definition gridPoint (B0 B1 : double) (st : Z) : double :=
  B0 + inject_Z st * (B1 - B0) / inject_Z (steps - 1).

(** One pass of [for (int st = 0; st < steps; st++)]: [n] iterations
    are left and the counter stands at [st]. *)
Fixpoint stepLoop (B0 B1 : double) (n : nat) (st : Z) (cur : search)
  : search :=
  match n with
  | O => cur
  | S n' =>
      let B := gridPoint B0 B1 st in
      let a := scaleFor B in
      let sum := residual B a in
      let cur' := if dltb sum (minErr cur) then mk_search sum B a else cur in
      stepLoop B0 B1 n' (st + 1)%Z cur'
  end.

(** The scan of one interval, from the initial
    [minErr = DBL_MAX], [bestB = B0], [bestA = 1.0]. *)
Definition scan (B0 B1 : double) : search :=
  stepLoop B0 B1 (Z.to_nat steps) 0 (mk_search DBL_MAX B0 1).

(** The interval of the recursive call. *)
Definition nextInterval (B0 B1 : double) (best : double) : double * double :=
  let hrange := (B1 - B0) / (inject_Z steps - 1) in
  let Bnext0 := best - hrange in
  let Bnext1 := best + hrange in
  let Bnext0 := if dltb Bnext0 B0 then B0 else Bnext0 in
  let Bnext1 := if dltb B1 Bnext1 then B1 else Bnext1 in
  (Bnext0, Bnext1).

(** The recursion of [findBKRec1D], by the number of recursive calls
    still to make; the whole state of the last scan is returned. *)
Fixpoint findBKRec1D_scan (depth : nat) (B0 B1 : double) : search :=
  let cur := scan B0 B1 in
  match depth with
  | O => cur
  | S depth' =>
      let '(Bnext0, Bnext1) := nextInterval B0 B1 (bestB cur) in
      findBKRec1D_scan depth' Bnext0 Bnext1
  end.

(** The interval that the last call of the recursion scans: the
    arguments [B0], [B1] of the call made with [depth = 0]. *)
Fixpoint lastInterval (depth : nat) (B0 B1 : double) : double * double :=
  match depth with
  | O => (B0, B1)
  | S depth' =>
      let '(Bnext0, Bnext1) := nextInterval B0 B1 (bestB (scan B0 B1)) in
      lastInterval depth' Bnext0 Bnext1
  end.

(** What every state of a scan satisfies when the search runs between
    the outer bounds [lo] and [hi]. *)
Definition scanInv (lo hi : double) (cur : search) : Prop :=
  lo <= bestB cur <= hi /\
  minErr cur <= DBL_MAX /\
  (bestA cur = 1 \/ min_scale <= bestA cur) /\
  (minErr cur < DBL_MAX -> min_scale <= bestA cur).

End Profiles.

(** [BFactorRefiner::findBKRec1D]: [if (depth > 0)] recurses with
    [depth - 1], so a non-positive [depth] makes no recursive call. *)
Definition findBKRec1D (t_rad s_rad : list double)
           (B0 B1 min_scale : double) (steps depth : Z) : d2Vector :=
  let cur := findBKRec1D_scan t_rad s_rad min_scale steps
               (Z.to_nat depth) B0 B1 in
  mk_d2 (bestB cur) (bestA cur).

(** *** processMicrograph: what is written to the metadata table *)

(** [const int stepsPerIter = 20; const int numIters = 5;] *)
Definition stepsPerIter : Z := 20.
Definition numIters : Z := 5.

(** The fields of the refiner that the fit reads. *)
Record Refiner : Type :=
  mk_Refiner {
      perMicrograph : bool;
      min_B : double;
      max_B : double;
      min_scale : double;
      s : Z;
      angpix : double
    }.

(** [const double as = s * angpix;] *)
Definition as_ (rf : Refiner) : double := inject_Z (s rf) * angpix rf.

(** The pair [findBKRec1D] returns for one pair of radial profiles,
    searched between [min_B_px] and [max_B_px]. *)
Definition fitBK (rf : Refiner) (prof : list double * list double) : d2Vector :=
  let a := as_ rf in
  let min_B_px := min_B rf / (a * a) in
  let max_B_px := max_B rf / (a * a) in
  findBKRec1D (fst prof) (snd prof) min_B_px max_B_px (min_scale rf)
    stepsPerIter numIters.

(** The values set for one particle:
    [EMDL_CTF_BFACTOR = as*as*BK[0] - min_B] and
    [EMDL_CTF_SCALEFACTOR = BK[1]]. *)
Definition written (rf : Refiner) (BK : d2Vector) : double * double :=
  (as_ rf * as_ rf * d2_0 BK - min_B rf, d2_1 BK).

(** Element-wise sum of two radial profiles of the same length, the
    reduction [t_rad[0][r] += t_rad[t][r]] of the per-micrograph path. *)
Fixpoint addProfile (a b : list double) : list double :=
  match a, b with
  | x :: a', y :: b' => (x + y) :: addProfile a' b'
  | _, _ => a
  end.

(** [processMicrograph] of a refiner that is ready, from the radial
    profiles [(t_rad, s_rad)] that the pixel loops accumulate for each
    particle (each of length [sh = s/2 + 1]) to the B-factor and scale
    columns of the table, one row per particle.  Per micrograph, the
    profiles of all particles are summed and fitted once; otherwise each
    particle is fitted on its own. *)
Definition processMicrograph (rf : Refiner)
           (profiles : list (list double * list double))
  : list (double * double) :=
  if perMicrograph rf then
    let sh := Z.to_nat (Z.quot (s rf) 2 + 1) in
    let zero := repeat (0 : double) sh in
    let total :=
      fold_left (fun acc p => (addProfile (fst acc) (fst p),
                               addProfile (snd acc) (snd p)))
                profiles (zero, zero) in
    let BK := fitBK rf total in
    map (fun _ => written rf BK) profiles
  else
    map (fun p => written rf (fitBK rf p)) profiles.

(** *** Row frequencies of the pixel loops *)

(** [sh = s/2 + 1] ([init]). *)
Definition sh_of (s_ : Z) : Z := Z.quot s_ 2 + 1.

(** The pixel loops of [processMicrograph]:
    [yy = (y + s/2) % s - s/2]. *)
Definition rowFrequency (s_ y : Z) : Z :=
  Z.rem (y + Z.quot s_ 2) s_ - Z.quot s_ 2.

(** The pixel loops of [findBKRec2D]: [yy = y < sh ? y : y - s]. *)
Definition rowFrequency2D (s_ y : Z) : Z :=
  if (y <? sh_of s_)%Z then y else (y - s_)%Z.

(** *** The pixel loops of processMicrograph *)

(** [Complex], with the two fields that the loops read. *)
Record Complex : Type := mk_Complex { real : double; imag : double }.

(** What the pixel loops read of particle [p] at the pixel [(y, x)]:
    [zobs = obs[p](y,x)] and [zpred = ctfImg(y,x) * pred[p](y,x)]. *)
Record Particle : Type :=
  mk_Particle { zobs : Z -> Z -> Complex; zpred : Z -> Z -> Complex }.

(** [v[i] += d] on a vector.  (The loops use it below the size of the
    vector only; past the end nothing is changed here.) *)
Fixpoint addAt (v : list double) (i : nat) (d : double) : list double :=
  match v, i with
  | [], _ => []
  | x :: v', O => (x + d) :: v'
  | x :: v', S i' => x :: addAt v' i' d
  end.

Section PixelLoops.

(** The C library's [sqrt], the image size [s] and [freqWeight(y,x)]. *)
Variable sqrt : double -> double.
Variable s_ : Z.
Variable freqWeight : Z -> Z -> double.

(** [ri = (int)(sqrt(xx*xx + yy*yy) + 0.5)]. *)
Definition radiusIndex (y x : Z) : option Z :=
  let xx := inject_Z x in
  let yy := inject_Z (rowFrequency s_ y) in
  double_to_int (sqrt (xx * xx + yy * yy) + (1 # 2)).

(** The body of the loops at the pixel [(y, x)], on the vectors
    [(t_rad, s_rad)], which have [sh] entries.  A cast that does not
    fit an [int] and an index below the vector have no defined
    behaviour. *)
Definition pixelStep (pt : Particle) (y x : Z)
           (acc : list double * list double)
  : option (list double * list double) :=
  match radiusIndex y x with
  | None => None
  | Some ri =>
      if (ri <? sh_of s_)%Z then
        if (ri <? 0)%Z then None
        else
          let zo := zobs pt y x in
          let zp := zpred pt y x in
          let wp := freqWeight y x in
          Some (addAt (fst acc) (Z.to_nat ri)
                      (wp * (real zp * real zp + imag zp * imag zp)),
                addAt (snd acc) (Z.to_nat ri)
                      (wp * (real zp * real zo + imag zp * imag zo)))
      else Some acc
  end.

(** The pixels in the order of
    [for (int y = 0; y < s; y++) for (int x = 0; x < sh; x++)]. *)
Definition pixels : list (Z * Z) :=
  list_prod (map Z.of_nat (seq 0 (Z.to_nat s_)))
            (map Z.of_nat (seq 0 (Z.to_nat (sh_of s_)))).

(** The two loops for one particle, on the vectors [acc]. *)
Definition accumulateParticle (pt : Particle)
           (acc : list double * list double)
  : option (list double * list double) :=
  fold_left (fun a yx =>
               match a with
               | Some a' => pixelStep pt (fst yx) (snd yx) a'
               | None => None
               end)
            pixels (Some acc).

(** [std::vector<double> t_rad(sh, 0.0), s_rad(sh, 0.0)]. *)
Definition zeroProfiles : list double * list double :=
  (repeat 0 (Z.to_nat (sh_of s_)), repeat 0 (Z.to_nat (sh_of s_))).

(** The radial profiles of one particle (the path per particle). *)
Definition particleProfiles (pt : Particle)
  : option (list double * list double) :=
  accumulateParticle pt zeroProfiles.

End PixelLoops.

(** *** The curves of the diagnostic plots *)

(** [writePerMicrographEPS]: the curve value at radius [r], from the
    B-factor [B] and the scale [a] read back from the table:
    [ra = r / as; cval = a * exp(-(B+min_B) * ra*ra / 4.0)]. *)
Definition micrographCurve (rf : Refiner) (row : double * double) (r : nat)
  : double :=
  let B := fst row in
  let a := snd row in
  let ra := inject_Z (Z.of_nat r) / as_ rf in
  a * exp (Qred (- (B + min_B rf) * ra * ra / 4)).

(** [writePerParticleDiagEPS]: the curve value at radius [r], from the
    pair in pixel units:
    [cval = BKpixels[1] * exp(-BKpixels[0] * r*r / 4.0)]. *)
Definition particleCurve (BKpixels : d2Vector) (r : nat) : double :=
  d2_1 BKpixels
  * exp (Qred (- d2_0 BKpixels * inject_Z (Z.of_nat r) * inject_Z (Z.of_nat r)
               / 4)).

End Fit.

End BFactorRefiner.

(** ** The scale constants and the hyper-parameter problems *)

(** [MotionParamEstimator::velScale], [divScale] and [accScale]. *)
Definition velScale : double := 1000.
Definition divScale : double := 1.
Definition accScale : double := 10000.

Module TwoHyperParameterProblem.

(** Modelled from the spec: [TwoHyperParameterProblem::motionToProblem],
    whose definition ([two_hyperparameter_fit.cpp]) is missing from the
    sources.  The spec describes a bidirectional mapping that rescales
    to and from physical sigma units using the fixed per-dimension scale
    constants; [run] rescales its optimum the same way. *)
Definition motionToProblem (vd : d2Vector) : list double :=
  [d2_0 vd * velScale; d2_1 vd * divScale].

(** Modelled from the spec: [TwoHyperParameterProblem::problemToMotion],
    missing for the same reason; the inverse rescaling. *)
Definition problemToMotion (x : list double) : d2Vector :=
  mk_d2 (nth 0 x 0 / velScale) (nth 1 x 0 / divScale).

End TwoHyperParameterProblem.

Module ThreeHyperParameterProblem.

(** Modelled from the spec: [ThreeHyperParameterProblem::motionToProblem],
    whose definition ([three_hyperparameter_fit.cpp]) is missing from the
    sources; it rescales each component by its constant. *)
Definition motionToProblem (vd : d3Vector) : list double :=
  [d3_0 vd * velScale; d3_1 vd * divScale; d3_2 vd * accScale].

(** Modelled from the spec: [ThreeHyperParameterProblem::problemToMotion],
    missing for the same reason; the inverse rescaling. *)
Definition problemToMotion (x : list double) : d3Vector :=
  mk_d3 (nth 0 x 0 / velScale) (nth 1 x 0 / divScale) (nth 2 x 0 / accScale).

End ThreeHyperParameterProblem.

(** ** MotionParamEstimator *)

Module MotionParamEstimator.

(** The fatal errors raised through [REPORT_ERROR]. *)
Inductive error : Type :=
| ParamsNotRead       (** init: has not read its cmd-line parameters *)
| EstimatorNotReady   (** init: initialized before MotionEstimator *)
| BothCutoffUnits     (** cutoff frequency given in pixels and in Angstrom *)
| BothEvalUnits       (** evaluation frequency given in both units *)
| CutoffRequired      (** estimation requested without a cutoff *)
| BothParamCounts     (** --params2 and --params3 together *)
| NotInitialized.     (** run: not initialized *)

(** How a call ends: normally, by a fatal error, or by a step whose
    behaviour the language leaves undefined. *)
Inductive outcome : Type :=
| Done
| Fatal (e : error)
| Undefined.

(** The options [read] takes from the command line and that stay as
    read. *)
Record Options : Type :=
  mk_Options {
      estim2 : bool;
      estim3 : bool;
      minParticles : Z;
      sV : double;
      sD : double;
      sA : double;
      iniStep : double;
      conv : double;
      maxIters : Z;
      maxRange : Z;
      seed : Z
    }.

(** The four frequencies, which [init] completes. *)
Record Cutoffs : Type :=
  mk_Cutoffs {
      k_cutoff : double;
      k_cutoff_Angst : double;
      k_eval : double;
      k_eval_Angst : double
    }.

(** The arguments [init] stores. *)
Record Context : Type :=
  mk_Context {
      verb : Z;
      nr_omp_threads : Z;
      debug : bool;
      s : Z;
      fc : Z
    }.

Section Estimator.

(** [MetaDataTable] and its row count. *)
Variable MetaDataTable : Type.
Variable numberOfObjects : MetaDataTable -> Z.

(** The C library's generator: [srand] replaces the process-wide
    state, [rand] draws from it. *)
Variable rng : Type.
Variable srand : Z -> rng.
Variable rand : rng -> Z * rng.
Variable RAND_MAX : Z.

(** [IndexSort<double>::sortIndices] (src/jaz/index_sort.h): the
    indices of the data in the order of a sort. *)
Variable sortIndices : list double -> list nat.

(** [ObservationModel::angToPix]. *)
Variable angToPix : double -> Z -> double.

(** The fields of the estimator. *)
Record Estimator : Type :=
  mk_Estimator {
      paramsRead : bool;
      ready : bool;
      opts : Options;
      cut : Cutoffs;
      ctx : Context;
      mdts : list MetaDataTable;
      k_out : double
    }.

Definition set_ctx (c : Context) (st : Estimator) : Estimator :=
  mk_Estimator (paramsRead st) (ready st) (opts st) (cut st) c
               (mdts st) (k_out st).

Definition set_cut (c : Cutoffs) (st : Estimator) : Estimator :=
  mk_Estimator (paramsRead st) (ready st) (opts st) c (ctx st)
               (mdts st) (k_out st).

(** The constructor: [paramsRead(false), ready(false)]; the other
    fields hold what [read] and [init] store later. *)
Definition MotionParamEstimator_new (o : Options) (c : Cutoffs)
           (x : Context) : Estimator :=
  mk_Estimator false false o c x [] 0.

(** [read]: the options as parsed, and [paramsRead = true]. *)
Definition read (o : Options) (c : Cutoffs) (st : Estimator) : Estimator :=
  mk_Estimator true (ready st) o c (ctx st) (mdts st) (k_out st).

(** [randNums[m] = rand() / (double)RAND_MAX] for [m < mc]. *)
Fixpoint drawRandNums (mc : nat) (g : rng) : list double * rng :=
  match mc with
  | O => ([], g)
  | S mc' =>
      let '(r, g') := rand g in
      let '(rest, g'') := drawRandNums mc' g' in
      (inject_Z r / inject_Z RAND_MAX :: rest, g'')
  end.

(** The selection loop over [order], with the running particle count
    [pc] and the micrographs pushed so far.  [allMdts[m]] outside the
    vector has no defined behaviour. *)
Fixpoint selectLoop (allMdts : list MetaDataTable) (minP : Z)
         (order : list nat) (pc : Z) (sel : list MetaDataTable)
  : option (Z * list MetaDataTable) :=
  match order with
  | [] => Some (pc, sel)
  | m :: order' =>
      match nth_error allMdts m with
      | None => None
      | Some md =>
          let pcm := numberOfObjects md in
          if (pcm <? 2)%Z then selectLoop allMdts minP order' pc sel
          else
            let sel' := sel ++ [md] in
            let pc' := (pc + pcm)%Z in
            if (pc' >=? minP)%Z then Some (pc', sel')
            else selectLoop allMdts minP order' pc' sel'
      end
  end.

(** The sampling part of [init]: seed, draw, sort, select. *)
Definition sample (seed_ minP : Z) (allMdts : list MetaDataTable)
  : option (Z * list MetaDataTable) * rng :=
  let mc := length allMdts in
  let g := srand seed_ in
  let '(randNums, g') := drawRandNums mc g in
  let order := sortIndices randNums in
  (selectLoop allMdts minP order 0 [], g').

(** [MotionParamEstimator::init].  [motionEstimatorReady] is
    [motionEstimator->isReady()] and [reference_k_out] is
    [reference->k_out]; [g] is the state of the C library's generator
    when the call is made. *)
Definition init (verb_ nr_omp_threads_ : Z) (debug_ : bool) (s_ fc_ : Z)
           (allMdts : list MetaDataTable)
           (motionEstimatorReady : bool) (reference_k_out : double)
           (st : Estimator) (g : rng) : outcome * Estimator * rng :=
  if negb (paramsRead st) then (Fatal ParamsNotRead, st, g) else
  let st := set_ctx (mk_Context verb_ nr_omp_threads_ debug_ s_ fc_) st in
  if negb motionEstimatorReady then (Fatal EstimatorNotReady, st, g) else
  let c := cut st in
  if dltb 0 (k_cutoff_Angst c) && dltb 0 (k_cutoff c)
  then (Fatal BothCutoffUnits, st, g) else
  if dltb 0 (k_eval_Angst c) && dltb 0 (k_eval c)
  then (Fatal BothEvalUnits, st, g) else
  let c :=
    if dltb 0 (k_cutoff_Angst c) && dltb (k_cutoff c) 0 then
      mk_Cutoffs (angToPix (k_cutoff_Angst c) s_) (k_cutoff_Angst c)
                 (k_eval c) (k_eval_Angst c)
    else if dltb 0 (k_cutoff c) && dltb (k_cutoff_Angst c) 0 then
      mk_Cutoffs (k_cutoff c) (angToPix (k_cutoff c) s_)
                 (k_eval c) (k_eval_Angst c)
    else c in
  let st := set_cut c st in
  let o := opts st in
  if (estim2 o || estim3 o) && dltb (k_cutoff c) 0
  then (Fatal CutoffRequired, st, g) else
  if estim2 o && estim3 o then (Fatal BothParamCounts, st, g) else
  let c :=
    if dltb (k_eval c) 0 && dltb 0 (k_eval_Angst c) then
      mk_Cutoffs (k_cutoff c) (k_cutoff_Angst c)
                 (angToPix (k_eval_Angst c) s_) (k_eval_Angst c)
    else if dltb 0 (k_eval c) && dltb (k_eval_Angst c) 0 then
      mk_Cutoffs (k_cutoff c) (k_cutoff_Angst c)
                 (k_eval c) (angToPix (k_eval c) s_)
    else
      mk_Cutoffs (k_cutoff c) (k_cutoff_Angst c)
                 (k_cutoff c) (k_cutoff_Angst c) in
  let st := set_cut c st in
  let '(sel, g') := sample (seed o) (minParticles o) allMdts in
  match sel with
  | None => (Undefined, st, g')
  | Some (_, sel') =>
      (Done,
       mk_Estimator (paramsRead st) true (opts st) (cut st) (ctx st)
                    sel' reference_k_out,
       g')
  end.

(** *** Batch evaluation *)

(** [MotionEstimator::normalizeSigVel], [normalizeSigDiv] and
    [normalizeSigAcc]. *)
Variables normalizeSigVel normalizeSigDiv normalizeSigAcc : double -> double.

(** What [alignmentSet.updateTsc] returns for micrograph [g] on the
    tracks that [motionEstimator->optimize] fits with the given
    velocity, acceleration and divergence sigmas (in that order). *)
Variable trackTsc : nat -> double -> double -> double -> d3Vector.

(** The C library's [sqrt]. *)
Variable sqrt : double -> double.

(** [std::vector<double>::resize(n)]: shortened, or filled with 0.0. *)
Definition resize (n : nat) (v : list double) : list double :=
  firstn n v ++ repeat 0 (n - length v).

(** The loop over the micrographs: micrograph [g] adds one term to the
    accumulator of every candidate. *)
Fixpoint accumulateTsc (sig_px : list d3Vector) (g : nat)
         (ms : list MetaDataTable) (tscsAs : list d3Vector)
  : list d3Vector :=
  match ms with
  | [] => tscsAs
  | md :: ms' =>
      let pc := numberOfObjects md in
      if (pc <? 2)%Z then accumulateTsc sig_px (S g) ms' tscsAs
      else
        accumulateTsc sig_px (S g) ms'
          (map (fun '(sg, acc) =>
                  d3_add acc (trackTsc g (d3_0 sg) (d3_2 sg) (d3_1 sg)))
               (combine sig_px tscsAs))
  end.

(** One round of the closing loop, for the accumulated vector [acc] of
    a candidate whose entry of [TSCs] holds [old]:
    [wg = acc[1] * acc[2]; if (wg > 0.0) TSCs[i] = acc[0] / sqrt(wg);]. *)
Definition score (acc : d3Vector) (old : double) : double :=
  let wg := d3_1 acc * d3_2 acc in
  if dltb 0 wg then d3_0 acc / sqrt wg else old.

(** The closing loop over all candidates, commented in the source as
    computing the final TSC. *)
Fixpoint finalTsc (tscsAs : list d3Vector) (TSCs : list double)
  : list double :=
  match tscsAs, TSCs with
  | acc :: tscsAs', old :: TSCs' => score acc old :: finalTsc tscsAs' TSCs'
  | _, _ => TSCs
  end.

(** [MotionParamEstimator::evaluateParams]: [TSCs] is the vector the
    caller passes by reference, and the result is its content at the
    return. *)
Definition evaluateParams (st : Estimator) (sig_vals : list d3Vector)
           (TSCs : list double) : list double :=
  let paramCount := length sig_vals in
  let TSCs := resize paramCount TSCs in
  let sig_px :=
    map (fun v => mk_d3 (normalizeSigVel (d3_0 v))
                        (normalizeSigDiv (d3_1 v))
                        (normalizeSigAcc (d3_2 v))) sig_vals in
  let tscsAs :=
    accumulateTsc sig_px 0 (mdts st) (repeat (mk_d3 0 0 0) paramCount) in
  finalTsc tscsAs TSCs.

(** *** Driving the search *)

(** [NelderMead::optimize(initial, thpp, inStep, conv, maxIters, ...)]
    on the two-parameter problem built from the estimator and
    [sig_acc], and on the three-parameter problem: the final point and
    [minTsc]. *)
Variable optimizeTwo :
  Estimator -> double -> list double -> double -> double -> Z ->
  list double * double.
Variable optimizeThree :
  Estimator -> list double -> double -> double -> Z ->
  list double * double.

Definition estimateTwoParamsNM (st : Estimator)
           (sig_v_0 sig_d_0 sig_acc inStep conv_ : double) (maxIters_ : Z)
  : d4Vector :=
  let initial :=
    TwoHyperParameterProblem.motionToProblem (mk_d2 sig_v_0 sig_d_0) in
  let '(final, minTsc) :=
    optimizeTwo st sig_acc initial inStep conv_ maxIters_ in
  let vd := TwoHyperParameterProblem.problemToMotion final in
  mk_d4 (d2_0 vd) (d2_1 vd) sig_acc (- minTsc).

Definition estimateThreeParamsNM (st : Estimator)
           (sig_v_0 sig_d_0 sig_a_0 inStep conv_ : double) (maxIters_ : Z)
  : d4Vector :=
  let initial :=
    ThreeHyperParameterProblem.motionToProblem
      (mk_d3 sig_v_0 sig_d_0 sig_a_0) in
  let '(final, minTsc) := optimizeThree st initial inStep conv_ maxIters_ in
  let vd := ThreeHyperParameterProblem.problemToMotion final in
  mk_d4 (d3_0 vd) (d3_1 vd) (d3_2 vd) (- minTsc).

(** [conv * 0.5 * ((int)(2.0*nrm/conv + 0.5)) / scale] *)
Definition roundToHalfConv (conv_ scale nrm : double) : option double :=
  match double_to_int (2 * nrm / conv_ + (1 # 2)) with
  | Some n => Some (conv_ * (1 # 2) * inject_Z n / scale)
  | None => None
  end.

(** The optimum [run] works with: the two-parameter estimate, replaced
    by the three-parameter one when [estim3] is set.  (The vector is
    declared without a value; one of the two flags is set wherever it
    is read.) *)
Definition optimum (st : Estimator) : d4Vector :=
  let o := opts st in
  let opt := mk_d4 0 0 0 0 in
  let opt :=
    if estim2 o then
      estimateTwoParamsNM st (sV o) (sD o) (sA o) (iniStep o) (conv o)
                          (maxIters o)
    else opt in
  if estim3 o then
    estimateThreeParamsNM st (sV o) (sD o) (sA o) (iniStep o) (conv o)
                          (maxIters o)
  else opt.

(** How [run] ends. *)
Inductive report : Type :=
| RunFatal (e : error)
| NothingToDo
| RunUndefined
| GoodParameters (rnd : d3Vector).

(** [MotionParamEstimator::run]: the three values printed after
    "good parameters:".  [prepAlignment] fills the alignment set, which
    only the optimiser's cost function reads. *)
Definition run (st : Estimator) : report :=
  if negb (ready st) then RunFatal NotInitialized else
  let o := opts st in
  if negb (estim2 o) && negb (estim3 o) then NothingToDo else
  let opt := optimum st in
  let nrm :=
    mk_d3 (d4_0 opt * velScale) (d4_1 opt * divScale)
          (d4_2 opt * accScale) in
  match roundToHalfConv (conv o) velScale (d3_0 nrm),
        roundToHalfConv (conv o) divScale (d3_1 nrm),
        roundToHalfConv (conv o) accScale (d3_2 nrm) with
  | Some r0, Some r1, Some r2 =>
      let rnd2 := if estim2 o then sA o else r2 in
      let rnd2 := if dleb (d4_2 opt) 0 then - (1) else rnd2 in
      GoodParameters (mk_d3 r0 r1 rnd2)
  | _, _, _ => RunUndefined
  end.

(** [MotionParamEstimator::anythingToDo]. *)
Definition anythingToDo (st : Estimator) : bool :=
  estim2 (opts st) || estim3 (opts st).

End Estimator.

Arguments mk_Estimator {MetaDataTable} _ _ _ _ _ _ _.
Arguments paramsRead {MetaDataTable} _.
Arguments ready {MetaDataTable} _.
Arguments opts {MetaDataTable} _.
Arguments cut {MetaDataTable} _.
Arguments ctx {MetaDataTable} _.
Arguments mdts {MetaDataTable} _.
Arguments k_out {MetaDataTable} _.
Arguments set_ctx {MetaDataTable} _ _.
Arguments set_cut {MetaDataTable} _ _.

End MotionParamEstimator.

(** ** Notions used in the statements *)

(** The step counts for which a narrowed interval keeps the decay it
    was narrowed around on its grid: 2, and the odd counts from 3. *)
Definition refiningSteps (steps : Z) : Prop :=
  steps = 2%Z \/ (Z.odd steps = true /\ (3 <= steps)%Z).

(** The elements of [l] at the indices [order], in that order; an
    index outside [l] gives none. *)
Definition lookupAll {A : Type} (l : list A) (order : list nat) : list A :=
  flat_map (fun m => match nth_error l m with
                     | Some x => [x]
                     | None => []
                     end) order.

(** The sum of the particle counts of a list of micrographs. *)
Definition particleTotal {A : Type} (count : A -> Z) (l : list A) : Z :=
  fold_right (fun md acc => (count md + acc)%Z) 0%Z l.

(** A micrograph the selection accepts: 2 particles or more. *)
Definition eligible {A : Type} (count : A -> Z) (md : A) : bool :=
  (2 <=? count md)%Z.

(** [q] to the power [n]. *)
Fixpoint qpow (q : Q) (n : nat) : Q :=
  match n with
  | O => 1
  | S n' => q * qpow q n'
  end.

(** The weighted least-squares sum of the lines that [findBKRec1D]
    keeps as a comment:
    [const double er = a * br - sr / tr; sum += tr * er * er;]. *)
Fixpoint leastSquaresSum (exp : double -> double) (s_rad : list double)
         (B a : double) (r : nat) (ts : list double) (sum : double) : double :=
  match ts with
  | [] => sum
  | tr :: ts' =>
      let sr := nth r s_rad 0 in
      let br := BFactorRefiner.sigVal exp B r in
      let er := a * br - sr / tr in
      leastSquaresSum exp s_rad B a (S r) ts' (sum + tr * er * er)
  end.

(** The sum over all radii, from 0. *)
Definition leastSquares (exp : double -> double) (t_rad s_rad : list double)
           (B a : double) : double :=
  leastSquaresSum exp s_rad B a 0 t_rad 0.

(** The values of [sqrt] at the pixels of an image of size [s_] are not
    negative and fit an [int]. *)
Definition sqrtInRange (sqrt : double -> double) (s_ : Z) : Prop :=
  forall y x : Z,
    (0 <= y < s_)%Z -> (0 <= x < BFactorRefiner.sh_of s_)%Z ->
    let xx := inject_Z x in
    let yy := inject_Z (BFactorRefiner.rowFrequency s_ y) in
    0 <= sqrt (xx * xx + yy * yy) <= inject_Z INT_MAX.

(** [N] is an integer nearest to [y]. *)
Definition nearestInteger (N : Z) (y : double) : Prop :=
  Qabs (inject_Z N - y) <= 1 # 2.

(** [N] is the integer nearest to [y]; of the two integers that a [y]
    halfway between them has at the same distance, the upper one. *)
Definition nearestHalfUp (N : Z) (y : double) : Prop :=
  inject_Z N - (1 # 2) <= y < inject_Z N + (1 # 2).

(** The radial vectors [(t_rad[0], s_rad[0])] of the path per
    micrograph, as [processMicrograph] has them when it calls
    [findBKRec1D]: the profiles of all particles added, radius by
    radius, to vectors of [sh = s/2 + 1] zeros. *)
Definition summedProfiles (s_ : Z) (profiles : list (list double * list double))
  : list double * list double :=
  let sh := Z.to_nat (Z.quot s_ 2 + 1) in
  let zero := repeat (0 : double) sh in
  fold_left (fun acc p => (BFactorRefiner.addProfile (fst acc) (fst p),
                           BFactorRefiner.addProfile (snd acc) (snd p)))
            profiles (zero, zero).

(** ** A concrete environment, for evaluating runs *)

Module Env.

(** Micrographs as a number and a particle count. *)
Record Mdt : Type := mk_Mdt { mdt_id : nat; mdt_particles : Z }.

(** A linear congruential generator in the place of the C library's:
    the state is the last value drawn. *)
Definition RAND_MAX : Z := 2147483647.
Definition srand (seed : Z) : Z := seed.
Definition rand (g : Z) : Z * Z :=
  let g' := ((g * 1103515245 + 12345) mod 2147483648)%Z in (g', g').

(** An index sort by insertion, in the place of [IndexSort]. *)
Fixpoint insertIndex (data : list double) (i : nat) (sorted : list nat)
  : list nat :=
  match sorted with
  | [] => [i]
  | j :: rest =>
      if dltb (nth i data 0) (nth j data 0) then i :: j :: rest
      else j :: insertIndex data i rest
  end.

Definition sortIndices (data : list double) : list nat :=
  fold_left (fun sorted i => insertIndex data i sorted)
            (seq 0 (length data)) [].

(** [angToPix] for a pixel size of 1 A. *)
Definition angToPix (a : double) (s : Z) : double := inject_Z s / a.

(** An optimiser that stops at its initial point (no iteration left). *)
Definition optimizeTwo {E : Type} (_ : E) (_ : double) (initial : list double)
           (_ _ : double) (_ : Z) : list double * double := (initial, 0).
Definition optimizeThree {E : Type} (_ : E) (initial : list double)
           (_ _ : double) (_ : Z) : list double * double := (initial, 0).

(** Six micrographs with 3, 1, 4, 2, 0 and 6 particles. *)
Definition micrographs : list Mdt :=
  [mk_Mdt 0 3; mk_Mdt 1 1; mk_Mdt 2 4; mk_Mdt 3 2; mk_Mdt 4 0; mk_Mdt 5 6].

(** An estimator as [read] leaves it. *)
Definition afterRead (o : MotionParamEstimator.Options)
           (c : MotionParamEstimator.Cutoffs)
  : MotionParamEstimator.Estimator Mdt :=
  MotionParamEstimator.mk_Estimator
    true false o c (MotionParamEstimator.mk_Context 0 1 false 0 0) [] 0.

(** An estimator as [init] leaves it. *)
Definition afterInit (o : MotionParamEstimator.Options)
  : MotionParamEstimator.Estimator Mdt :=
  MotionParamEstimator.mk_Estimator
    true true o (MotionParamEstimator.mk_Cutoffs 20 (64 # 20) 20 (64 # 20))
    (MotionParamEstimator.mk_Context 1 4 false 64 20)
    [mk_Mdt 2 4; mk_Mdt 3 2; mk_Mdt 5 6] 30.

(** An integer square root, rounded down, in the place of the C
    library's [sqrt]. *)
Definition sqrt (v : double) : double := inject_Z (Z.sqrt (Qfloor v)).

(** A particle of an image of size 4, and a weight of 1 everywhere. *)
Definition particle : BFactorRefiner.Particle :=
  BFactorRefiner.mk_Particle
    (fun y x => BFactorRefiner.mk_Complex (inject_Z (y + 1)) (inject_Z x))
    (fun y x => BFactorRefiner.mk_Complex 1 (inject_Z (x - y))).
Definition freqWeight (_ _ : Z) : double := 1.

(** [init] in this environment. *)
Definition init :=
  MotionParamEstimator.init Mdt mdt_particles Z srand rand RAND_MAX
                            sortIndices angToPix.

End Env.

(** ** Doubles as binary64

    The second numeric model: a C++ [double] as the binary64 value it
    is, with the operations of IEEE 754 (one rounding per operation, to
    nearest, ties to even), signed zeros, infinities and NaN. *)

Module Binary64.

Import PrimFloat.

Definition double : Type := float.

(** [std::numeric_limits<double>::max()]. *)
Definition DBL_MAX : double := 0x1.fffffffffffffp+1023%float.

Record d2Vector : Type := mk_d2 { d2_0 : double; d2_1 : double }.
Record d3Vector : Type := mk_d3 { d3_0 : double; d3_1 : double; d3_2 : double }.
Record d4Vector : Type :=
  mk_d4 { d4_0 : double; d4_1 : double; d4_2 : double; d4_3 : double }.

(** The conversion of an [int] to [double], which is exact (an [int]
    has 31 bits and a sign). *)
Definition of_int (n : Z) : double :=
  match n with
  | Z0 => 0%float
  | Zpos _ => of_uint63 (Uint63.of_Z n)
  | Zneg p => (- of_uint63 (Uint63.of_Z (Zpos p)))%float
  end.

(** The rational number that a finite double is (0 for an infinity and
    for NaN). *)
Definition toQ (x : double) : Q :=
  match FloatOps.Prim2SF x with
  | SpecFloat.S754_finite s m e =>
      let v := match e with
               | Zneg p => Zpos m # (2 ^ p)
               | _ => inject_Z (Zpos m * 2 ^ e)
               end in
      if s then - v else v
  | _ => 0
  end.

(** [(int) x]: the value truncated towards zero, defined when that fits
    an [int] (so neither for an infinity nor for NaN). *)
Definition double_to_int (x : double) : option Z :=
  match FloatOps.Prim2SF x with
  | SpecFloat.S754_zero _ => Some 0%Z
  | SpecFloat.S754_finite s m e =>
      let n := match e with
               | Zneg p => Z.shiftr (Zpos m) (Zpos p)
               | _ => (Zpos m * 2 ^ e)%Z
               end in
      let n := if s then (- n)%Z else n in
      if ((- 2 ^ 31 <=? n) && (n <=? 2 ^ 31 - 1))%Z then Some n else None
  | _ => None
  end.

(** A computable stand-in for the C library's [exp], used where a run
    is evaluated on a concrete input: the argument is reduced by a
    multiple of ln 2 and the exponential of the rest is a polynomial of
    degree 13.  Like the library's, it gives 1 at 0, NaN at NaN,
    overflows to infinity above 709.78 and underflows to 0 below
    -745.13; elsewhere it is the library's value or its neighbour.
    What is proved for every [exp] does not use it. *)
Definition ln2_hi : double := 0x1.62e42feep-1%float.
Definition ln2_lo : double := 0x1.a39ef35793c76p-33%float.
Definition inv_ln2 : double := 0x1.71547652b82fep+0%float.

Fixpoint horner (n : nat) (k : Z) (r acc : double) : double :=
  match n with
  | O => acc
  | S n' => horner n' (k - 1)%Z r (1 + r * acc / of_int k)%float
  end.

Definition exp_std (x : double) : double :=
  if is_nan x then x
  else if (0x1.62e42fefa39efp+9 <? x)%float then infinity
  else if (x <? -0x1.74910d52d3051p+9)%float then 0%float
  else
    let q := (x * inv_ln2)%float in
    let h := if (q <? 0)%float then (q - 0.5)%float else (q + 0.5)%float in
    match double_to_int h with
    | None => nan
    | Some k =>
        let kf := of_int k in
        let r := (x - kf * ln2_hi - kf * ln2_lo)%float in
        FloatOps.Z.ldexp (horner 13 13 r 1%float) k
    end.

End Binary64.

(** ** BFactorRefiner in binary64 *)

Module BFactorRefiner64.

Import PrimFloat.
Import Binary64.

Section Fit.

(** The C library's [exp]. *)
Variable exp : double -> double.

(** [const double eps = 1e-10;] *)
Definition eps : double := 0x1.b7cdfd9d7bdbbp-34%float.

(** The running optimum of one scan: [minErr], [bestB], [bestA]. *)
Record search : Type :=
  mk_search { minErr : double; bestB : double; bestA : double }.

Section Profiles.

(** [t_rad] and [s_rad]; [sh = t_rad.size()].  A read past the end of
    [s_rad] is read as 0, as in the first model. *)
Variables t_rad s_rad : list double.
Variable min_scale : double.
Variable steps : Z.

(** [sigVals[r] = exp(-B * r * r / 4.0)], every operation rounded. *)
Definition sigVal (B : double) (r : nat) : double :=
  exp (- B * of_int (Z.of_nat r) * of_int (Z.of_nat r) / 4)%float.

(** [num += sr * br; denom += tr * br * br;] from radius [r] on. *)
Fixpoint scaleSums (B : double) (r : nat) (ts : list double)
         (num denom : double) : double * double :=
  match ts with
  | [] => (num, denom)
  | tr :: ts' =>
      let sr := nth r s_rad 0%float in
      let br := sigVal B r in
      scaleSums B (S r) ts' (num + sr * br)%float (denom + tr * br * br)%float
  end.

(** [double a = denom > eps ? num / denom : num / eps;
     if (a < min_scale) a = min_scale;] *)
Definition scaleFor (B : double) : double :=
  let '(num, denom) := scaleSums B 0 t_rad 0%float 0%float in
  let a := if (eps <? denom)%float then (num / denom)%float
           else (num / eps)%float in
  if (a <? min_scale)%float then min_scale else a.

(** [sum += tr * a * a * br * br - 2.0 * a * br * sr;] *)
Fixpoint residualSum (B a : double) (r : nat) (ts : list double)
         (sum : double) : double :=
  match ts with
  | [] => sum
  | tr :: ts' =>
      let sr := nth r s_rad 0%float in
      let br := sigVal B r in
      residualSum B a (S r) ts'
        (sum + (tr * a * a * br * br - 2 * a * br * sr))%float
  end.

(** The residual the source minimises, as it computes it. *)
Definition residual (B a : double) : double :=
  residualSum B a 0 t_rad 0%float.

(** The candidate decay of step [st]:
    [B0 + st*(B1 - B0)/(steps-1)], where [st] and [steps-1] are
    converted from [int].  With [steps = 1] the quotient is [0.0/0]
    and the candidate is NaN. *)
Definition gridPoint (B0 B1 : double) (st : Z) : double :=
  (B0 + of_int st * (B1 - B0) / of_int (steps - 1))%float.

(** One pass of [for (int st = 0; st < steps; st++)]: [n] iterations
    are left and the counter stands at [st].  The test [sum < minErr]
    fails when [sum] is NaN. *)
Fixpoint stepLoop (B0 B1 : double) (n : nat) (st : Z) (cur : search)
  : search :=
  match n with
  | O => cur
  | S n' =>
      let B := gridPoint B0 B1 st in
      let a := scaleFor B in
      let sum := residual B a in
      let cur' := if (sum <? minErr cur)%float then mk_search sum B a
                  else cur in
      stepLoop B0 B1 n' (st + 1)%Z cur'
  end.

(** The scan of one interval, from the initial
    [minErr = DBL_MAX], [bestB = B0], [bestA = 1.0]. *)
Definition scan (B0 B1 : double) : search :=
  stepLoop B0 B1 (Z.to_nat steps) 0 (mk_search DBL_MAX B0 1%float).

(** [hrange = (B1 - B0) / (steps - 1.0)] and the interval of the
    recursive call, cut at [B0] and [B1]. *)
Definition nextInterval (B0 B1 : double) (best : double) : double * double :=
  let hrange := ((B1 - B0) / (of_int steps - 1))%float in
  let Bnext0 := (best - hrange)%float in
  let Bnext1 := (best + hrange)%float in
  let Bnext0 := if (Bnext0 <? B0)%float then B0 else Bnext0 in
  let Bnext1 := if (B1 <? Bnext1)%float then B1 else Bnext1 in
  (Bnext0, Bnext1).

(** The recursion of [findBKRec1D], by the number of recursive calls
    still to make; the whole state of the last scan is returned. *)
Fixpoint findBKRec1D_scan (depth : nat) (B0 B1 : double) : search :=
  let cur := scan B0 B1 in
  match depth with
  | O => cur
  | S depth' =>
      let '(Bnext0, Bnext1) := nextInterval B0 B1 (bestB cur) in
      findBKRec1D_scan depth' Bnext0 Bnext1
  end.

(** The interval that the last call of the recursion scans. *)
Fixpoint lastInterval (depth : nat) (B0 B1 : double) : double * double :=
  match depth with
  | O => (B0, B1)
  | S depth' =>
      let '(Bnext0, Bnext1) := nextInterval B0 B1 (bestB (scan B0 B1)) in
      lastInterval depth' Bnext0 Bnext1
  end.

End Profiles.

(** [BFactorRefiner::findBKRec1D]. *)
Definition findBKRec1D (t_rad s_rad : list double)
           (B0 B1 min_scale : double) (steps depth : Z) : d2Vector :=
  let cur := findBKRec1D_scan t_rad s_rad min_scale steps
               (Z.to_nat depth) B0 B1 in
  mk_d2 (bestB cur) (bestA cur).

(** [const int stepsPerIter = 20; const int numIters = 5;] *)
Definition stepsPerIter : Z := 20.
Definition numIters : Z := 5.

(** The fields of the refiner that the fit reads. *)
Record Refiner : Type :=
  mk_Refiner {
      perMicrograph : bool;
      min_B : double;
      max_B : double;
      min_scale : double;
      s : Z;
      angpix : double
    }.

(** [const double as = s * angpix;] *)
Definition as_ (rf : Refiner) : double := (of_int (s rf) * angpix rf)%float.

(** [min_B_px = min_B / (as*as)], [max_B_px = max_B / (as*as)] and the
    pair [findBKRec1D] returns for one pair of radial profiles. *)
Definition fitBK (rf : Refiner) (prof : list double * list double) : d2Vector :=
  let a := as_ rf in
  let min_B_px := (min_B rf / (a * a))%float in
  let max_B_px := (max_B rf / (a * a))%float in
  findBKRec1D (fst prof) (snd prof) min_B_px max_B_px (min_scale rf)
    stepsPerIter numIters.

(** [EMDL_CTF_BFACTOR = as*as*BK[0] - min_B] and
    [EMDL_CTF_SCALEFACTOR = BK[1]]. *)
Definition written (rf : Refiner) (BK : d2Vector) : double * double :=
  ((as_ rf * as_ rf * d2_0 BK - min_B rf)%float, d2_1 BK).

(** [processMicrograph] of a refiner that is ready, from the radial
    vectors the pixel loops fill to the rows of the table.  [profiles]
    holds the vectors [(t_rad, s_rad)] of each particle, [total] the
    vectors [(t_rad[0], s_rad[0])] of the path per micrograph after the
    threads' vectors are added up (in binary64 these sums depend on the
    order in which the threads add, so they are an argument here). *)
Definition processMicrograph (rf : Refiner)
           (total : list double * list double)
           (profiles : list (list double * list double))
  : list (double * double) :=
  if perMicrograph rf then
    let BK := fitBK rf total in
    map (fun _ => written rf BK) profiles
  else
    map (fun p => written rf (fitBK rf p)) profiles.

End Fit.

End BFactorRefiner64.

(** ** The report of run in binary64 *)

Module MotionParamEstimator64.

Import PrimFloat.
Import Binary64.

(** [MotionParamEstimator::velScale], [divScale] and [accScale]. *)
Definition velScale : double := 1000%float.
Definition divScale : double := 1%float.
Definition accScale : double := 10000%float.

(** [conv * 0.5 * ((int)(2.0*nrm/conv + 0.5)) / scale] *)
Definition roundToHalfConv (conv_ scale nrm : double) : option double :=
  match double_to_int (2 * nrm / conv_ + 0.5)%float with
  | Some n => Some (conv_ * 0.5 * of_int n / scale)%float
  | None => None
  end.

(** What [run] does with the optimum [opt] that the search returned
    (lines 232 to 251): the three values printed after
    "good parameters:". *)
Definition report (conv_ sA : double) (estim2 : bool) (opt : d4Vector)
  : option d3Vector :=
  let nrm :=
    mk_d3 (d4_0 opt * velScale)%float (d4_1 opt * divScale)%float
          (d4_2 opt * accScale)%float in
  match roundToHalfConv conv_ velScale (d3_0 nrm),
        roundToHalfConv conv_ divScale (d3_1 nrm),
        roundToHalfConv conv_ accScale (d3_2 nrm) with
  | Some r0, Some r1, Some r2 =>
      let rnd2 := if estim2 then sA else r2 in
      let rnd2 := if (d4_2 opt <=? 0)%float then (- 1)%float else rnd2 in
      Some (mk_d3 r0 r1 rnd2)
  | _, _, _ => None
  end.

End MotionParamEstimator64.

Module TwoHyperParameterProblem64.

Import PrimFloat.
Import Binary64.

(** Modelled from the spec: [TwoHyperParameterProblem::motionToProblem]
    on binary64 values, the rescaling of the first model with every
    product rounded. *)
Definition motionToProblem (vd : d2Vector) : list double :=
  [(d2_0 vd * MotionParamEstimator64.velScale)%float;
   (d2_1 vd * MotionParamEstimator64.divScale)%float].

(** Modelled from the spec: [TwoHyperParameterProblem::problemToMotion]
    on binary64 values, with every quotient rounded. *)
Definition problemToMotion (x : list double) : d2Vector :=
  mk_d2
    (nth 0 x 0%float / MotionParamEstimator64.velScale)%float
    (nth 1 x 0%float / MotionParamEstimator64.divScale)%float.

End TwoHyperParameterProblem64.

Module ThreeHyperParameterProblem64.

Import PrimFloat.
Import Binary64.

(** Modelled from the spec:
    [ThreeHyperParameterProblem::motionToProblem] on binary64 values. *)
Definition motionToProblem (vd : d3Vector)
  : list double :=
  [(d3_0 vd * MotionParamEstimator64.velScale)%float;
   (d3_1 vd * MotionParamEstimator64.divScale)%float;
   (d3_2 vd * MotionParamEstimator64.accScale)%float].

(** Modelled from the spec:
    [ThreeHyperParameterProblem::problemToMotion] on binary64 values. *)
Definition problemToMotion (x : list double)
  : d3Vector :=
  mk_d3
    (nth 0 x 0%float / MotionParamEstimator64.velScale)%float
    (nth 1 x 0%float / MotionParamEstimator64.divScale)%float
    (nth 2 x 0%float / MotionParamEstimator64.accScale)%float.

End ThreeHyperParameterProblem64.

(** * Properties *)

(** ** Comparisons and casts *)

Lemma dltb_lt (x y : double) : dltb x y = true <-> x < y.
Proof.
  unfold dltb. rewrite Qlt_alt. destruct (x ?= y); split; congruence.
Qed.

Lemma dltb_ge (x y : double) : dltb x y = false <-> y <= x.
Proof.
  unfold dltb. rewrite (Qge_alt x y). destruct (x ?= y); split; congruence.
Qed.

Lemma dleb_le (x y : double) : dleb x y = true <-> x <= y.
Proof.
  unfold dleb. rewrite (Qle_alt x y). destruct (x ?= y); split; congruence.
Qed.

Lemma dleb_gt (x y : double) : dleb x y = false <-> y < x.
Proof.
  unfold dleb. rewrite (Qgt_alt x y). destruct (x ?= y); split; congruence.
Qed.

(** Case analysis on a comparison of doubles, with the order fact. *)
Ltac case_ltb x y :=
  let H := fresh "Hcmp" in
  destruct (dltb x y) eqn:H;
  [ apply dltb_lt in H | apply dltb_ge in H ].

Lemma dltb_comp (x x' y y' : double) :
  x == x' -> y == y' -> dltb x y = dltb x' y'.
Proof.
  intros Hx Hy. unfold dltb. now rewrite Hx, Hy.
Qed.

(** ** The decay and scale search *)

Section FitFacts.

Import BFactorRefiner.

Variable exp : double -> double.
Variables t_rad s_rad : list double.
Variable min_scale : double.
Variable steps : Z.

Local Abbreviation scaleFor := (scaleFor exp t_rad s_rad min_scale).
Local Abbreviation residual := (residual exp t_rad s_rad).
Local Abbreviation stepLoop := (stepLoop exp t_rad s_rad min_scale steps).
Local Abbreviation scan := (scan exp t_rad s_rad min_scale steps).
Local Abbreviation nextInterval := (nextInterval steps).
Local Abbreviation gridPoint := (gridPoint steps).
Local Abbreviation scanInv := (scanInv min_scale).
Local Abbreviation findBKRec1D_scan := (findBKRec1D_scan exp t_rad s_rad min_scale steps).

Lemma scaleFor_min (B : double) : min_scale <= scaleFor B.
Proof.
  unfold BFactorRefiner.scaleFor.
  destruct (scaleSums exp s_rad B 0 t_rad 0 0) as [num denom].
  set (a := if dltb eps denom then num / denom else num / eps).
  case_ltb a min_scale; lra.
Qed.

Lemma gridPoint_range (B0 B1 : double) (st : Z) :
  (2 <= steps)%Z -> (0 <= st < steps)%Z -> B0 <= B1 ->
  B0 <= gridPoint B0 B1 st <= B1.
Proof.
  intros Hsteps Hst HB. unfold BFactorRefiner.gridPoint.
  assert (Hm : 0 < inject_Z (steps - 1)).
  { change 0 with (inject_Z 0). rewrite <- Zlt_Qlt. lia. }
  assert (Hk0 : 0 <= inject_Z st).
  { change 0 with (inject_Z 0). rewrite <- Zle_Qle. lia. }
  assert (Hk1 : inject_Z st <= inject_Z (steps - 1)).
  { rewrite <- Zle_Qle. lia. }
  set (k := inject_Z st) in *. set (m := inject_Z (steps - 1)) in *.
  assert (H0 : 0 <= k * (B1 - B0) / m).
  { apply Qle_shift_div_l; [exact Hm|]. nra. }
  assert (H1 : k * (B1 - B0) / m <= B1 - B0).
  { apply Qle_shift_div_r; [exact Hm|]. nra. }
  lra.
Qed.

Lemma stepLoop_inv (lo hi B0 B1 : double) (n : nat) (st : Z) (cur : search) :
  (2 <= steps)%Z -> (0 <= st)%Z -> (st + Z.of_nat n <= steps)%Z ->
  lo <= B0 -> B0 <= B1 -> B1 <= hi ->
  scanInv lo hi cur -> scanInv lo hi (stepLoop B0 B1 n st cur).
Proof.
  intros Hsteps. revert st cur.
  induction n as [|n IH]; intros st cur Hst Hn Hlo HB Hhi Hcur; [exact Hcur|].
  cbn [BFactorRefiner.stepLoop].
  apply IH; try lia; try assumption.
  set (B := gridPoint B0 B1 st).
  case_ltb (residual B (scaleFor B)) (minErr cur); [|exact Hcur].
  destruct Hcur as (_ & Hmax & _ & _).
  pose proof (gridPoint_range B0 B1 st Hsteps ltac:(lia) HB) as HBr.
  pose proof (scaleFor_min B) as Hmin.
  fold B in HBr.
  unfold BFactorRefiner.scanInv; cbn [bestB bestA minErr].
  repeat split; lra.
Qed.

Lemma scan_inv (lo hi B0 B1 : double) :
  (2 <= steps)%Z -> lo <= B0 -> B0 <= B1 -> B1 <= hi ->
  scanInv lo hi (scan B0 B1).
Proof.
  intros Hsteps Hlo HB Hhi. unfold BFactorRefiner.scan.
  apply stepLoop_inv; try assumption; try lia.
  unfold BFactorRefiner.scanInv; cbn [bestB bestA minErr].
  repeat split; try lra. now left.
Qed.

Lemma nextInterval_range (B0 B1 best : double) :
  (2 <= steps)%Z -> B0 <= best <= B1 ->
  B0 <= fst (nextInterval B0 B1 best) /\
  fst (nextInterval B0 B1 best) <= best /\
  best <= snd (nextInterval B0 B1 best) /\
  snd (nextInterval B0 B1 best) <= B1.
Proof.
  intros Hsteps Hb. unfold BFactorRefiner.nextInterval. cbn [fst snd].
  assert (Hm : 0 < inject_Z steps - 1).
  { assert (inject_Z 2 <= inject_Z steps) by (rewrite <- Zle_Qle; lia).
    change (inject_Z 2) with 2 in H. lra. }
  assert (Hh : 0 <= (B1 - B0) / (inject_Z steps - 1)).
  { apply Qle_shift_div_l; [exact Hm|]. lra. }
  set (h := (B1 - B0) / (inject_Z steps - 1)) in *.
  case_ltb (best - h) B0; case_ltb B1 (best + h); repeat split; lra.
Qed.

Lemma findBKRec1D_scan_inv (depth : nat) (lo hi B0 B1 : double) :
  (2 <= steps)%Z -> lo <= B0 -> B0 <= B1 -> B1 <= hi ->
  scanInv lo hi (findBKRec1D_scan depth B0 B1).
Proof.
  intros Hsteps. revert B0 B1.
  induction depth as [|d IH]; intros B0 B1 Hlo HB Hhi;
    cbn [BFactorRefiner.findBKRec1D_scan].
  - now apply scan_inv.
  - pose proof (scan_inv B0 B1 B0 B1 Hsteps ltac:(lra) HB ltac:(lra))
      as ((Hb0 & Hb1) & _).
    pose proof (nextInterval_range B0 B1 _ Hsteps (conj Hb0 Hb1))
      as (H0 & H1 & H2 & H3).
    destruct (nextInterval B0 B1 (bestB (scan B0 B1))) as [n0 n1].
    cbn [fst snd] in *. apply IH; lra.
Qed.

(** *** Equal decays give equal candidates *)

Lemma sigVal_comp (B B' : double) (r : nat) :
  B == B' -> sigVal exp B r = sigVal exp B' r.
Proof.
  intros HB. unfold sigVal. f_equal. apply Qred_complete. now rewrite HB.
Qed.

Lemma scaleSums_comp (B B' : double) (ts : list double) :
  B == B' ->
  forall (r : nat) (num num' denom denom' : double),
    num == num' -> denom == denom' ->
    fst (scaleSums exp s_rad B r ts num denom)
      == fst (scaleSums exp s_rad B' r ts num' denom') /\
    snd (scaleSums exp s_rad B r ts num denom)
      == snd (scaleSums exp s_rad B' r ts num' denom').
Proof.
  intros HB. induction ts as [|tr ts IH]; intros r num num' denom denom' Hn Hd.
  - cbn. now split.
  - cbn [scaleSums]. rewrite (sigVal_comp B B' r HB).
    apply IH; [now rewrite Hn | now rewrite Hd].
Qed.

Lemma scaleFor_comp (B B' : double) : B == B' -> scaleFor B == scaleFor B'.
Proof.
  intros HB. unfold BFactorRefiner.scaleFor.
  pose proof (scaleSums_comp B B' t_rad HB 0%nat 0 0 0 0
                (Qeq_refl 0) (Qeq_refl 0)) as [Hn Hd].
  destruct (scaleSums exp s_rad B 0 t_rad 0 0) as [num denom].
  destruct (scaleSums exp s_rad B' 0 t_rad 0 0) as [num' denom'].
  cbn [fst snd] in Hn, Hd.
  rewrite (dltb_comp eps eps denom denom' (Qeq_refl _) Hd).
  assert (Ha : (if dltb eps denom' then num / denom else num / eps)
               == (if dltb eps denom' then num' / denom' else num' / eps)).
  { destruct (dltb eps denom'); now rewrite ?Hn, ?Hd. }
  rewrite (dltb_comp _ _ min_scale min_scale Ha (Qeq_refl _)).
  destruct (dltb _ min_scale); [reflexivity | exact Ha].
Qed.

Lemma residualSum_comp (B B' a a' : double) (ts : list double) :
  B == B' -> a == a' ->
  forall (r : nat) (sum sum' : double),
    sum == sum' ->
    residualSum exp s_rad B a r ts sum == residualSum exp s_rad B' a' r ts sum'.
Proof.
  intros HB Ha. induction ts as [|tr ts IH]; intros r sum sum' Hs.
  - exact Hs.
  - cbn [residualSum]. rewrite (sigVal_comp B B' r HB).
    apply IH. now rewrite Hs, Ha.
Qed.

Lemma residual_comp (B B' a a' : double) :
  B == B' -> a == a' -> residual B a == residual B' a'.
Proof.
  intros HB Ha. unfold BFactorRefiner.residual.
  now apply residualSum_comp.
Qed.

(** The residual of the candidate at decay [B], with its own scale. *)
Lemma candidate_comp (B B' : double) :
  B == B' -> residual B (scaleFor B) == residual B' (scaleFor B').
Proof.
  intros HB. apply residual_comp; [exact HB | now apply scaleFor_comp].
Qed.

(** *** What a scan returns *)

(** The state a scan takes when it accepts the candidate of step [k]. *)
Local Abbreviation accepted B0 B1 k :=
  (mk_search (residual (gridPoint B0 B1 k) (scaleFor (gridPoint B0 B1 k)))
             (gridPoint B0 B1 k) (scaleFor (gridPoint B0 B1 k))).

Lemma stepLoop_minErr_le (B0 B1 : double) (n : nat) (st : Z) (cur : search) :
  minErr (stepLoop B0 B1 n st cur) <= minErr cur.
Proof.
  revert st cur. induction n as [|n IH]; intros st cur; cbn [BFactorRefiner.stepLoop].
  - lra.
  - eapply Qle_trans; [apply IH|].
    set (B := gridPoint B0 B1 st).
    case_ltb (residual B (scaleFor B)) (minErr cur); cbn [minErr]; lra.
Qed.

Lemma stepLoop_minErr_cand (B0 B1 : double) (n : nat) (st : Z) (cur : search) (k : Z) :
  (st <= k < st + Z.of_nat n)%Z ->
  minErr (stepLoop B0 B1 n st cur)
    <= residual (gridPoint B0 B1 k) (scaleFor (gridPoint B0 B1 k)).
Proof.
  revert st cur. induction n as [|n IH]; intros st cur Hk; [lia|].
  cbn [BFactorRefiner.stepLoop].
  destruct (Z.eq_dec k st) as [->|Hne].
  - eapply Qle_trans; [apply stepLoop_minErr_le|].
    set (B := gridPoint B0 B1 st).
    case_ltb (residual B (scaleFor B)) (minErr cur); cbn [minErr]; lra.
  - apply IH. lia.
Qed.

Lemma stepLoop_accepted (B0 B1 : double) (n : nat) (st : Z) (cur : search) :
  stepLoop B0 B1 n st cur = cur \/
  exists k, (st <= k < st + Z.of_nat n)%Z /\
            stepLoop B0 B1 n st cur = accepted B0 B1 k.
Proof.
  revert st cur. induction n as [|n IH]; intros st cur; [now left|].
  cbn [BFactorRefiner.stepLoop].
  set (B := gridPoint B0 B1 st).
  destruct (IH (st + 1)%Z
               (if dltb (residual B (scaleFor B)) (minErr cur)
                then mk_search (residual B (scaleFor B)) B (scaleFor B)
                else cur)) as [Heq | (k & Hk & Heq)].
  - rewrite Heq. destruct (dltb _ (minErr cur)); [right|now left].
    exists st. split; [lia|reflexivity].
  - right. exists k. split; [lia|exact Heq].
Qed.

Lemma scan_accepted (B0 B1 : double) :
  minErr (scan B0 B1) < DBL_MAX ->
  exists k, (0 <= k < steps)%Z /\ scan B0 B1 = accepted B0 B1 k.
Proof.
  intros Hacc. unfold BFactorRefiner.scan in *.
  destruct (stepLoop_accepted B0 B1 (Z.to_nat steps) 0 (mk_search DBL_MAX B0 1))
    as [Heq | (k & Hk & Heq)].
  - rewrite Heq in Hacc. cbn [minErr] in Hacc. lra.
  - exists k. split; [lia|exact Heq].
Qed.

Lemma scan_minErr_cand (B0 B1 : double) (k : Z) :
  (0 <= k < steps)%Z ->
  minErr (scan B0 B1)
    <= residual (gridPoint B0 B1 k) (scaleFor (gridPoint B0 B1 k)).
Proof.
  intros Hk. unfold BFactorRefiner.scan. apply stepLoop_minErr_cand. lia.
Qed.


Lemma grid_first (M x y : Q) : ~ M == 0 -> x + 0 * (y - x) / M == x.
Proof. intros HM. field. exact HM. Qed.

Lemma grid_last (M x y : Q) : ~ M == 0 -> x + M * (y - x) / M == y.
Proof. intros HM. field. exact HM. Qed.

Lemma grid_mid (M N x y : Q) :
  M == 2 * N -> ~ N == 0 -> x + N * (y - x) / M == (x + y) * (1 # 2).
Proof.
  intros HM HN.
  assert (H : x + N * (y - x) / M == x + N * (y - x) / (2 * N))
    by now rewrite HM.
  rewrite H. field. exact HN.
Qed.

(** With 2 steps, or an odd number of steps, the grid of the narrowed
    interval contains the decay it was narrowed around. *)
Lemma grid_refines (B0 B1 : double) (k : Z) :
  refiningSteps steps -> B0 <= B1 -> (0 <= k < steps)%Z ->
  let best := gridPoint B0 B1 k in
  exists j, (0 <= j < steps)%Z /\
    gridPoint (fst (nextInterval B0 B1 best)) (snd (nextInterval B0 B1 best)) j
      == best.
Proof.
  intros Hgood HB Hk best.
  assert (Hsteps : (2 <= steps)%Z) by (destruct Hgood as [->|[_ ?]]; lia).
  assert (HM' : inject_Z steps - 1 == inject_Z (steps - 1)).
  { unfold Z.sub. rewrite inject_Z_plus. reflexivity. }
  assert (HM1 : 1 <= inject_Z (steps - 1)).
  { change 1 with (inject_Z 1). rewrite <- Zle_Qle. lia. }
  assert (HK0 : 0 <= inject_Z k).
  { change 0 with (inject_Z 0). rewrite <- Zle_Qle. lia. }
  assert (Hbest : best == B0 + inject_Z k * ((B1 - B0) / (inject_Z steps - 1))).
  { subst best. unfold BFactorRefiner.gridPoint. rewrite HM'. field. lra. }
  assert (Hh : (B1 - B0) / (inject_Z steps - 1) * inject_Z (steps - 1) == B1 - B0).
  { rewrite HM'. field. lra. }
  unfold BFactorRefiner.nextInterval. cbn [fst snd].
  set (h := (B1 - B0) / (inject_Z steps - 1)) in *.
  clearbody best.
  set (M := inject_Z (steps - 1)) in *.
  assert (Hh0 : 0 <= h) by nra.
  assert (HM0 : ~ M == 0) by lra.
  destruct (Z.eq_dec k 0) as [Hk0|Hk0]; [|destruct (Z.eq_dec k (steps - 1)) as [Hk1|Hk1]].
  - exists 0%Z. split; [lia|].
    assert (HK : inject_Z k == 0) by (rewrite Hk0; reflexivity).
    assert (best == B0) by (rewrite Hbest, HK; ring).
    unfold BFactorRefiner.gridPoint. change (inject_Z 0) with 0. fold M.
    rewrite grid_first by exact HM0.
    case_ltb (best - h) B0; lra.
  - exists (steps - 1)%Z. split; [lia|]. unfold BFactorRefiner.gridPoint. fold M.
    assert (HK : inject_Z k == M) by (rewrite Hk1; reflexivity).
    assert (best == B1) by (rewrite Hbest, HK; lra).
    rewrite grid_last by exact HM0.
    case_ltb B1 (best + h); lra.
  - destruct Hgood as [->|[Hodd _]]; [lia|].
    destruct (Zeven_ex (steps - 1)) as [n Hn].
    { rewrite Zeven_equiv, <- Z.even_spec, Z.even_sub, <- Z.negb_odd, Hodd.
      reflexivity. }
    assert (HM : M == 2 * inject_Z n).
    { subst M. rewrite Hn, inject_Z_mult. reflexivity. }
    assert (HN : 1 <= inject_Z n).
    { change 1 with (inject_Z 1). rewrite <- Zle_Qle. lia. }
    set (N := inject_Z n) in *.
    assert (HN0 : ~ N == 0) by lra.
    exists n. split; [lia|]. unfold BFactorRefiner.gridPoint. fold M N.
    assert (HKa : 1 <= inject_Z k).
    { change 1 with (inject_Z 1). rewrite <- Zle_Qle. lia. }
    assert (HKb : inject_Z k + 1 <= M).
    { change 1 with (inject_Z 1). rewrite <- inject_Z_plus. subst M.
      rewrite <- Zle_Qle. lia. }
    assert (B0 <= best - h) by nra.
    assert (best + h <= B1) by nra.
    rewrite (grid_mid M N) by assumption.
    case_ltb (best - h) B0; case_ltb B1 (best + h); lra.
Qed.

(** One more scan, on the interval narrowed around an accepted
    candidate, finds a residual that is no larger. *)
Lemma scan_refines (B0 B1 : double) :
  refiningSteps steps -> B0 <= B1 ->
  minErr (scan B0 B1) < DBL_MAX ->
  minErr (scan (fst (nextInterval B0 B1 (bestB (scan B0 B1))))
               (snd (nextInterval B0 B1 (bestB (scan B0 B1)))))
    <= minErr (scan B0 B1).
Proof.
  intros Hgood HB Hacc.
  destruct (scan_accepted B0 B1 Hacc) as (k & Hk & Heq).
  rewrite Heq. cbn [bestB minErr].
  destruct (grid_refines B0 B1 k Hgood HB Hk) as (j & Hj & Hgrid).
  eapply Qle_trans; [apply (scan_minErr_cand _ _ j Hj)|].
  rewrite (candidate_comp _ _ Hgrid). lra.
Qed.

Lemma findBKRec1D_scan_refines (d : nat) (B0 B1 : double) :
  refiningSteps steps -> B0 <= B1 ->
  minErr (findBKRec1D_scan d B0 B1) < DBL_MAX ->
  minErr (findBKRec1D_scan (S d) B0 B1) <= minErr (findBKRec1D_scan d B0 B1).
Proof.
  intros Hgood.
  assert (Hsteps : (2 <= steps)%Z) by (destruct Hgood as [->|[_ ?]]; lia).
  revert B0 B1.
  induction d as [|d IH]; intros B0 B1 HB Hacc.
  - cbn [BFactorRefiner.findBKRec1D_scan] in *.
    pose proof (scan_refines B0 B1 Hgood HB Hacc) as H.
    destruct (nextInterval B0 B1 (bestB (scan B0 B1))) as [n0 n1].
    exact H.
  - change (findBKRec1D_scan (S (S d)) B0 B1)
      with (let '(n0, n1) := nextInterval B0 B1 (bestB (scan B0 B1)) in
            findBKRec1D_scan (S d) n0 n1).
    change (findBKRec1D_scan (S d) B0 B1)
      with (let '(n0, n1) := nextInterval B0 B1 (bestB (scan B0 B1)) in
            findBKRec1D_scan d n0 n1) in Hacc |- *.
    pose proof (scan_inv B0 B1 B0 B1
                  ltac:(lia) ltac:(lra) HB ltac:(lra)) as (Hb & _).
    pose proof (nextInterval_range B0 B1 _ ltac:(lia) Hb)
      as (H0 & H1 & H2 & H3).
    destruct (nextInterval B0 B1 (bestB (scan B0 B1))) as [n0 n1].
    cbn [fst snd] in *. apply IH; [lra|exact Hacc].
Qed.

(** When the last scan accepted a candidate, its [minErr] is the
    residual of the pair that is returned. *)
Lemma findBKRec1D_scan_residual (d : nat) (B0 B1 : double) :
  minErr (findBKRec1D_scan d B0 B1) < DBL_MAX ->
  minErr (findBKRec1D_scan d B0 B1)
  = residual (bestB (findBKRec1D_scan d B0 B1))
             (bestA (findBKRec1D_scan d B0 B1)).
Proof.
  revert B0 B1. induction d as [|d IH]; intros B0 B1 Hacc.
  - cbn [BFactorRefiner.findBKRec1D_scan] in *.
    destruct (scan_accepted B0 B1 Hacc) as (k & _ & Heq).
    rewrite Heq. reflexivity.
  - cbn [BFactorRefiner.findBKRec1D_scan] in *.
    destruct (nextInterval B0 B1 (bestB (scan B0 B1))) as [n0 n1].
    now apply IH.
Qed.

End FitFacts.

(** ** The order of binary64 *)

Section Binary64Order.

Import PrimFloat SpecFloat FloatOps FloatAxioms.
Import Binary64.

Lemma SFcompare_opp (a b : spec_float) :
  SFcompare b a = option_map CompOpp (SFcompare a b).
Proof.
  destruct a as [sa|sa| |sa ma ea], b as [sb|sb| |sb mb eb];
    cbn [SFcompare option_map];
    repeat match goal with s : bool |- _ => destruct s end;
    try reflexivity;
    change (Pos.compare_cont Eq mb ma) with (Pos.compare mb ma);
    change (Pos.compare_cont Eq ma mb) with (Pos.compare ma mb);
    rewrite (Z.compare_antisym ea eb), (Pos.compare_antisym ma mb);
    destruct (Z.compare ea eb), (Pos.compare ma mb); reflexivity.
Qed.

Lemma SFcompare_refl (a : spec_float) :
  a <> S754_nan -> SFcompare a a = Some Eq.
Proof.
  destruct a as [s|s| |s m e]; intros Ha; try congruence;
    cbn [SFcompare]; try (destruct s; reflexivity).
  change (Pos.compare_cont Eq m m) with (Pos.compare m m).
  rewrite Z.compare_refl, Pos.compare_refl. destruct s; reflexivity.
Qed.

(** How two comparisons that are not [Gt] compose. *)
Local Abbreviation compose c1 c2 :=
  (match c1, c2 with
   | Eq, Eq => Eq
   | _, _ => Lt
   end).

Lemma SFcompare_finite_trans (s1 s2 s3 : bool) (m1 m2 m3 : positive)
      (e1 e2 e3 : Z) (c1 c2 : comparison) :
  c1 <> Gt -> c2 <> Gt ->
  SFcompare (S754_finite s1 m1 e1) (S754_finite s2 m2 e2) = Some c1 ->
  SFcompare (S754_finite s2 m2 e2) (S754_finite s3 m3 e3) = Some c2 ->
  SFcompare (S754_finite s1 m1 e1) (S754_finite s3 m3 e3)
  = Some (compose c1 c2).
Proof.
  intros Hc1 Hc2. cbn [SFcompare].
  change (Pos.compare_cont Eq m1 m2) with (Pos.compare m1 m2).
  change (Pos.compare_cont Eq m2 m3) with (Pos.compare m2 m3).
  change (Pos.compare_cont Eq m1 m3) with (Pos.compare m1 m3).
  intros H1 H2. injection H1 as H1. injection H2 as H2. subst c1 c2.
  destruct s1, s2, s3; try congruence; try reflexivity;
    destruct (Z.compare_spec e1 e2), (Z.compare_spec e2 e3),
      (Z.compare_spec e1 e3); try congruence; try reflexivity; try lia;
    destruct (Pos.compare_spec m1 m2), (Pos.compare_spec m2 m3),
      (Pos.compare_spec m1 m3); cbn [CompOpp] in *;
    try congruence; try reflexivity; lia.
Qed.

Lemma SFcompare_trans (a b c : spec_float) (c1 c2 : comparison) :
  c1 <> Gt -> c2 <> Gt ->
  SFcompare a b = Some c1 -> SFcompare b c = Some c2 ->
  SFcompare a c = Some (compose c1 c2).
Proof.
  intros Hc1 Hc2 H1 H2.
  destruct a as [sa|sa| |sa ma ea], b as [sb|sb| |sb mb eb],
    c as [sc|sc| |sc mc ec];
    try (now apply (SFcompare_finite_trans sa sb sc ma mb mc ea eb ec));
    cbn [SFcompare] in *; try discriminate;
    repeat match goal with s : bool |- _ => destruct s end;
    destruct c1, c2; try congruence; try reflexivity.
Qed.

Lemma double_is_nan_spec (x : double) :
  is_nan x = true <-> Prim2SF x = S754_nan.
Proof.
  unfold is_nan. rewrite eqb_spec. unfold SFeqb. split.
  - destruct (Prim2SF x) as [s|s| |s m e] eqn:E; try reflexivity;
      rewrite SFcompare_refl; discriminate.
  - intros ->. reflexivity.
Qed.

Lemma double_not_nan_spec (x : double) :
  is_nan x = false <-> Prim2SF x <> S754_nan.
Proof.
  rewrite <- double_is_nan_spec. destruct (is_nan x); split; congruence.
Qed.

Lemma double_ltb_compare (x y : double) :
  (x <? y)%float = true <-> SFcompare (Prim2SF x) (Prim2SF y) = Some Lt.
Proof.
  rewrite ltb_spec. unfold SFltb.
  destruct (SFcompare _ _) as [[| |]|]; split; congruence.
Qed.

Lemma double_leb_compare (x y : double) :
  (x <=? y)%float = true <->
  exists c, c <> Gt /\ SFcompare (Prim2SF x) (Prim2SF y) = Some c.
Proof.
  rewrite leb_spec. unfold SFleb.
  destruct (SFcompare _ _) as [[| |]|]; split;
    try congruence; try (intros [c [Hc H]]; congruence);
    intros _; eexists; (split; [|reflexivity]); discriminate.
Qed.

Lemma double_ltb_irrefl (x : double) : (x <? x)%float = false.
Proof.
  destruct (x <? x)%float eqn:E; [|reflexivity].
  apply double_ltb_compare in E.
  destruct (Prim2SF x) as [s|s| |s m e] eqn:Ex; try discriminate;
    rewrite SFcompare_refl in E; discriminate.
Qed.

Lemma double_ltb_trans (x y z : double) :
  (x <? y)%float = true -> (y <? z)%float = true -> (x <? z)%float = true.
Proof.
  rewrite !double_ltb_compare. intros H1 H2.
  apply (SFcompare_trans _ (Prim2SF y) _ Lt Lt); try discriminate;
    assumption.
Qed.

Lemma double_ltb_leb_trans (x y z : double) :
  (x <? y)%float = true -> (y <=? z)%float = true -> (x <? z)%float = true.
Proof.
  rewrite !double_ltb_compare, double_leb_compare. intros H1 [c [Hc H2]].
  rewrite (SFcompare_trans _ (Prim2SF y) _ Lt c);
    try discriminate; try assumption.
  destruct c; cbn; congruence.
Qed.

Lemma double_leb_ltb_trans (x y z : double) :
  (x <=? y)%float = true -> (y <? z)%float = true -> (x <? z)%float = true.
Proof.
  rewrite !double_ltb_compare, double_leb_compare. intros [c [Hc H1]] H2.
  rewrite (SFcompare_trans _ (Prim2SF y) _ c Lt);
    try discriminate; try assumption.
  destruct c; cbn; congruence.
Qed.

Lemma double_leb_trans (x y z : double) :
  (x <=? y)%float = true -> (y <=? z)%float = true -> (x <=? z)%float = true.
Proof.
  rewrite !double_leb_compare. intros [c1 [Hc1 H1]] [c2 [Hc2 H2]].
  exists (compose c1 c2). split.
  - destruct c1, c2; cbn; congruence.
  - now apply SFcompare_trans with (b := Prim2SF y).
Qed.

Lemma double_ltb_not_nan (x y : double) :
  (x <? y)%float = true -> is_nan x = false /\ is_nan y = false.
Proof.
  rewrite double_ltb_compare, !double_not_nan_spec. intros H.
  split; intros E; rewrite E in H;
    [|destruct (Prim2SF x)]; discriminate.
Qed.

Lemma double_leb_refl (x : double) : is_nan x = false -> (x <=? x)%float = true.
Proof.
  rewrite double_not_nan_spec, double_leb_compare. intros H. exists Eq.
  split; [discriminate | now apply SFcompare_refl].
Qed.

(** Two doubles that are not NaN are comparable. *)
Lemma double_ltb_false_leb (x y : double) :
  is_nan x = false -> is_nan y = false ->
  (x <? y)%float = false -> (y <=? x)%float = true.
Proof.
  rewrite !double_not_nan_spec. intros Hx Hy H.
  apply double_leb_compare. rewrite SFcompare_opp.
  destruct (SFcompare (Prim2SF x) (Prim2SF y)) as [c|] eqn:E.
  - exists (CompOpp c). split; [|reflexivity].
    destruct c; cbn; try discriminate.
    apply double_ltb_compare in E. congruence.
  - destruct (Prim2SF x), (Prim2SF y); cbn in E; congruence.
Qed.

Lemma double_leb_not_ltb (x y : double) :
  (x <=? y)%float = true -> (y <? x)%float = false.
Proof.
  rewrite double_leb_compare. intros [c [Hc H]].
  destruct (y <? x)%float eqn:E; [|reflexivity].
  apply double_ltb_compare in E. rewrite SFcompare_opp, H in E.
  destruct c; cbn in E; congruence.
Qed.

Lemma double_ltb_leb (x y : double) :
  (x <? y)%float = true -> (x <=? y)%float = true.
Proof.
  rewrite double_ltb_compare, double_leb_compare. intros H. exists Lt.
  split; [discriminate | assumption].
Qed.

(** NaN is absorbing for the arithmetic of the fit. *)
Lemma double_mul_nan_l (x y : double) : is_nan x = true -> is_nan (x * y) = true.
Proof.
  rewrite !double_is_nan_spec, mul_spec. intros ->. reflexivity.
Qed.

Lemma double_mul_nan_r (x y : double) : is_nan y = true -> is_nan (x * y) = true.
Proof.
  rewrite !double_is_nan_spec, mul_spec. intros ->.
  destruct (Prim2SF x); reflexivity.
Qed.

Lemma double_add_nan_l (x y : double) : is_nan x = true -> is_nan (x + y) = true.
Proof.
  rewrite !double_is_nan_spec, add_spec. intros ->. reflexivity.
Qed.

Lemma double_add_nan_r (x y : double) : is_nan y = true -> is_nan (x + y) = true.
Proof.
  rewrite !double_is_nan_spec, add_spec. intros ->.
  destruct (Prim2SF x); reflexivity.
Qed.

Lemma double_sub_nan_l (x y : double) : is_nan x = true -> is_nan (x - y) = true.
Proof.
  rewrite !double_is_nan_spec, sub_spec. intros ->. reflexivity.
Qed.

Lemma double_sub_nan_r (x y : double) : is_nan y = true -> is_nan (x - y) = true.
Proof.
  rewrite !double_is_nan_spec, sub_spec. intros ->.
  destruct (Prim2SF x); reflexivity.
Qed.

Lemma double_div_nan_l (x y : double) : is_nan x = true -> is_nan (x / y) = true.
Proof.
  rewrite !double_is_nan_spec, div_spec. intros ->. reflexivity.
Qed.

End Binary64Order.

(** ** The decay and scale search in binary64 *)

Section Fit64Facts.

Import PrimFloat.
Import Binary64 BFactorRefiner64.

Variable exp : double -> double.
Variables t_rad s_rad : list double.
Variable min_scale : double.
Variable steps : Z.

Local Abbreviation residualSum := (residualSum exp s_rad).
Local Abbreviation scaleFor := (scaleFor exp t_rad s_rad min_scale).
Local Abbreviation residual := (residual exp t_rad s_rad).
Local Abbreviation stepLoop := (stepLoop exp t_rad s_rad min_scale steps).
Local Abbreviation scan := (scan exp t_rad s_rad min_scale steps).
Local Abbreviation nextInterval := (nextInterval steps).
Local Abbreviation findBKRec1D_scan :=
  (findBKRec1D_scan exp t_rad s_rad min_scale steps).
Local Abbreviation lastInterval :=
  (lastInterval exp t_rad s_rad min_scale steps).
Local Abbreviation gridPoint := (gridPoint steps).

Local Abbreviation candErr B0 B1 k :=
  (residual (gridPoint B0 B1 k) (scaleFor (gridPoint B0 B1 k))).
Local Abbreviation cand B0 B1 k :=
  (mk_search (candErr B0 B1 k) (gridPoint B0 B1 k)
             (scaleFor (gridPoint B0 B1 k))).

(** *** What a scan keeps *)

(** A pass of the loop either leaves the state as it is, and then no
    candidate was below [minErr]; or it ends on the candidate of a step
    [k], which no candidate is below and which is below every earlier
    candidate that is not NaN. *)
Lemma stepLoop_cases64 (B0 B1 : double) (n : nat) :
  forall (st : Z) (cur : search),
    (stepLoop B0 B1 n st cur = cur /\
     forall j, (st <= j < st + Z.of_nat n)%Z ->
               (candErr B0 B1 j <? minErr cur)%float = false)
    \/
    exists k, (st <= k < st + Z.of_nat n)%Z /\
      stepLoop B0 B1 n st cur = cand B0 B1 k /\
      (candErr B0 B1 k <? minErr cur)%float = true /\
      (forall j, (st <= j < st + Z.of_nat n)%Z ->
                 (candErr B0 B1 j <? candErr B0 B1 k)%float = false) /\
      (forall j, (st <= j < k)%Z ->
                 (candErr B0 B1 k <? candErr B0 B1 j)%float = true \/
                 is_nan (candErr B0 B1 j) = true).
Proof.
  induction n as [|n IH]; intros st cur.
  { left. split; [reflexivity|]. intros j Hj. lia. }
  cbn [BFactorRefiner64.stepLoop].
  destruct (candErr B0 B1 st <? minErr cur)%float eqn:Hacc.
  - destruct (IH (st + 1)%Z (cand B0 B1 st))
      as [[Heq Hmin] | (k & Hk & Heq & Hlt & Hmin & Hfirst)];
      cbn [minErr] in *.
    + right. exists st. split; [lia|]. split; [exact Heq|].
      split; [exact Hacc|]. split.
      * intros j Hj. destruct (Z.eq_dec j st) as [->|Hne];
          [apply double_ltb_irrefl | apply Hmin; lia].
      * intros j Hj. lia.
    + right. exists k. split; [lia|]. split; [exact Heq|].
      split; [exact (double_ltb_trans _ _ _ Hlt Hacc)|]. split.
      * intros j Hj. destruct (Z.eq_dec j st) as [->|Hne];
          [|apply Hmin; lia].
        apply double_leb_not_ltb, double_ltb_leb, Hlt.
      * intros j Hj. destruct (Z.eq_dec j st) as [->|Hne];
          [now left | apply Hfirst; lia].
  - destruct (IH (st + 1)%Z cur)
      as [[Heq Hmin] | (k & Hk & Heq & Hlt & Hmin & Hfirst)].
    + left. split; [exact Heq|].
      intros j Hj. destruct (Z.eq_dec j st) as [->|Hne];
        [exact Hacc | apply Hmin; lia].
    + right. exists k. split; [lia|]. split; [exact Heq|].
      split; [exact Hlt|]. split.
      * intros j Hj. destruct (Z.eq_dec j st) as [->|Hne];
          [|apply Hmin; lia].
        destruct (candErr B0 B1 st <? candErr B0 B1 k)%float eqn:E;
          [|reflexivity].
        rewrite (double_ltb_trans _ _ _ E Hlt) in Hacc. discriminate.
      * intros j Hj. destruct (Z.eq_dec j st) as [->|Hne];
          [|apply Hfirst; lia].
        destruct (is_nan (candErr B0 B1 st)) eqn:Hnan; [now right|].
        left. apply double_ltb_leb_trans with (y := minErr cur); [exact Hlt|].
        apply double_ltb_false_leb; [exact Hnan | | exact Hacc].
        apply (double_ltb_not_nan _ _ Hlt).
Qed.

Lemma scan_cases64 (B0 B1 : double) :
  (scan B0 B1 = mk_search DBL_MAX B0 1%float /\
   forall j, (0 <= j < steps)%Z ->
             (candErr B0 B1 j <? DBL_MAX)%float = false)
  \/
  exists k, (0 <= k < steps)%Z /\
    scan B0 B1 = cand B0 B1 k /\
    (candErr B0 B1 k <? DBL_MAX)%float = true /\
    (forall j, (0 <= j < steps)%Z ->
               (candErr B0 B1 j <? candErr B0 B1 k)%float = false) /\
    (forall j, (0 <= j < k)%Z ->
               (candErr B0 B1 k <? candErr B0 B1 j)%float = true \/
               is_nan (candErr B0 B1 j) = true).
Proof.
  unfold BFactorRefiner64.scan.
  destruct (stepLoop_cases64 B0 B1 (Z.to_nat steps) 0
              (mk_search DBL_MAX B0 1%float))
    as [[Heq Hmin] | (k & Hk & Heq & Hlt & Hmin & Hfirst)];
    cbn [minErr] in *.
  - left. split; [exact Heq|]. intros j Hj. apply Hmin. lia.
  - right. exists k. split; [lia|]. split; [exact Heq|].
    split; [exact Hlt|]. split; [|exact Hfirst].
    intros j Hj. apply Hmin. lia.
Qed.

(** A scan accepted a candidate exactly when it ends below
    [DBL_MAX]. *)
Lemma scan_accepted64 (B0 B1 : double) :
  (minErr (scan B0 B1) <? DBL_MAX)%float = true ->
  exists k, (0 <= k < steps)%Z /\
    scan B0 B1 = cand B0 B1 k /\
    (forall j, (0 <= j < steps)%Z ->
               (candErr B0 B1 j <? candErr B0 B1 k)%float = false) /\
    (forall j, (0 <= j < k)%Z ->
               (candErr B0 B1 k <? candErr B0 B1 j)%float = true \/
               is_nan (candErr B0 B1 j) = true).
Proof.
  intros Hacc.
  destruct (scan_cases64 B0 B1)
    as [[Heq _] | (k & Hk & Heq & _ & Hmin & Hfirst)].
  - rewrite Heq in Hacc. cbn [minErr] in Hacc.
    rewrite double_ltb_irrefl in Hacc. discriminate.
  - exists k. split; [exact Hk|]. split; [exact Heq|].
    split; [exact Hmin | exact Hfirst].
Qed.

Lemma findBKRec1D_scan_last64 (depth : nat) (B0 B1 : double) :
  findBKRec1D_scan depth B0 B1
  = scan (fst (lastInterval depth B0 B1)) (snd (lastInterval depth B0 B1)).
Proof.
  revert B0 B1. induction depth as [|d IH]; intros B0 B1;
    cbn [BFactorRefiner64.findBKRec1D_scan BFactorRefiner64.lastInterval];
    [reflexivity|].
  destruct (nextInterval B0 B1 (bestB (scan B0 B1))) as [n0 n1]. apply IH.
Qed.

(** *** The scale of an accepted candidate *)

Lemma residualSum_nan64 (B a : double) (ts : list double) :
  forall (r : nat) (sum : double),
    is_nan sum = true -> is_nan (residualSum B a r ts sum) = true.
Proof.
  induction ts as [|tr ts IH]; intros r sum Hsum;
    cbn [BFactorRefiner64.residualSum]; [exact Hsum|].
  apply IH. now apply double_add_nan_l.
Qed.

(** A scale that is NaN makes the residual NaN, unless there is no
    radius at all. *)
Lemma residual_nan_scale64 (B a : double) :
  t_rad <> [] -> is_nan a = true -> is_nan (residual B a) = true.
Proof.
  unfold BFactorRefiner64.residual.
  destruct t_rad as [|tr ts]; [congruence|]. intros _ Ha.
  cbn [BFactorRefiner64.residualSum]. apply residualSum_nan64.
  apply double_add_nan_r, double_sub_nan_l.
  do 2 apply double_mul_nan_l. apply double_mul_nan_l. now apply double_mul_nan_r.
Qed.

Lemma scaleFor_not_below64 (B : double) :
  (scaleFor B <? min_scale)%float = false.
Proof.
  unfold BFactorRefiner64.scaleFor.
  destruct (scaleSums exp s_rad B 0 t_rad 0%float 0%float) as [num denom].
  match goal with
  | |- context [if (?a <? min_scale)%float then _ else _] =>
      destruct (a <? min_scale)%float eqn:E
  end; [apply double_ltb_irrefl | exact E].
Qed.

(** The scale of a candidate whose residual is not NaN is at least
    [min_scale], when that is a number. *)
Lemma scaleFor_min64 (B : double) :
  is_nan min_scale = false ->
  is_nan (residual B (scaleFor B)) = false ->
  (min_scale <=? scaleFor B)%float = true.
Proof.
  intros Hms Hres.
  assert (Ha : is_nan (scaleFor B) = false).
  { destruct (is_nan (scaleFor B)) eqn:E; [|reflexivity].
    assert (Hcase : t_rad = [] \/ t_rad <> [])
      by (destruct t_rad; [now left | right; discriminate]).
    destruct Hcase as [Et|Et].
    - revert E. unfold BFactorRefiner64.scaleFor. rewrite Et.
      cbn [BFactorRefiner64.scaleSums].
      change (eps <? 0)%float with false. cbv iota.
      change (0 / eps)%float with 0%float.
      destruct (0 <? min_scale)%float; [congruence|].
      intros H. discriminate H.
    - rewrite residual_nan_scale64 in Hres;
        [discriminate | exact Et | exact E]. }
  revert Ha. pose proof (scaleFor_not_below64 B) as Hnb. revert Hnb.
  generalize (scaleFor B). intros a Hnb Ha.
  now apply double_ltb_false_leb.
Qed.

(** *** NaN ends stay NaN *)

Lemma double_ltb_nan_r (x y : double) : is_nan y = true -> (x <? y)%float = false.
Proof.
  intros Hy. destruct (x <? y)%float eqn:E; [|reflexivity].
  apply double_ltb_not_nan in E. destruct E as [_ E]. congruence.
Qed.

Lemma double_ltb_nan_l (x y : double) : is_nan x = true -> (x <? y)%float = false.
Proof.
  intros Hx. destruct (x <? y)%float eqn:E; [|reflexivity].
  apply double_ltb_not_nan in E. destruct E as [E _]. congruence.
Qed.

Lemma gridPoint_nan64 (B0 B1 : double) (k : Z) :
  is_nan B0 = true -> is_nan (gridPoint B0 B1 k) = true.
Proof. intros H. unfold BFactorRefiner64.gridPoint. now apply double_add_nan_l. Qed.

Lemma scan_bestB_nan64 (B0 B1 : double) :
  is_nan B0 = true -> is_nan (bestB (scan B0 B1)) = true.
Proof.
  intros H.
  destruct (scan_cases64 B0 B1) as [[Heq _] | (k & _ & Heq & _)];
    rewrite Heq; cbn [bestB]; [exact H | now apply gridPoint_nan64].
Qed.

Lemma nextInterval_nan64 (B0 B1 : double) :
  (is_nan B0 = true ->
   is_nan (fst (nextInterval B0 B1 (bestB (scan B0 B1)))) = true) /\
  (is_nan B1 = true ->
   is_nan (snd (nextInterval B0 B1 (bestB (scan B0 B1)))) = true).
Proof.
  unfold BFactorRefiner64.nextInterval. cbn [fst snd]. split; intros H.
  - rewrite (double_ltb_nan_r _ B0 H).
    apply double_sub_nan_l. now apply scan_bestB_nan64.
  - rewrite (double_ltb_nan_l B1 _ H).
    apply double_add_nan_r, double_div_nan_l. now apply double_sub_nan_l.
Qed.

Lemma lastInterval_nan64 (depth : nat) :
  forall B0 B1 : double,
    (is_nan B0 = true -> is_nan (fst (lastInterval depth B0 B1)) = true) /\
    (is_nan B1 = true -> is_nan (snd (lastInterval depth B0 B1)) = true).
Proof.
  induction depth as [|d IH]; intros B0 B1;
    cbn [BFactorRefiner64.lastInterval]; [now split|].
  pose proof (nextInterval_nan64 B0 B1) as [H0 H1].
  destruct (nextInterval B0 B1 (bestB (scan B0 B1))) as [n0 n1].
  cbn [fst snd] in *. destruct (IH n0 n1) as [I0 I1]. split; auto.
Qed.

(** *** The interval of the last scan *)

(** Neither end of the interval of the recursive call is outside the
    interval it was cut from. *)
Lemma nextInterval_within64 (B0 B1 best : double) :
  (fst (nextInterval B0 B1 best) <? B0)%float = false /\
  (B1 <? snd (nextInterval B0 B1 best))%float = false.
Proof.
  unfold BFactorRefiner64.nextInterval. cbn [fst snd]. split.
  - match goal with
    | |- ((if ?c then _ else _) <? _)%float = false => destruct c eqn:E
    end; [apply double_ltb_irrefl | exact E].
  - match goal with
    | |- (_ <? (if ?c then _ else _))%float = false => destruct c eqn:E
    end; [apply double_ltb_irrefl | exact E].
Qed.

Lemma lastInterval_within64 (depth : nat) :
  forall B0 B1 : double,
    (fst (lastInterval depth B0 B1) <? B0)%float = false /\
    (B1 <? snd (lastInterval depth B0 B1))%float = false.
Proof.
  induction depth as [|d IH]; intros B0 B1;
    cbn [BFactorRefiner64.lastInterval].
  { cbn [fst snd]. split; apply double_ltb_irrefl. }
  pose proof (nextInterval_within64 B0 B1 (bestB (scan B0 B1))) as [W0 W1].
  destruct (nextInterval B0 B1 (bestB (scan B0 B1))) as [n0 n1].
  cbn [fst snd] in *.
  destruct (IH n0 n1) as [I0 I1].
  destruct (lastInterval_nan64 d n0 n1) as [N0 N1].
  set (L := lastInterval d n0 n1) in *. split.
  - destruct (fst L <? B0)%float eqn:E; [|reflexivity].
    destruct (double_ltb_not_nan _ _ E) as [HL HB].
    destruct (is_nan n0) eqn:Hn0; [rewrite N0 in HL; congruence|].
    pose proof (double_ltb_false_leb n0 B0 Hn0 HB W0) as Hle.
    rewrite (double_ltb_leb_trans _ _ _ E Hle) in I0. discriminate.
  - destruct (B1 <? snd L)%float eqn:E; [|reflexivity].
    destruct (double_ltb_not_nan _ _ E) as [HB HL].
    destruct (is_nan n1) eqn:Hn1; [rewrite N1 in HL; congruence|].
    pose proof (double_ltb_false_leb B1 n1 HB Hn1 W1) as Hle.
    rewrite (double_leb_ltb_trans _ _ _ Hle E) in I1. discriminate.
Qed.

End Fit64Facts.

Section Fit64Claims.

Import PrimFloat.
Import Binary64 BFactorRefiner64.
Local Open Scope float_scope.



(** X3.  In binary64: when the last scan of [findBKRec1D] accepted a
    candidate, the decay returned is the candidate of a step [k] of
    that scan and the scale returned is the one computed for that
    decay; no candidate of the scan has a smaller residual, and every
    candidate before [k] has a larger residual or a residual that is
    NaN (which the test [sum < minErr] never accepts): of equal
    residuals the first is kept. *)
Theorem findBKRec1D_first_least_candidate (exp : double -> double)
        (t_rad s_rad : list double) (B0 B1 min_scale : double)
        (steps depth : Z) :
  let last := findBKRec1D_scan exp t_rad s_rad min_scale steps
                (Z.to_nat depth) B0 B1 in
  let L := lastInterval exp t_rad s_rad min_scale steps (Z.to_nat depth)
             B0 B1 in
  let r := findBKRec1D exp t_rad s_rad B0 B1 min_scale steps depth in
  let cand k :=
    let B := gridPoint steps (fst L) (snd L) k in
    residual exp t_rad s_rad B (scaleFor exp t_rad s_rad min_scale B) in
  (minErr last <? DBL_MAX) = true ->
  exists k : Z,
    (0 <= k < steps)%Z /\
    d2_0 r = gridPoint steps (fst L) (snd L) k /\
    d2_1 r = scaleFor exp t_rad s_rad min_scale (d2_0 r) /\
    (forall j : Z, (0 <= j < steps)%Z -> (cand j <? cand k) = false) /\
    (forall j : Z, (0 <= j < k)%Z ->
                   (cand k <? cand j) = true \/ is_nan (cand j) = true).
Proof.
  cbv zeta. unfold findBKRec1D. cbn [d2_0 d2_1].
  rewrite findBKRec1D_scan_last64.
  set (L := lastInterval exp t_rad s_rad min_scale steps (Z.to_nat depth)
              B0 B1).
  intros Hacc.
  destruct (scan_accepted64 exp t_rad s_rad min_scale steps (fst L) (snd L)
              Hacc) as (k & Hk & Heq & Hmin & Hfirst).
  exists k. rewrite Heq. cbn [bestB bestA].
  split; [exact Hk|]. split; [reflexivity|]. split; [reflexivity|].
  split; [exact Hmin | exact Hfirst].
Qed.

(** [--bfac_min_scale 0.2], the default. *)
Local Abbreviation scale_02 := 0x1.999999999999ap-3.




(** X3 on profiles without signal over [-3000, 0] in 20 steps: the
    candidates of the steps 0 to 14 have a residual that is NaN ([exp]
    overflows and 0 times infinity is NaN), and the candidate of step
    15, -631.57894736842127, is returned. *)
Lemma findBKRec1D_first_least_candidate_witness :
  let t_rad := [0; 0; 0] in
  let s_rad := [0; 0; 0] in
  let last := findBKRec1D_scan exp_std t_rad s_rad scale_02 20
                (Z.to_nat 0) (- 3000) 0 in
  let L := lastInterval exp_std t_rad s_rad scale_02 20 (Z.to_nat 0)
             (- 3000) 0 in
  let r := findBKRec1D exp_std t_rad s_rad (- 3000) 0 scale_02 20 0 in
  let cand k :=
    let B := gridPoint 20 (fst L) (snd L) k in
    residual exp_std t_rad s_rad B (scaleFor exp_std t_rad s_rad scale_02 B) in
  (is_nan (cand 14%Z) = true /\ d2_0 r = gridPoint 20 (fst L) (snd L) 15) /\
  (minErr last <? DBL_MAX) = true /\
  exists k : Z,
    (0 <= k < 20)%Z /\
    d2_0 r = gridPoint 20 (fst L) (snd L) k /\
    d2_1 r = scaleFor exp_std t_rad s_rad scale_02 (d2_0 r) /\
    (forall j : Z, (0 <= j < 20)%Z -> (cand j <? cand k) = false) /\
    (forall j : Z, (0 <= j < k)%Z ->
                   (cand k <? cand j) = true \/ is_nan (cand j) = true).
Proof.
  cbv zeta. split; [split; vm_compute; reflexivity|].
  assert (H : (minErr (findBKRec1D_scan exp_std [0; 0; 0] [0; 0; 0] scale_02
                         20 (Z.to_nat 0) (- 3000) 0) <? DBL_MAX) = true)
    by (vm_compute; reflexivity).
  split; [exact H|].
  exact (findBKRec1D_first_least_candidate exp_std [0; 0; 0] [0; 0; 0]
           (- 3000) 0 scale_02 20 0 H).
Defined.

End Fit64Claims.

(** ** The B-factor written by processMicrograph *)

Lemma nth_map_in {A B : Type} (f : A -> B) (l : list A) (p : nat)
      (d : B) (d' : A) :
  (p < length l)%nat -> nth p (map f l) d = f (nth p l d').
Proof.
  revert p. induction l as [|x l IH]; intros [|p] H; cbn in *;
    try lia; [reflexivity|]. apply IH. lia.
Qed.

Section WrittenFacts.

Import BFactorRefiner.

Variable exp : double -> double.

Lemma written_range (rf : Refiner) (prof : list double * list double) :
  min_B rf <= max_B rf -> ~ as_ rf == 0 ->
  0 <= fst (written rf (fitBK exp rf prof)) <= max_B rf - min_B rf.
Proof.
  intros HB Has. unfold written, fitBK. cbn [fst].
  set (a := as_ rf) in *.
  assert (Haa : 0 < a * a) by nra.
  assert (Hlo : min_B rf / (a * a) * (a * a) == min_B rf) by (field; exact Has).
  assert (Hhi : max_B rf / (a * a) * (a * a) == max_B rf) by (field; exact Has).
  assert (Hle : min_B rf / (a * a) <= max_B rf / (a * a)).
  { apply Qle_shift_div_l; [exact Haa|]. lra. }
  pose proof (findBKRec1D_scan_inv exp (fst prof) (snd prof) (min_scale rf)
                stepsPerIter (Z.to_nat numIters) _ _ _ _
                ltac:(discriminate) (Qle_refl _) Hle (Qle_refl _)) as (Hb & _).
  unfold findBKRec1D. cbn [d2_0].
  set (b := bestB (findBKRec1D_scan exp (fst prof) (snd prof) (min_scale rf)
                     stepsPerIter (Z.to_nat numIters) (min_B rf / (a * a))
                     (max_B rf / (a * a)))) in *.
  set (lo := min_B rf / (a * a)) in *. set (hi := max_B rf / (a * a)) in *.
  split; nra.
Qed.

Lemma processMicrograph_nth (rf : Refiner)
      (profiles : list (list double * list double)) (p : nat) :
  (p < length profiles)%nat ->
  nth p (processMicrograph exp rf profiles) (0, 0)
  = written rf (fitBK exp rf
                  (if perMicrograph rf then summedProfiles (s rf) profiles
                   else nth p profiles ([], []))).
Proof.
  intros Hp. unfold processMicrograph, summedProfiles.
  destruct (perMicrograph rf).
  - now rewrite (nth_map_in _ profiles p (0, 0) ([], []) Hp).
  - now rewrite (nth_map_in _ profiles p (0, 0) ([], []) Hp).
Qed.

End WrittenFacts.



Section WrittenExamples.

Import PrimFloat.

(** The default options of [read] on images of 64 pixels of 1.2 A. *)
Local Abbreviation rf64 :=
  (BFactorRefiner64.mk_Refiner false (- 30)%float 300%float
     0x1.999999999999ap-3%float 64 0x1.3333333333333p+0%float).

(** Powers 1 at each of the 33 radii and cross terms that grow with
    the radius, 0, 1, ..., 32: the fit ends on the lower bound. *)
Local Abbreviation powers := (repeat 1%float 33).
Local Abbreviation rising :=
  (map (fun r => Binary64.of_int (Z.of_nat r)) (seq 0 33)).


End WrittenExamples.

(** ** Validation and sampling in init *)

Section SamplingFacts.

Import MotionParamEstimator.

Variable MetaDataTable : Type.
Variable numberOfObjects : MetaDataTable -> Z.
Variable rng : Type.
Variable srand : Z -> rng.
Variable rand : rng -> Z * rng.
Variable RAND_MAX : Z.
Variable sortIndices : list double -> list nat.
Variable angToPix : double -> Z -> double.

Local Abbreviation selectLoop := (selectLoop MetaDataTable numberOfObjects).
Local Abbreviation sample :=
  (sample MetaDataTable numberOfObjects rng srand rand RAND_MAX sortIndices).
Local Abbreviation init :=
  (init MetaDataTable numberOfObjects rng srand rand RAND_MAX sortIndices
        angToPix).

(** Every micrograph the loop pushes has at least two particles. *)
Lemma selectLoop_two_particles (allMdts : list MetaDataTable) (minP : Z)
      (order : list nat) :
  forall (pc : Z) (sel : list MetaDataTable) (pc' : Z)
         (sel' : list MetaDataTable),
    Forall (fun md => (2 <= numberOfObjects md)%Z) sel ->
    selectLoop allMdts minP order pc sel = Some (pc', sel') ->
    Forall (fun md => (2 <= numberOfObjects md)%Z) sel'.
Proof.
  induction order as [|m order IH]; intros pc sel pc' sel' Hsel Hrun;
    cbn [MotionParamEstimator.selectLoop] in Hrun.
  - injection Hrun as <- <-. exact Hsel.
  - destruct (nth_error allMdts m) as [md|]; [|discriminate].
    destruct (numberOfObjects md <? 2)%Z eqn:Hpcm.
    + eapply IH; eassumption.
    + apply Z.ltb_ge in Hpcm.
      assert (Hsel' : Forall (fun md => (2 <= numberOfObjects md)%Z)
                             (sel ++ [md])).
      { apply Forall_app. split; [exact Hsel|]. constructor; [exact Hpcm|constructor]. }
      destruct (pc + numberOfObjects md >=? minP)%Z.
      * injection Hrun as <- <-. exact Hsel'.
      * eapply IH; eassumption.
Qed.

(** With indices inside the list, the loop has defined behaviour. *)
Lemma selectLoop_defined (allMdts : list MetaDataTable) (minP : Z)
      (order : list nat) :
  Forall (fun m => (m < length allMdts)%nat) order ->
  forall (pc : Z) (sel : list MetaDataTable),
    selectLoop allMdts minP order pc sel <> None.
Proof.
  induction 1 as [|m order Hm _ IH]; intros pc sel;
    cbn [MotionParamEstimator.selectLoop]; [discriminate|].
  apply nth_error_Some in Hm.
  destruct (nth_error allMdts m) as [md|]; [|contradiction].
  destruct (numberOfObjects md <? 2)%Z; [apply IH|].
  destruct (pc + numberOfObjects md >=? minP)%Z; [discriminate|apply IH].
Qed.

(** A call of [init] that ends normally leaves in [mdts] the selection
    that [sample] makes from the seed, the particle floor and the list,
    and leaves the generator as [sample] does. *)
Lemma init_Done (verb_ nr_omp_threads_ : Z) (debug_ : bool) (s_ fc_ : Z)
      (allMdts : list MetaDataTable) (mready : bool) (kout : double)
      (st st' : Estimator MetaDataTable) (g g' : rng) :
  init verb_ nr_omp_threads_ debug_ s_ fc_ allMdts mready kout st g
  = (Done, st', g') ->
  exists pc,
    sample (seed (opts st)) (minParticles (opts st)) allMdts
    = (Some (pc, mdts st'), g').
Proof.
  unfold MotionParamEstimator.init.
  repeat match goal with
         | |- (if ?c then (Fatal _, _, _) else _) = _ -> _ =>
             destruct c; [discriminate|]
         end.
  cbn [opts set_cut set_ctx].
  destruct (sample _ _ _) as [[[pc sel]|] g''].
  - intros H. injection H as <- <-. exists pc. reflexivity.
  - discriminate.
Qed.

End SamplingFacts.

Import MotionParamEstimator.

(** C5.  Micrograph sampling is a function of the seed (with the
    particle floor of the same configuration) and of the list of
    micrographs: two calls of [init] that end normally on the same list,
    with the same seed and floor, select the same micrographs in the
    same order and leave the generator in the same state, whatever the
    state of the generator before the call, the micrographs selected
    earlier, and the other options and arguments are. *)
Theorem init_selection_deterministic
        (MetaDataTable : Type) (numberOfObjects : MetaDataTable -> Z)
        (rng : Type) (srand : Z -> rng) (rand : rng -> Z * rng)
        (RAND_MAX : Z) (sortIndices : list double -> list nat)
        (angToPix : double -> Z -> double)
        (allMdts : list MetaDataTable)
        (verb1 verb2 threads1 threads2 : Z) (debug1 debug2 : bool)
        (s1 s2 fc1 fc2 : Z) (ready1 ready2 : bool) (kout1 kout2 : double)
        (st1 st2 st1' st2' : Estimator MetaDataTable)
        (g1 g2 g1' g2' : rng) :
  seed (opts st1) = seed (opts st2) ->
  minParticles (opts st1) = minParticles (opts st2) ->
  init MetaDataTable numberOfObjects rng srand rand RAND_MAX sortIndices
       angToPix verb1 threads1 debug1 s1 fc1 allMdts ready1 kout1 st1 g1
  = (Done, st1', g1') ->
  init MetaDataTable numberOfObjects rng srand rand RAND_MAX sortIndices
       angToPix verb2 threads2 debug2 s2 fc2 allMdts ready2 kout2 st2 g2
  = (Done, st2', g2') ->
  mdts st1' = mdts st2' /\ g1' = g2'.
Proof.
  intros Hseed Hmin H1 H2.
  apply init_Done in H1. destruct H1 as (pc1 & H1).
  apply init_Done in H2. destruct H2 as (pc2 & H2).
  rewrite Hseed, Hmin, H2 in H1.
  injection H1 as _ Hm Hg. split; congruence.
Qed.

(** C6.  Whatever the list of micrographs and the seed are, every
    micrograph that [init] selects has at least two particles. *)
Theorem init_selects_two_particles
        (MetaDataTable : Type) (numberOfObjects : MetaDataTable -> Z)
        (rng : Type) (srand : Z -> rng) (rand : rng -> Z * rng)
        (RAND_MAX : Z) (sortIndices : list double -> list nat)
        (angToPix : double -> Z -> double)
        (allMdts : list MetaDataTable)
        (verb_ threads : Z) (debug_ : bool) (s_ fc_ : Z) (mready : bool)
        (kout : double) (st st' : Estimator MetaDataTable) (g g' : rng) :
  init MetaDataTable numberOfObjects rng srand rand RAND_MAX sortIndices
       angToPix verb_ threads debug_ s_ fc_ allMdts mready kout st g
  = (Done, st', g') ->
  Forall (fun md => (2 <= numberOfObjects md)%Z) (mdts st').
Proof.
  intros H. apply init_Done in H. destruct H as (pc & H).
  unfold sample in H.
  destruct (drawRandNums rng rand RAND_MAX (length allMdts)
              (srand (seed (opts st)))) as [randNums g''].
  injection H as H _.
  eapply selectLoop_two_particles; [|exact H]. constructor.
Qed.

(** C7 (as amended).  With both [--k_cut] and [--k_cut_A] positive,
    [init] ends in a fatal error before any sampling: the generator and
    the selected micrographs are as they were.  The error is the one
    for the two cutoff units when the parameters have been read and the
    motion estimator is ready; otherwise it is the error of the earlier
    check that fails. *)
Theorem init_rejects_both_cutoffs
        (MetaDataTable : Type) (numberOfObjects : MetaDataTable -> Z)
        (rng : Type) (srand : Z -> rng) (rand : rng -> Z * rng)
        (RAND_MAX : Z) (sortIndices : list double -> list nat)
        (angToPix : double -> Z -> double)
        (allMdts : list MetaDataTable)
        (verb_ threads : Z) (debug_ : bool) (s_ fc_ : Z) (mready : bool)
        (kout : double) (st : Estimator MetaDataTable) (g : rng) :
  0 < k_cutoff (cut st) -> 0 < k_cutoff_Angst (cut st) ->
  exists e st',
    init MetaDataTable numberOfObjects rng srand rand RAND_MAX sortIndices
         angToPix verb_ threads debug_ s_ fc_ allMdts mready kout st g
    = (Fatal e, st', g) /\
    mdts st' = mdts st /\
    (paramsRead st = true -> mready = true -> e = BothCutoffUnits) /\
    (paramsRead st = false -> e = ParamsNotRead) /\
    (paramsRead st = true -> mready = false -> e = EstimatorNotReady).
Proof.
  intros Hpx HA. apply dltb_lt in Hpx, HA.
  unfold init.
  destruct (paramsRead st) eqn:Hread; cbn [negb].
  - destruct mready; cbn [negb].
    + cbn [cut set_ctx]. rewrite Hpx, HA. cbn [andb].
      do 2 eexists. split; [reflexivity|]. cbn [mdts set_ctx].
      repeat split; congruence.
    + do 2 eexists. split; [reflexivity|]. cbn [mdts set_ctx].
      repeat split; congruence.
  - do 2 eexists. split; [reflexivity|]. repeat split; congruence.
Qed.

(** C5 on two calls in the concrete environment: the same six
    micrographs, seed 23 and floor 8, but different generator states,
    cutoffs, estimation modes, image sizes and earlier selections. *)
Lemma init_selection_deterministic_witness :
  let st1 :=
    Env.afterRead (mk_Options true false 8 (6 # 10) 3000 5 100 10 50 50 23)
                  (mk_Cutoffs 20 (- (1)) (- (1)) (- (1))) in
  let st2 :=
    mk_Estimator true false
      (mk_Options false true 8 1 2000 4 50 5 20 30 23)
      (mk_Cutoffs (- (1)) 4 (- (1)) 8) (mk_Context 0 1 false 0 0)
      [Env.mk_Mdt 9 9] 0 in
  exists st1' st2' g1' g2',
    seed (opts st1) = seed (opts st2) /\
    minParticles (opts st1) = minParticles (opts st2) /\
    Env.init 1 4 false 64 20 Env.micrographs true 30 st1 0%Z
    = (Done, st1', g1') /\
    Env.init 0 1 true 128 10 Env.micrographs true 50 st2 77%Z
    = (Done, st2', g2') /\
    mdts st1' = mdts st2' /\ g1' = g2'.
Proof.
  cbv zeta. do 4 eexists.
  split; [reflexivity|]. split; [reflexivity|].
  split; [vm_compute; reflexivity|]. split; [vm_compute; reflexivity|].
  eapply (init_selection_deterministic
            Env.Mdt Env.mdt_particles Z Env.srand Env.rand Env.RAND_MAX
            Env.sortIndices Env.angToPix Env.micrographs
            1 0 4 1 false true 64 128 20 10 true true 30 50
            (Env.afterRead
               (mk_Options true false 8 (6 # 10) 3000 5 100 10 50 50 23)
               (mk_Cutoffs 20 (- (1)) (- (1)) (- (1))))
            (mk_Estimator true false
               (mk_Options false true 8 1 2000 4 50 5 20 30 23)
               (mk_Cutoffs (- (1)) 4 (- (1)) 8) (mk_Context 0 1 false 0 0)
               [Env.mk_Mdt 9 9] 0)
            _ _ 0%Z 77%Z);
    [reflexivity | reflexivity | vm_compute; reflexivity
     | vm_compute; reflexivity].
Defined.

(** C6 on a call in the concrete environment: of the six micrographs,
    those with 1 and 0 particles are passed over. *)
Lemma init_selects_two_particles_witness :
  let st :=
    Env.afterRead (mk_Options true false 1000 (6 # 10) 3000 5 100 10 50 50 23)
                  (mk_Cutoffs 20 (- (1)) (- (1)) (- (1))) in
  exists st' g',
    Env.init 1 4 false 64 20 Env.micrographs true 30 st 0%Z = (Done, st', g') /\
    map Env.mdt_id (mdts st') = [2; 3; 5; 0]%nat /\
    Forall (fun md => (2 <= Env.mdt_particles md)%Z) (mdts st').
Proof.
  cbv zeta. do 2 eexists.
  split; [vm_compute; reflexivity|]. split; [reflexivity|].
  eapply (init_selects_two_particles
            Env.Mdt Env.mdt_particles Z Env.srand Env.rand Env.RAND_MAX
            Env.sortIndices Env.angToPix Env.micrographs
            1 4 false 64 20 true 30
            (Env.afterRead
               (mk_Options true false 1000 (6 # 10) 3000 5 100 10 50 50 23)
               (mk_Cutoffs 20 (- (1)) (- (1)) (- (1))))
            _ 0%Z).
  vm_compute. reflexivity.
Defined.

(** C7 as amended, on a call with [--k_cut 20 --k_cut_A 4]. *)
Lemma init_rejects_both_cutoffs_witness :
  let st :=
    Env.afterRead (mk_Options true false 1000 (6 # 10) 3000 5 100 10 50 50 23)
                  (mk_Cutoffs 20 4 (- (1)) (- (1))) in
  0 < k_cutoff (cut st) /\ 0 < k_cutoff_Angst (cut st) /\
  exists e st',
    Env.init 1 4 false 64 20 Env.micrographs true 30 st 0%Z
    = (Fatal e, st', 0%Z) /\
    mdts st' = mdts st /\
    (paramsRead st = true -> true = true -> e = BothCutoffUnits) /\
    (paramsRead st = false -> e = ParamsNotRead) /\
    (paramsRead st = true -> true = false -> e = EstimatorNotReady).
Proof.
  cbv zeta. split; [reflexivity|]. split; [reflexivity|].
  apply (init_rejects_both_cutoffs
           Env.Mdt Env.mdt_particles Z Env.srand Env.rand Env.RAND_MAX
           Env.sortIndices Env.angToPix Env.micrographs
           1 4 false 64 20 true 30
           (Env.afterRead
              (mk_Options true false 1000 (6 # 10) 3000 5 100 10 50 50 23)
              (mk_Cutoffs 20 4 (- (1)) (- (1))))
           0%Z); reflexivity.
Defined.

(** C7 as stated fails: with both cutoffs positive but the motion
    estimator not yet ready, [init] raises the error of that earlier
    check, not the one for the two cutoff units. *)
Lemma init_both_cutoffs_other_error :
  let st :=
    Env.afterRead (mk_Options true false 1000 (6 # 10) 3000 5 100 10 50 50 23)
                  (mk_Cutoffs 20 4 (- (1)) (- (1))) in
  0 < k_cutoff (cut st) /\ 0 < k_cutoff_Angst (cut st) /\
  fst (fst (Env.init 1 4 false 64 20 Env.micrographs false 30 st 0%Z))
  = Fatal EstimatorNotReady /\
  Fatal EstimatorNotReady <> Fatal BothCutoffUnits.
Proof.
  cbv zeta. split; [reflexivity|]. split; [reflexivity|].
  split; [reflexivity | discriminate].
Qed.

(** ** Rounding and reporting in run *)

Lemma Qtrunc_nonneg (x : double) : 0 <= x -> Qtrunc x = Qfloor x.
Proof.
  destruct x as [n d]. unfold Qle, Qtrunc, Qfloor. cbn [Qnum Qden].
  intros H. apply Z.quot_div_nonneg; lia.
Qed.

Lemma round_half_up_nearest (y : double) :
  - (1 # 2) <= y -> nearestInteger (Qtrunc (y + (1 # 2))) y.
Proof.
  intros Hy. unfold nearestInteger.
  rewrite Qtrunc_nonneg by lra.
  pose proof (Qfloor_le (y + (1 # 2))) as Hlo.
  pose proof (Qlt_floor (y + (1 # 2))) as Hhi.
  rewrite inject_Z_plus in Hhi. change (inject_Z 1) with 1 in Hhi.
  apply Qabs_Qle_condition. split; lra.
Qed.

Lemma double_to_int_Some (x : double) (n : Z) :
  double_to_int x = Some n -> n = Qtrunc x.
Proof.
  unfold double_to_int. destruct (_ && _); congruence.
Qed.

Section RunFacts.

Import MotionParamEstimator.

Variable MetaDataTable : Type.
Variable optimizeTwo :
  Estimator MetaDataTable -> double -> list double -> double -> double -> Z ->
  list double * double.
Variable optimizeThree :
  Estimator MetaDataTable -> list double -> double -> double -> Z ->
  list double * double.

Local Abbreviation run := (run MetaDataTable optimizeTwo optimizeThree).
Local Abbreviation optimum := (optimum MetaDataTable optimizeTwo optimizeThree).

Lemma roundToHalfConv_nearest (c scale x r : double) :
  0 < c -> 0 < scale -> 0 <= x ->
  roundToHalfConv c scale (x * scale) = Some r ->
  exists N, nearestInteger N (2 * (x * scale) / c) /\
            r = c * (1 # 2) * inject_Z N / scale.
Proof.
  intros Hc Hs Hx. unfold roundToHalfConv.
  destruct (double_to_int _) as [n|] eqn:Hn; [|discriminate].
  intros H. injection H as <-.
  apply double_to_int_Some in Hn. exists n. split; [|reflexivity].
  rewrite Hn. apply round_half_up_nearest.
  assert (0 <= 2 * (x * scale) / c).
  { apply Qle_shift_div_l; [exact Hc|]. nra. }
  lra.
Qed.

Lemma run_GoodParameters (st : Estimator MetaDataTable) (rnd : d3Vector) :
  run st = GoodParameters rnd ->
  let o := opts st in
  let opt := optimum st in
  exists r0 r1 r2,
    roundToHalfConv (conv o) velScale (d4_0 opt * velScale) = Some r0 /\
    roundToHalfConv (conv o) divScale (d4_1 opt * divScale) = Some r1 /\
    roundToHalfConv (conv o) accScale (d4_2 opt * accScale) = Some r2 /\
    rnd = mk_d3 r0 r1
            (if dleb (d4_2 opt) 0 then - (1)
             else if estim2 o then sA o else r2).
Proof.
  unfold MotionParamEstimator.run.
  destruct (negb (ready st)); [discriminate|].
  destruct (negb (estim2 (opts st)) && negb (estim3 (opts st))); [discriminate|].
  cbn [d3_0 d3_1 d3_2].
  destruct (roundToHalfConv _ velScale _) as [r0|]; [|discriminate].
  destruct (roundToHalfConv _ divScale _) as [r1|]; [|discriminate].
  destruct (roundToHalfConv _ accScale _) as [r2|]; [|discriminate].
  intros H. injection H as <-. cbn zeta.
  exists r0, r1, r2. repeat split; reflexivity.
Qed.

End RunFacts.

Lemma round_half_up (y : double) :
  - (1 # 2) <= y -> nearestHalfUp (Qtrunc (y + (1 # 2))) y.
Proof.
  intros Hy. unfold nearestHalfUp.
  rewrite Qtrunc_nonneg by lra.
  pose proof (Qfloor_le (y + (1 # 2))) as Hlo.
  pose proof (Qlt_floor (y + (1 # 2))) as Hhi.
  rewrite inject_Z_plus in Hhi. change (inject_Z 1) with 1 in Hhi.
  split; lra.
Qed.

Lemma roundToHalfConv_half_up (c scale x r : double) :
  0 < c -> 0 < scale -> 0 <= x ->
  roundToHalfConv c scale (x * scale) = Some r ->
  exists N, nearestHalfUp N (2 * (x * scale) / c) /\
            r = c * (1 # 2) * inject_Z N / scale.
Proof.
  intros Hc Hs Hx. unfold roundToHalfConv.
  destruct (double_to_int _) as [n|] eqn:Hn; [|discriminate].
  intros H. injection H as <-.
  apply double_to_int_Some in Hn. exists n. split; [|reflexivity].
  rewrite Hn. apply round_half_up.
  assert (0 <= 2 * (x * scale) / c).
  { apply Qle_shift_div_l; [exact Hc|]. nra. }
  lra.
Qed.


(** C8 (as amended).  When only 2 parameters are estimated, the
    acceleration sigma reported is the fixed one handed to the search,
    unchanged, if that is positive; if it is zero or negative, the
    value reported is -1. *)
Theorem run_two_params_acceleration
        (MetaDataTable : Type)
        (optimizeTwo :
          Estimator MetaDataTable -> double -> list double -> double ->
          double -> Z -> list double * double)
        (optimizeThree :
          Estimator MetaDataTable -> list double -> double -> double -> Z ->
          list double * double)
        (st : Estimator MetaDataTable) (rnd : d3Vector) :
  run MetaDataTable optimizeTwo optimizeThree st = GoodParameters rnd ->
  estim2 (opts st) = true -> estim3 (opts st) = false ->
  (0 < sA (opts st) -> d3_2 rnd = sA (opts st)) /\
  (sA (opts st) <= 0 -> d3_2 rnd = - (1)).
Proof.
  intros Hrun He2 He3.
  apply run_GoodParameters in Hrun.
  destruct Hrun as (r0 & r1 & r2 & _ & _ & _ & ->). cbn [d3_2].
  assert (Hopt : d4_2 (optimum MetaDataTable optimizeTwo optimizeThree st)
                 = sA (opts st)).
  { unfold optimum. rewrite He2, He3. unfold estimateTwoParamsNM.
    destruct (optimizeTwo _ _ _ _ _ _) as [final minTsc]. reflexivity. }
  rewrite Hopt, He2. split; intros HsA.
  - apply dleb_gt in HsA. now rewrite HsA.
  - apply dleb_le in HsA. now rewrite HsA.
Qed.


Section RunExamples.

Import PrimFloat.



End RunExamples.

Section RescalingExamples.

Import PrimFloat.


End RescalingExamples.

(** C8 as amended, on a two-parameter run with a fixed acceleration
    sigma of 5. *)
Lemma run_two_params_acceleration_witness :
  let st :=
    Env.afterInit (mk_Options true false 1000 (6 # 10) 3000 5 100 10 50 50 23) in
  exists rnd,
    run Env.Mdt Env.optimizeTwo Env.optimizeThree st = GoodParameters rnd /\
    estim2 (opts st) = true /\ estim3 (opts st) = false /\
    (0 < sA (opts st) -> d3_2 rnd = sA (opts st)) /\
    (sA (opts st) <= 0 -> d3_2 rnd = - (1)).
Proof.
  cbv zeta. eexists.
  split; [vm_compute; reflexivity|]. split; [reflexivity|].
  split; [reflexivity|].
  apply (run_two_params_acceleration
           Env.Mdt Env.optimizeTwo Env.optimizeThree
           (Env.afterInit
              (mk_Options true false 1000 (6 # 10) 3000 5 100 10 50 50 23)));
    [vm_compute; reflexivity | reflexivity | reflexivity].
Defined.

(** C8 as stated fails: with a fixed acceleration sigma of 0
    ([--s_acc_0 0]) a two-parameter run reports -1. *)
Lemma run_two_params_acceleration_replaced :
  let st :=
    Env.afterInit (mk_Options true false 1000 (6 # 10) 3000 0 100 10 50 50 23) in
  exists rnd,
    run Env.Mdt Env.optimizeTwo Env.optimizeThree st = GoodParameters rnd /\
    estim2 (opts st) = true /\ estim3 (opts st) = false /\
    d3_2 rnd = - (1) /\
    ~ d3_2 rnd == sA (opts st).
Proof.
  cbv zeta. eexists.
  split; [vm_compute; reflexivity|]. split; [reflexivity|].
  split; [reflexivity|]. split; [reflexivity|].
  intros H. discriminate H.
Qed.

(** ** Batch evaluation *)

Section EvalFacts.

Variable MetaDataTable : Type.
Variable numberOfObjects : MetaDataTable -> Z.
Variables normalizeSigVel normalizeSigDiv normalizeSigAcc : double -> double.
Variable trackTsc : nat -> double -> double -> double -> d3Vector.
Variable sqrt : double -> double.

Local Abbreviation score := (score sqrt).
Local Abbreviation finalTsc := (finalTsc sqrt).
Local Abbreviation evaluateParams :=
  (evaluateParams MetaDataTable numberOfObjects normalizeSigVel
                  normalizeSigDiv normalizeSigAcc trackTsc sqrt).
Local Abbreviation accumulateTsc :=
  (accumulateTsc MetaDataTable numberOfObjects trackTsc).

(** With a positive product of the weights the entry becomes the
    normalised score. *)
Lemma score_positive (acc : d3Vector) (old : double) :
  0 < d3_1 acc * d3_2 acc ->
  score acc old = d3_0 acc / sqrt (d3_1 acc * d3_2 acc).
Proof.
  intros H. unfold MotionParamEstimator.score. apply dltb_lt in H.
  now rewrite H.
Qed.

(** Otherwise the entry keeps the value it had. *)
Lemma score_not_positive (acc : d3Vector) (old : double) :
  d3_1 acc * d3_2 acc <= 0 -> score acc old = old.
Proof.
  intros H. unfold MotionParamEstimator.score. apply dltb_ge in H.
  now rewrite H.
Qed.

Lemma finalTsc_fresh (tscsAs : list d3Vector) :
  finalTsc tscsAs (repeat 0 (length tscsAs))
  = map (fun acc => score acc 0) tscsAs.
Proof.
  induction tscsAs as [|acc l IH]; [reflexivity|].
  cbn [length repeat MotionParamEstimator.finalTsc map]. now rewrite IH.
Qed.

Lemma accumulateTsc_length (sig_px : list d3Vector) (ms : list MetaDataTable) :
  forall (g : nat) (tscsAs : list d3Vector),
    length sig_px = length tscsAs ->
    length (accumulateTsc sig_px g ms tscsAs) = length tscsAs.
Proof.
  induction ms as [|md ms IH]; intros g tscsAs Hlen; [reflexivity|].
  cbn [MotionParamEstimator.accumulateTsc].
  destruct (numberOfObjects md <? 2)%Z; [now apply IH|].
  rewrite IH.
  - rewrite length_map, length_combine. lia.
  - rewrite length_map, length_combine. lia.
Qed.

(** Called with an empty vector, [evaluateParams] returns for every
    candidate the normalised score, or 0 when the product of the
    weights is not positive. *)
Lemma evaluateParams_fresh (st : Estimator MetaDataTable)
      (sig_vals : list d3Vector) :
  exists tscsAs,
    length tscsAs = length sig_vals /\
    evaluateParams st sig_vals [] = map (fun acc => score acc 0) tscsAs.
Proof.
  unfold MotionParamEstimator.evaluateParams.
  set (sig_px := map _ sig_vals).
  set (tscsAs := accumulateTsc sig_px 0 (mdts st) _).
  assert (Hlen : length tscsAs = length sig_vals).
  { subst tscsAs. rewrite accumulateTsc_length; rewrite repeat_length;
      [reflexivity|]. subst sig_px. now rewrite length_map. }
  exists tscsAs. split; [exact Hlen|].
  unfold resize. rewrite firstn_nil. cbn [app length].
  rewrite Nat.sub_0_r, <- Hlen. apply finalTsc_fresh.
Qed.

End EvalFacts.

(** C3 (the code at the failing input).  One micrograph of 5 particles
    whose tracks give the accumulated vector (1, 0, 0) to the single
    candidate, and a vector [TSCs] that holds [old] on entry: the
    product of the weights is 0, the closing loop assigns nothing, and
    the score returned is [old] (5, say), not 0. *)
Theorem evaluateParams_keeps_stale_score (sqrt : double -> double)
        (old : double) :
  let st :=
    mk_Estimator true true
      (mk_Options true false 1000 (6 # 10) 3000 5 100 10 50 50 23)
      (mk_Cutoffs 20 (64 # 20) 20 (64 # 20)) (mk_Context 1 4 false 64 20)
      [Env.mk_Mdt 0 5] 30 in
  evaluateParams Env.Mdt Env.mdt_particles
                 (fun x => x) (fun x => x) (fun x => x)
                 (fun _ _ _ _ => mk_d3 1 0 0) sqrt
                 st [mk_d3 (6 # 10) 3000 5] [old]
  = [old].
Proof.
  reflexivity.
Qed.

(** * Further properties *)

(** ** The decay and scale search *)

Lemma Qsquare_nonneg (x : Q) : 0 <= x * x.
Proof.
  destruct (Qlt_le_dec x 0) as [H|H].
  - assert (Heq : x * x == (- x) * (- x)) by ring. rewrite Heq.
    apply Qmult_le_0_compat; lra.
  - apply Qmult_le_0_compat; lra.
Qed.

Section SearchFacts.

Import BFactorRefiner.

Variable exp : double -> double.
Variables t_rad s_rad : list double.
Variable min_scale : double.
Variable steps : Z.

Local Abbreviation scaleSums := (scaleSums exp s_rad).
Local Abbreviation residualSum := (residualSum exp s_rad).
Local Abbreviation scaleFor := (scaleFor exp t_rad s_rad min_scale).
Local Abbreviation residual := (residual exp t_rad s_rad).
Local Abbreviation stepLoop := (stepLoop exp t_rad s_rad min_scale steps).
Local Abbreviation scan := (scan exp t_rad s_rad min_scale steps).
Local Abbreviation nextInterval := (nextInterval steps).
Local Abbreviation findBKRec1D_scan := (findBKRec1D_scan exp t_rad s_rad min_scale steps).
Local Abbreviation lastInterval := (lastInterval exp t_rad s_rad min_scale steps).
Local Abbreviation gridPoint := (gridPoint steps).

(** *** The closed-form scale *)

Lemma scaleSums_acc (B : double) (ts : list Q) :
  forall (r : nat) (num denom : Q),
    fst (scaleSums B r ts num denom) == num + fst (scaleSums B r ts 0 0) /\
    snd (scaleSums B r ts num denom) == denom + snd (scaleSums B r ts 0 0).
Proof.
  induction ts as [|tr ts IH]; intros r num denom; cbn [BFactorRefiner.scaleSums].
  - cbn [fst snd]. split; ring.
  - destruct (IH (S r) (num + nth r s_rad 0 * sigVal exp B r)
                 (denom + tr * sigVal exp B r * sigVal exp B r)) as [H1 H2].
    destruct (IH (S r) (0 + nth r s_rad 0 * sigVal exp B r)
                 (0 + tr * sigVal exp B r * sigVal exp B r)) as [H3 H4].
    rewrite H1, H2, H3, H4. split; ring.
Qed.

(** The residual is the quadratic [denom * a^2 - 2 * num * a] in the
    scale. *)
Lemma residualSum_quadratic (B : double) (a : Q) (ts : list Q) :
  forall (r : nat) (sum : Q),
    residualSum B a r ts sum
    == sum + a * a * snd (scaleSums B r ts 0 0)
       - 2 * a * fst (scaleSums B r ts 0 0).
Proof.
  induction ts as [|tr ts IH]; intros r sum;
    cbn [BFactorRefiner.residualSum BFactorRefiner.scaleSums].
  - cbn [fst snd]. ring.
  - rewrite IH.
    destruct (scaleSums_acc B ts (S r) (0 + nth r s_rad 0 * sigVal exp B r)
                (0 + tr * sigVal exp B r * sigVal exp B r)) as [H1 H2].
    rewrite H1, H2. ring.
Qed.

Lemma residual_quadratic (B : double) (a : Q) :
  residual B a
  == a * a * snd (scaleSums B 0 t_rad 0 0)
     - 2 * a * fst (scaleSums B 0 t_rad 0 0).
Proof.
  unfold BFactorRefiner.residual. rewrite residualSum_quadratic. ring.
Qed.

Lemma scaleFor_optimal (B : double) (a : Q) :
  eps < snd (scaleSums B 0 t_rad 0 0) ->
  (min_scale <= a \/
   min_scale <= fst (scaleSums B 0 t_rad 0 0) / snd (scaleSums B 0 t_rad 0 0)) ->
  residual B (scaleFor B) <= residual B a.
Proof.
  intros HD Ha. rewrite !residual_quadratic.
  unfold BFactorRefiner.scaleFor.
  destruct (scaleSums B 0 t_rad 0 0) as [N D]. cbn [fst snd] in *.
  apply dltb_lt in HD. rewrite HD. apply dltb_lt in HD. unfold eps in HD.
  assert (Hopt : N / D * D == N) by (field; lra).
  set (o := N / D) in *. clearbody o.
  assert (Hsq : forall x : Q,
             x * x * D - 2 * x * N == D * ((x - o) * (x - o)) - D * (o * o)).
  { intros x. rewrite <- Hopt. ring. }
  case_ltb o min_scale.
  - destruct Ha as [Ha|Ha]; [|lra].
    rewrite (Hsq min_scale), (Hsq a).
    assert (HP : 0 <= (a - min_scale) * (a + min_scale - 2 * o))
      by (apply Qmult_le_0_compat; lra).
    assert (HDP : 0 <= D * ((a - min_scale) * (a + min_scale - 2 * o)))
      by (apply Qmult_le_0_compat; lra).
    lra.
  - rewrite (Hsq o), (Hsq a).
    pose proof (Qsquare_nonneg (a - o)) as HP.
    assert (HDP : 0 <= D * ((a - o) * (a - o)))
      by (apply Qmult_le_0_compat; lra).
    lra.
Qed.

(** *** The first smallest candidate *)

Local Abbreviation cand B0 B1 k :=
  (residual (gridPoint B0 B1 k) (scaleFor (gridPoint B0 B1 k))).
Local Abbreviation accepted B0 B1 k :=
  (mk_search (cand B0 B1 k) (gridPoint B0 B1 k) (scaleFor (gridPoint B0 B1 k))).

Lemma stepLoop_first_min (B0 B1 : double) (n : nat) (st : Z) (cur : search) :
  stepLoop B0 B1 n st cur = cur \/
  exists k, (st <= k < st + Z.of_nat n)%Z /\
            stepLoop B0 B1 n st cur = accepted B0 B1 k /\
            cand B0 B1 k < minErr cur /\
            forall j, (st <= j < k)%Z -> cand B0 B1 k < cand B0 B1 j.
Proof.
  revert st cur. induction n as [|n IH]; intros st cur; [now left|].
  cbn [BFactorRefiner.stepLoop].
  set (B := gridPoint B0 B1 st).
  destruct (dltb (residual B (scaleFor B)) (minErr cur)) eqn:Hacc.
  - apply dltb_lt in Hacc.
    destruct (IH (st + 1)%Z (mk_search (residual B (scaleFor B)) B (scaleFor B)))
      as [Heq | (k & Hk & Heq & Hlt & Hfirst)].
    + right. exists st. rewrite Heq. repeat split; try lia; try exact Hacc.
    + right. exists k. cbn [minErr] in Hlt. repeat split; try lia; try exact Heq.
      * lra.
      * intros j Hj. destruct (Z.eq_dec j st) as [->|Hne]; [exact Hlt|].
        apply Hfirst. lia.
  - apply dltb_ge in Hacc.
    destruct (IH (st + 1)%Z cur) as [Heq | (k & Hk & Heq & Hlt & Hfirst)].
    + now left.
    + right. exists k. repeat split; try lia; try exact Heq; try exact Hlt.
      intros j Hj. destruct (Z.eq_dec j st) as [->|Hne]; [fold B; lra|].
      apply Hfirst. lia.
Qed.

(** *** The interval of the last scan *)

Lemma findBKRec1D_scan_last (depth : nat) (B0 B1 : double) :
  findBKRec1D_scan depth B0 B1
  = scan (fst (lastInterval depth B0 B1)) (snd (lastInterval depth B0 B1)).
Proof.
  revert B0 B1. induction depth as [|d IH]; intros B0 B1;
    cbn [BFactorRefiner.findBKRec1D_scan BFactorRefiner.lastInterval];
    [reflexivity|].
  destruct (nextInterval B0 B1 (bestB (scan B0 B1))) as [n0 n1]. apply IH.
Qed.

Lemma qpow_nonneg (q : Q) (n : nat) : 0 <= q -> 0 <= qpow q n.
Proof.
  intros Hq. induction n as [|n IH]; cbn [qpow]; [lra|nra].
Qed.

Lemma nextInterval_width (B0 B1 best : double) :
  (2 <= steps)%Z -> B0 <= best <= B1 ->
  snd (nextInterval B0 B1 best) - fst (nextInterval B0 B1 best)
  <= (B1 - B0) * (2 / (inject_Z steps - 1)).
Proof.
  intros Hsteps Hb. unfold BFactorRefiner.nextInterval. cbn [fst snd].
  assert (Hm : 0 < inject_Z steps - 1).
  { assert (inject_Z 2 <= inject_Z steps) by (rewrite <- Zle_Qle; lia).
    change (inject_Z 2) with 2 in H. lra. }
  assert (Heq : (B1 - B0) * (2 / (inject_Z steps - 1))
                == 2 * ((B1 - B0) / (inject_Z steps - 1))) by (field; lra).
  rewrite Heq.
  assert (Hh : 0 <= (B1 - B0) / (inject_Z steps - 1)).
  { apply Qle_shift_div_l; [exact Hm|]. lra. }
  set (h := (B1 - B0) / (inject_Z steps - 1)) in *.
  case_ltb (best - h) B0; case_ltb B1 (best + h); lra.
Qed.

Lemma lastInterval_nested (depth : nat) (B0 B1 : double) :
  (2 <= steps)%Z -> B0 <= B1 ->
  B0 <= fst (lastInterval depth B0 B1) /\
  fst (lastInterval depth B0 B1) <= snd (lastInterval depth B0 B1) /\
  snd (lastInterval depth B0 B1) <= B1 /\
  snd (lastInterval depth B0 B1) - fst (lastInterval depth B0 B1)
  <= (B1 - B0) * qpow (2 / (inject_Z steps - 1)) depth.
Proof.
  intros Hsteps. revert B0 B1.
  assert (Hm : 0 < inject_Z steps - 1).
  { assert (inject_Z 2 <= inject_Z steps) by (rewrite <- Zle_Qle; lia).
    change (inject_Z 2) with 2 in H. lra. }
  assert (Hrho : 0 <= 2 / (inject_Z steps - 1)).
  { apply Qle_shift_div_l; [exact Hm|]. lra. }
  induction depth as [|d IH]; intros B0 B1 HB;
    cbn [BFactorRefiner.lastInterval qpow].
  - cbn [fst snd]. repeat split; lra.
  - pose proof (scan_inv exp t_rad s_rad min_scale steps B0 B1 B0 B1 Hsteps
                  ltac:(lra) HB ltac:(lra)) as (Hb & _).
    pose proof (nextInterval_range steps B0 B1 _ Hsteps Hb)
      as (H0 & H1 & H2 & H3).
    pose proof (nextInterval_width B0 B1 _ Hsteps Hb) as Hw.
    destruct (nextInterval B0 B1 (bestB (scan B0 B1))) as [n0 n1].
    cbn [fst snd] in *.
    destruct (IH n0 n1 ltac:(lra)) as (I0 & I1 & I2 & I3).
    pose proof (qpow_nonneg (2 / (inject_Z steps - 1)) d Hrho) as Hp.
    set (rho := 2 / (inject_Z steps - 1)) in *.
    set (pw := qpow rho d) in *.
    repeat split; try lra.
    assert ((n1 - n0) * pw <= (B1 - B0) * rho * pw) by nra.
    lra.
Qed.

(** *** Profiles without signal *)

Lemma nth_zero (l : list double) (r : nat) :
  Forall (fun x => x == 0) l -> nth r l 0 == 0.
Proof.
  intros Hl. revert r. induction Hl as [|x l Hx _ IH]; intros [|r]; cbn;
    try reflexivity; [exact Hx | apply IH].
Qed.

Lemma scaleSums_zero (B : double) (ts : list Q) :
  Forall (fun x => x == 0) ts -> Forall (fun x => x == 0) s_rad ->
  forall r : nat,
    fst (scaleSums B r ts 0 0) == 0 /\ snd (scaleSums B r ts 0 0) == 0.
Proof.
  intros Hts Hs. induction Hts as [|tr ts Htr _ IH]; intros r;
    cbn [BFactorRefiner.scaleSums].
  - cbn. split; reflexivity.
  - destruct (scaleSums_acc B ts (S r) (0 + nth r s_rad 0 * sigVal exp B r)
                (0 + tr * sigVal exp B r * sigVal exp B r)) as [H1 H2].
    destruct (IH (S r)) as [H3 H4].
    rewrite H1, H2, H3, H4, Htr, (nth_zero s_rad r Hs). split; ring.
Qed.

Section NoSignal.

Hypothesis t_zero : Forall (fun x => x == 0) t_rad.
Hypothesis s_zero : Forall (fun x => x == 0) s_rad.
Hypothesis steps_2 : (2 <= steps)%Z.

Lemma residual_zero (B : double) (a : Q) : residual B a == 0.
Proof.
  rewrite residual_quadratic.
  destruct (scaleSums_zero B t_rad t_zero s_zero 0) as [H1 H2].
  rewrite H1, H2. ring.
Qed.

Lemma scaleFor_zero (B : double) :
  (0 < min_scale -> scaleFor B == min_scale) /\
  (min_scale <= 0 -> scaleFor B == 0).
Proof.
  unfold BFactorRefiner.scaleFor.
  destruct (scaleSums_zero B t_rad t_zero s_zero 0) as [H1 H2].
  destruct (scaleSums B 0 t_rad 0 0) as [N D]. cbn [fst snd] in *.
  case_ltb eps D; [unfold eps in *; lra|].
  assert (Ha : N / eps == 0) by (rewrite H1; reflexivity).
  case_ltb (N / eps) min_scale; split; intros; lra.
Qed.

Lemma scan_zero (B0 B1 : double) :
  scan B0 B1 = accepted B0 B1 0.
Proof.
  unfold BFactorRefiner.scan.
  pose proof (stepLoop_minErr_cand exp t_rad s_rad min_scale steps B0 B1
                (Z.to_nat steps) 0 (mk_search DBL_MAX B0 1) 0 ltac:(lia))
    as Hle.
  rewrite residual_zero in Hle.
  assert (Hmax : 0 < DBL_MAX) by reflexivity.
  destruct (stepLoop_first_min B0 B1 (Z.to_nat steps) 0
              (mk_search DBL_MAX B0 1))
    as [Heq | (k & Hk & Heq & _ & Hfirst)].
  - rewrite Heq in Hle. cbn [minErr] in Hle. lra.
  - destruct (Z.eq_dec k 0) as [->|Hne]; [exact Heq|].
    specialize (Hfirst 0%Z ltac:(lia)). rewrite !residual_zero in Hfirst. lra.
Qed.

Lemma findBKRec1D_scan_zero (depth : nat) (c : double) :
  forall B0 B1 : double,
    B0 == c -> B0 <= B1 ->
    bestB (findBKRec1D_scan depth B0 B1) == c /\
    (0 < min_scale -> bestA (findBKRec1D_scan depth B0 B1) == min_scale) /\
    (min_scale <= 0 -> bestA (findBKRec1D_scan depth B0 B1) == 0).
Proof.
  assert (Hgrid : forall B0 B1 : Q, gridPoint B0 B1 0 == B0).
  { intros B0 B1. unfold BFactorRefiner.gridPoint, Qdiv.
    change (inject_Z 0) with 0. ring. }
  induction depth as [|d IH]; intros B0 B1 Hc HB;
    cbn [BFactorRefiner.findBKRec1D_scan]; rewrite scan_zero; cbn [bestB bestA].
  - split; [rewrite <- Hc; apply Hgrid|]. apply scaleFor_zero.
  - pose proof (Hgrid B0 B1) as Hg.
    set (g := gridPoint B0 B1 0) in *.
    assert (Hin : B0 <= g <= B1) by lra.
    pose proof (nextInterval_range steps B0 B1 g steps_2 Hin)
      as (H0 & H1 & H2 & H3).
    destruct (nextInterval B0 B1 g) as [n0 n1].
    cbn [fst snd] in *. apply IH; lra.
Qed.

End NoSignal.

End SearchFacts.



Lemma leastSquaresSum_offset (exp : double -> double) (s_rad : list double)
      (B a B' a' : Q) (ts : list Q) :
  Forall (fun tr => ~ tr == 0) ts ->
  forall (r : nat) (s1 s2 s3 s4 : Q),
    leastSquaresSum exp s_rad B a r ts s1
    - BFactorRefiner.residualSum exp s_rad B a r ts s2
    - (leastSquaresSum exp s_rad B' a' r ts s3
       - BFactorRefiner.residualSum exp s_rad B' a' r ts s4)
    == s1 - s2 - (s3 - s4).
Proof.
  induction 1 as [|tr ts Htr _ IH]; intros r s1 s2 s3 s4;
    cbn [leastSquaresSum BFactorRefiner.residualSum].
  - reflexivity.
  - rewrite IH. field. exact Htr.
Qed.







(** *** Refinement on a grid that keeps the previous best *)



(** With an even step count the residual can increase, in exact
    arithmetic too: powers 1, 1 and cross terms 1, 0.7788 follow a
    decay of 1 closely.  On [0, 3] in 4 steps the search of depth 0
    returns the decay 1, which is on its grid; with depth 1 the grid of
    the narrowed interval [0, 2] is 0, 2/3, 4/3, 2, the decay returned is
    4/3, and the residual of the pair returned is larger. *)
Lemma refinement_can_raise_residual :
  let t_rad := [1; 1] in
  let s_rad := [1; 7788 # 10000] in
  let r0 := BFactorRefiner.findBKRec1D exp_poly t_rad s_rad 0 3 (1 # 5) 4 0 in
  let r1 := BFactorRefiner.findBKRec1D exp_poly t_rad s_rad 0 3 (1 # 5) 4 1 in
  d2_0 r0 == 1 /\ d2_0 r1 == 4 # 3 /\
  ~ BFactorRefiner.residual exp_poly t_rad s_rad (d2_0 r1) (d2_1 r1)
    <= BFactorRefiner.residual exp_poly t_rad s_rad (d2_0 r0) (d2_1 r0).
Proof.
  intros t_rad s_rad r0 r1.
  assert (H : Qeq_bool (d2_0 r0) 1 && Qeq_bool (d2_0 r1) (4 # 3)
              && dltb (BFactorRefiner.residual exp_poly t_rad s_rad
                         (d2_0 r0) (d2_1 r0))
                      (BFactorRefiner.residual exp_poly t_rad s_rad
                         (d2_0 r1) (d2_1 r1)) = true)
    by (vm_compute; reflexivity).
  apply andb_prop in H. destruct H as [H Hlt].
  apply andb_prop in H. destruct H as [H0 H1].
  apply Qeq_bool_iff in H0, H1. apply dltb_lt in Hlt.
  split; [exact H0|]. split; [exact H1|]. now apply Qlt_not_le.
Qed.

(** *** The even grid, for any exponential

    The increase of the residual shown above for cross terms 1, 0.7788
    does not depend on how [exp] is evaluated: with powers 1, 1 and
    cross terms 1, [exp (-1/4)], 4 steps on [0, 3] return the decay 1
    with the least residual there is, and one more level of recursion
    returns a pair with a larger one. *)

Section EvenGrid.

Import BFactorRefiner.

(** Any [exp] with [exp 0 = 1] that tells -1/4 from the other
    arguments met below, as the exponential does. *)
Variable exp : double -> double.
Hypothesis exp_0 : exp 0 == 1.

(** The cross term at radius 1 follows a decay of 1 exactly. *)
Let q : double := exp (- 1 # 4).

Hypothesis exp_0_q : ~ exp 0 == q.
Hypothesis exp_6_q : ~ exp (- 1 # 6) == q.
Hypothesis exp_3_q : ~ exp (- 1 # 3) == q.
Hypothesis exp_2_q : ~ exp (- 1 # 2) == q.
Hypothesis exp_34_q : ~ exp (- 3 # 4) == q.

Local Abbreviation t_rad := [1; 1].
Local Abbreviation s_rad := [1; q].
Local Abbreviation R := (residual exp t_rad s_rad).

Lemma sigVal_radius_0 (B : double) : sigVal exp B 0 = exp 0.
Proof.
  unfold sigVal. f_equal.
  transitivity (Qred 0); [|reflexivity]. apply Qred_complete.
  change (inject_Z (Z.of_nat 0)) with 0. field.
Qed.

Lemma residual_two_radii (B a : double) :
  R B a == (a - 1) * (a - 1)
           + (a * sigVal exp B 1 - q) * (a * sigVal exp B 1 - q)
           - (1 + q * q).
Proof.
  unfold residual. cbn [residualSum nth].
  rewrite sigVal_radius_0, exp_0. ring.
Qed.

Lemma residual_above (B a : double) :
  ~ sigVal exp B 1 == q -> - (1 + q * q) < R B a.
Proof.
  intros Hb. rewrite residual_two_radii.
  set (b := sigVal exp B 1) in *.
  assert (Hpos : 0 < (a - 1) * (a - 1) + (a * b - q) * (a * b - q)).
  { set (x := a - 1). set (y := a * b - q).
    assert (Hx : 0 <= x * x) by nra.
    assert (Hy : 0 <= y * y) by nra.
    destruct (Qeq_dec x 0) as [Hx0|Hx0].
    - assert (Hy0 : ~ y == 0).
      { intros Hy0. apply Hb. subst x y. nra. }
      assert (0 < y * y) by nra. lra.
    - assert (0 < x * x) by nra. lra. }
  lra.
Qed.

Local Abbreviation ms := (1 # 5).
Local Abbreviation scaleFor := (scaleFor exp t_rad s_rad ms).
Local Abbreviation scan := (scan exp t_rad s_rad ms 4).

Lemma scaleFor_exact (B : double) :
  sigVal exp B 1 == q -> scaleFor B == 1.
Proof.
  intros Hb. unfold BFactorRefiner.scaleFor. cbn [scaleSums nth].
  rewrite sigVal_radius_0.
  set (b := sigVal exp B 1) in *. set (e := exp 0) in *.
  assert (Hnum : 0 + 1 * e + q * b == 1 + q * q) by (rewrite Hb, exp_0; ring).
  assert (Hden : 0 + 1 * e * e + 1 * b * b == 1 + q * q)
    by (rewrite Hb, exp_0; ring).
  assert (Hq : 0 <= q * q) by nra.
  set (num := 0 + 1 * e + q * b) in *.
  set (denom := 0 + 1 * e * e + 1 * b * b) in *.
  case_ltb eps denom; [|unfold eps in *; lra].
  assert (Ha : num / denom == 1) by (rewrite Hnum, Hden; field; lra).
  case_ltb (num / denom) (1 # 5); [lra | exact Ha].
Qed.

Lemma candidate_exact (B : double) :
  sigVal exp B 1 == q -> R B (scaleFor B) == - (1 + q * q).
Proof.
  intros Hb. rewrite residual_two_radii, (scaleFor_exact B Hb), Hb. ring.
Qed.

(** On [0, 3] in 4 steps, the scan keeps the candidate of step 1. *)
Lemma scan_keeps_decay_1 :
  scan 0 3
  = mk_search (R (gridPoint 4 0 3 1) (scaleFor (gridPoint 4 0 3 1)))
              (gridPoint 4 0 3 1) (scaleFor (gridPoint 4 0 3 1)).
Proof.
  assert (Hq : 0 <= q * q) by nra.
  assert (H1 : sigVal exp (gridPoint 4 0 3 1) 1 == q) by reflexivity.
  pose proof (scan_minErr_cand exp t_rad s_rad ms 4 0 3 1 ltac:(lia)) as Hle.
  rewrite (candidate_exact _ H1) in Hle.
  assert (Hmax : 0 < DBL_MAX) by reflexivity.
  destruct (scan_accepted exp t_rad s_rad ms 4 0 3 ltac:(lra))
    as (k & Hk & Heq).
  rewrite Heq in Hle. cbn [minErr] in Hle.
  assert (Hcases : (k = 0 \/ k = 1 \/ k = 2 \/ k = 3)%Z) by lia.
  destruct Hcases as [->|[->|[->| ->]]].
  - pose proof (residual_above (gridPoint 4 0 3 0)
                  (scaleFor (gridPoint 4 0 3 0)) exp_0_q). lra.
  - exact Heq.
  - pose proof (residual_above (gridPoint 4 0 3 2)
                  (scaleFor (gridPoint 4 0 3 2)) exp_2_q). lra.
  - pose proof (residual_above (gridPoint 4 0 3 3)
                  (scaleFor (gridPoint 4 0 3 3)) exp_34_q). lra.
Qed.

(** Whatever the scan of the narrowed interval keeps, its decay is not
    the one the cross terms follow. *)
Lemma narrowed_scan_misses :
  let ni := nextInterval 4 0 3 (gridPoint 4 0 3 1) in
  ~ sigVal exp (bestB (scan (fst ni) (snd ni))) 1 == q.
Proof.
  intros ni. unfold BFactorRefiner.scan.
  destruct (stepLoop_accepted exp t_rad s_rad ms 4 (fst ni) (snd ni)
              (Z.to_nat 4) 0 (mk_search DBL_MAX (fst ni) 1))
    as [Heq | (k & Hk & Heq)]; rewrite Heq; cbn [bestB].
  - exact exp_0_q.
  - assert (Hcases : (k = 0 \/ k = 1 \/ k = 2 \/ k = 3)%Z) by lia.
    destruct Hcases as [->|[->|[->| ->]]].
    + exact exp_0_q.
    + exact exp_6_q.
    + exact exp_3_q.
    + exact exp_2_q.
Qed.

(** With 4 steps, for every [exp] as above, one more level of recursion
    returns a pair with a larger residual. *)
Lemma even_grid_raises_residual :
  let r0 := findBKRec1D exp t_rad s_rad 0 3 ms 4 0 in
  let r1 := findBKRec1D exp t_rad s_rad 0 3 ms 4 1 in
  R (d2_0 r0) (d2_1 r0) < R (d2_0 r1) (d2_1 r1).
Proof.
  intros r0 r1. subst r0 r1. unfold findBKRec1D. cbn [d2_0 d2_1].
  change (Z.to_nat 0) with 0%nat. change (Z.to_nat 1) with 1%nat.
  cbn [findBKRec1D_scan]. rewrite scan_keeps_decay_1. cbn [bestB bestA].
  pose proof narrowed_scan_misses as Hmiss. cbv zeta in Hmiss.
  destruct (nextInterval 4 0 3 (gridPoint 4 0 3 1)) as [n0 n1].
  cbn [fst snd] in Hmiss.
  rewrite (candidate_exact (gridPoint 4 0 3 1)) by reflexivity.
  apply residual_above. exact Hmiss.
Qed.

End EvenGrid.

(** The polynomial stand-in is such an [exp]. *)
Example even_grid_exp_poly :
  let s_rad := [1; exp_poly (- 1 # 4)] in
  let r0 := BFactorRefiner.findBKRec1D exp_poly [1; 1] s_rad 0 3 (1 # 5) 4 0 in
  let r1 := BFactorRefiner.findBKRec1D exp_poly [1; 1] s_rad 0 3 (1 # 5) 4 1 in
  BFactorRefiner.residual exp_poly [1; 1] s_rad (d2_0 r0) (d2_1 r0)
  < BFactorRefiner.residual exp_poly [1; 1] s_rad (d2_0 r1) (d2_1 r1).
Proof.
  apply (even_grid_raises_residual exp_poly);
    first [reflexivity | intros H; vm_compute in H; discriminate H].
Qed.

Lemma findBKRec1D_scan_scale (exp : double -> double)
      (t_rad s_rad : list double) (min_scale : double) (steps : Z)
      (depth : nat) (B0 B1 : double) :
  let last := BFactorRefiner.findBKRec1D_scan exp t_rad s_rad min_scale steps
                depth B0 B1 in
  BFactorRefiner.bestA last = 1 \/ min_scale <= BFactorRefiner.bestA last.
Proof.
  cbv zeta. rewrite findBKRec1D_scan_last. unfold BFactorRefiner.scan.
  destruct (stepLoop_accepted exp t_rad s_rad min_scale steps
              (fst (BFactorRefiner.lastInterval exp t_rad s_rad min_scale
                      steps depth B0 B1))
              (snd (BFactorRefiner.lastInterval exp t_rad s_rad min_scale
                      steps depth B0 B1))
              (Z.to_nat steps) 0
              (BFactorRefiner.mk_search DBL_MAX
                 (fst (BFactorRefiner.lastInterval exp t_rad s_rad min_scale
                         steps depth B0 B1)) 1))
    as [Heq | (k & _ & Heq)]; rewrite Heq; cbn [BFactorRefiner.bestA].
  - now left.
  - right. apply scaleFor_min.
Qed.

(** X6.  [processMicrograph] writes one row per particle; every scale
    written is 1.0 or at least [min_scale]; and with [perMicrograph] set
    all rows are equal. *)
Theorem processMicrograph_rows (exp : double -> double)
        (rf : BFactorRefiner.Refiner)
        (profiles : list (list double * list double)) :
  let rows := BFactorRefiner.processMicrograph exp rf profiles in
  length rows = length profiles /\
  Forall (fun row => snd row = 1 \/ BFactorRefiner.min_scale rf <= snd row)
         rows /\
  (BFactorRefiner.perMicrograph rf = true ->
   forall row row', In row rows -> In row' rows -> row = row').
Proof.
  cbv zeta. unfold BFactorRefiner.processMicrograph.
  destruct (BFactorRefiner.perMicrograph rf).
  - split; [apply length_map|]. split.
    + apply Forall_forall. intros row Hin. apply in_map_iff in Hin.
      destruct Hin as (p & <- & _). cbn [snd BFactorRefiner.written].
      apply findBKRec1D_scan_scale.
    + intros _ row row' Hin Hin'. apply in_map_iff in Hin, Hin'.
      destruct Hin as (p & <- & _). destruct Hin' as (p' & <- & _).
      reflexivity.
  - split; [apply length_map|]. split; [|discriminate].
    apply Forall_forall. intros row Hin. apply in_map_iff in Hin.
    destruct Hin as (p & <- & _). cbn [snd BFactorRefiner.written].
    apply findBKRec1D_scan_scale.
Qed.

(** X7.  For an image size [s > 0] and a row [0 <= y < s], the row
    frequency [yy] of the pixel loops of [processMicrograph] is [y] or
    [y - s] and lies between [-(s/2)] and [s/2]; its square is the
    square of the row frequency of [findBKRec2D], and the two differ
    only in row [s/2] of an even size, where they have opposite
    signs. *)
Theorem rowFrequency_agree (s y : Z) :
  (0 < s)%Z -> (0 <= y < s)%Z ->
  let yy := BFactorRefiner.rowFrequency s y in
  let yy2 := BFactorRefiner.rowFrequency2D s y in
  (yy * yy = yy2 * yy2)%Z /\
  (- Z.quot s 2 <= yy < BFactorRefiner.sh_of s)%Z /\
  (yy = y \/ yy = y - s)%Z /\
  (yy <> yy2 -> Z.even s = true /\ y = Z.quot s 2 /\ yy = (- yy2)%Z).
Proof.
  intros Hs Hy yy yy2. subst yy yy2.
  unfold BFactorRefiner.rowFrequency, BFactorRefiner.rowFrequency2D,
    BFactorRefiner.sh_of.
  rewrite Z.quot_div_nonneg by lia.
  pose proof (Z.div_mod s 2 ltac:(lia)) as Hdm.
  pose proof (Z.mod_pos_bound s 2 ltac:(lia)) as Hm.
  set (h := (s / 2)%Z) in *.
  rewrite Z.rem_mod_nonneg by lia.
  destruct (Z_lt_ge_dec (y + h) s) as [Hlt|Hge].
  - rewrite Z.mod_small by lia.
    destruct (Z.ltb_spec y (h + 1)); repeat split; lia.
  - replace ((y + h) mod s)%Z with (y + h - s)%Z
      by (apply Z.mod_unique with (q := 1%Z); lia).
    destruct (Z.ltb_spec y (h + 1)); repeat split; try lia.
    + assert (Hyh : y = h) by lia. assert (Hsh : s = (2 * h)%Z) by lia.
      rewrite Hyh, Hsh. ring.
    + rewrite Zeven_mod. apply Z.eqb_eq. lia.
Qed.

(** X7 in the row 4 of an image of size 8, where the two loops
    disagree: -4 and 4. *)
Lemma rowFrequency_agree_witness :
  (0 < 8)%Z /\ (0 <= 4 < 8)%Z /\
  let yy := BFactorRefiner.rowFrequency 8 4 in
  let yy2 := BFactorRefiner.rowFrequency2D 8 4 in
  (yy * yy = yy2 * yy2)%Z /\
  (- Z.quot 8 2 <= yy < BFactorRefiner.sh_of 8)%Z /\
  (yy = 4 \/ yy = 4 - 8)%Z /\
  (yy <> yy2 -> Z.even 8 = true /\ 4%Z = Z.quot 8 2 /\ yy = (- yy2)%Z).
Proof.
  split; [lia|]. split; [lia|].
  apply (rowFrequency_agree 8 4); lia.
Defined.



(** ** The pixel loops *)

Section PixelFacts.

Import BFactorRefiner.

Lemma addAt_length (v : list double) :
  forall (i : nat) (d : double), length (addAt v i d) = length v.
Proof.
  induction v as [|x v IH]; intros [|i] d; cbn [addAt length];
    try reflexivity.
  now rewrite IH.
Qed.

Lemma addAt_nonneg (v : list double) :
  forall (i : nat) (d : double),
    0 <= d -> Forall (fun t => 0 <= t) v ->
    Forall (fun t => 0 <= t) (addAt v i d).
Proof.
  induction v as [|x v IH]; intros [|i] d Hd Hv; cbn [addAt];
    try exact Hv; inversion Hv as [|? ? Hx Hv']; subst; constructor;
    try assumption; [lra | now apply IH].
Qed.

Lemma addProfile_length (a b : list double) :
  length (addProfile a b) = length a.
Proof.
  revert b. induction a as [|x a IH]; intros [|y b];
    cbn [addProfile length]; try reflexivity.
  now rewrite IH.
Qed.

Lemma addAt_addProfile (base : list double) :
  forall (a z : list double) (i : nat) (d : double),
    length z = length base ->
    Forall2 Qeq a (addProfile base z) ->
    Forall2 Qeq (addAt a i d) (addProfile base (addAt z i d)).
Proof.
  induction base as [|b base IH]; intros a z i d Hlen Ha.
  - destruct z; [|discriminate]. cbn in *. inversion Ha; subst. constructor.
  - destruct z as [|c z]; [discriminate|]. injection Hlen as Hlen.
    cbn [addProfile] in Ha. inversion Ha as [|x ? a' ? Hx Ha']; subst.
    destruct i as [|i]; cbn [addAt addProfile]; constructor.
    + rewrite Hx. ring.
    + exact Ha'.
    + exact Hx.
    + now apply IH.
Qed.

Variable sqrt : double -> double.
Variable s_ : Z.
Variable freqWeight : Z -> Z -> double.

Local Abbreviation radiusIndex := (radiusIndex sqrt s_).
Local Abbreviation pixelStep := (pixelStep sqrt s_ freqWeight).
Local Abbreviation pixels := (pixels s_).
Local Abbreviation accumulateParticle := (accumulateParticle sqrt s_ freqWeight).
Local Abbreviation particleProfiles := (particleProfiles sqrt s_ freqWeight).

(** The loop from any list of pixels. *)
Local Abbreviation loop pt l acc :=
  (fold_left (fun a yx =>
                match a with
                | Some a' => pixelStep pt (fst yx) (snd yx) a'
                | None => None
                end) l acc).

Local Abbreviation sqrtInRange := (sqrtInRange sqrt s_).

Lemma pixels_range (y x : Z) :
  In (y, x) pixels -> (0 <= y < s_)%Z /\ (0 <= x < sh_of s_)%Z.
Proof.
  unfold BFactorRefiner.pixels. intros H. apply in_prod_iff in H. destruct H as [Hy Hx].
  apply in_map_iff in Hy, Hx.
  destruct Hy as (n & <- & Hn). destruct Hx as (m & <- & Hm).
  apply in_seq in Hn, Hm. lia.
Qed.

Lemma radiusIndex_defined (y x : Z) :
  sqrtInRange -> (0 <= y < s_)%Z -> (0 <= x < sh_of s_)%Z ->
  exists ri, radiusIndex y x = Some ri /\ (0 <= ri)%Z.
Proof.
  intros Hsqrt Hy Hx. specialize (Hsqrt y x Hy Hx). cbv zeta in Hsqrt.
  unfold BFactorRefiner.radiusIndex. cbv zeta.
  set (v := sqrt _) in *.
  unfold double_to_int.
  assert (Hq : Qtrunc (v + (1 # 2)) = Qfloor (v + (1 # 2)))
    by (apply Qtrunc_nonneg; lra).
  rewrite Hq.
  assert (H0 : (0 <= Qfloor (v + (1 # 2)))%Z).
  { change 0%Z with (Qfloor 0). apply Qfloor_resp_le. lra. }
  assert (H1 : (Qfloor (v + (1 # 2)) <= INT_MAX)%Z).
  { rewrite <- (Qfloor_Z INT_MAX).
    assert (Hlt : inject_Z (Qfloor (v + (1 # 2))) < inject_Z (INT_MAX + 1)).
    { eapply Qle_lt_trans; [apply Qfloor_le|].
      rewrite inject_Z_plus. change (inject_Z 1) with 1. lra. }
    rewrite <- Zlt_Qlt in Hlt. rewrite Qfloor_Z. lia. }
  exists (Qfloor (v + (1 # 2))). split; [|exact H0].
  replace (INT_MIN <=? Qfloor (v + (1 # 2)))%Z with true
    by (symmetry; apply Z.leb_le; unfold INT_MIN; lia).
  replace (Qfloor (v + (1 # 2)) <=? INT_MAX)%Z with true
    by (symmetry; apply Z.leb_le; exact H1).
  reflexivity.
Qed.

(** What the loop keeps: the lengths, and entries of [t_rad] that are
    not negative. *)
Lemma loop_profiles (pt : Particle) (l : list (Z * Z)) :
  sqrtInRange ->
  (forall y x, In (y, x) l -> (0 <= y < s_)%Z /\ (0 <= x < sh_of s_)%Z) ->
  forall acc : list double * list double,
  exists acc',
    loop pt l (Some acc) = Some acc' /\
    length (fst acc') = length (fst acc) /\
    length (snd acc') = length (snd acc) /\
    ((forall y x, 0 <= freqWeight y x) ->
     Forall (fun t => 0 <= t) (fst acc) ->
     Forall (fun t => 0 <= t) (fst acc')).
Proof.
  intros Hsqrt. induction l as [|[y x] l IH]; intros Hl acc; cbn [fold_left].
  - exists acc. repeat split; auto.
  - destruct (Hl y x (or_introl eq_refl)) as [Hy Hx].
    destruct (radiusIndex_defined y x Hsqrt Hy Hx) as (ri & Hri & Hri0).
    cbn [fst snd]. unfold BFactorRefiner.pixelStep at 2. rewrite Hri.
    replace (ri <? 0)%Z with false by (symmetry; apply Z.ltb_ge; exact Hri0).
    assert (Hl' : forall y x, In (y, x) l ->
                              (0 <= y < s_)%Z /\ (0 <= x < sh_of s_)%Z)
      by (intros; apply Hl; now right).
    destruct (ri <? sh_of s_)%Z.
    + destruct (IH Hl' (addAt (fst acc) (Z.to_nat ri)
                          (freqWeight y x
                           * (real (zpred pt y x) * real (zpred pt y x)
                              + imag (zpred pt y x) * imag (zpred pt y x))),
                        addAt (snd acc) (Z.to_nat ri)
                          (freqWeight y x
                           * (real (zpred pt y x) * real (zobs pt y x)
                              + imag (zpred pt y x) * imag (zobs pt y x)))))
        as (acc' & Hrun & Ht & Hs & Hpos).
      cbn [fst snd] in *. rewrite addAt_length in Ht, Hs.
      exists acc'. repeat split; try assumption.
      intros Hw Hacc. apply Hpos; [exact Hw|].
      apply addAt_nonneg; [|exact Hacc].
      apply Qmult_le_0_compat; [apply Hw|].
      pose proof (Qsquare_nonneg (real (zpred pt y x))).
      pose proof (Qsquare_nonneg (imag (zpred pt y x))). lra.
    + destruct (IH Hl' acc) as (acc' & Hrun & Ht & Hs & Hpos).
      exists acc'. repeat split; assumption.
Qed.

Lemma loop_none (pt : Particle) (l : list (Z * Z)) : loop pt l None = None.
Proof. induction l as [|yx l IH]; [reflexivity | exact IH]. Qed.

(** Accumulating onto [base] is adding what accumulates from zero. *)
Lemma loop_addProfile (pt : Particle) (l : list (Z * Z))
      (tb sb : list double) :
  forall (a z z' : list double * list double),
    length (fst z) = length tb -> length (snd z) = length sb ->
    Forall2 Qeq (fst a) (addProfile tb (fst z)) ->
    Forall2 Qeq (snd a) (addProfile sb (snd z)) ->
    loop pt l (Some z) = Some z' ->
    exists a',
      loop pt l (Some a) = Some a' /\
      Forall2 Qeq (fst a') (addProfile tb (fst z')) /\
      Forall2 Qeq (snd a') (addProfile sb (snd z')).
Proof.
  induction l as [|[y x] l IH]; intros a z z' Ht Hs Hta Hsa Hrun;
    cbn [fold_left] in *.
  - injection Hrun as <-. exists a. repeat split; assumption.
  - cbn [fst snd] in *. unfold BFactorRefiner.pixelStep at 2 in Hrun.
    unfold BFactorRefiner.pixelStep at 2.
    destruct (radiusIndex y x) as [ri|]; [|now rewrite loop_none in Hrun].
    destruct (ri <? sh_of s_)%Z; [|now apply (IH a z z')].
    destruct (ri <? 0)%Z; [now rewrite loop_none in Hrun|].
    eapply IH; [| | | |exact Hrun]; cbn [fst snd].
    + now rewrite addAt_length.
    + now rewrite addAt_length.
    + now apply addAt_addProfile.
    + now apply addAt_addProfile.
Qed.

Lemma addProfile_zero (base : list double) :
  Forall2 Qeq base (addProfile base (repeat 0 (length base))).
Proof.
  induction base as [|b base IH]; cbn [length repeat addProfile].
  - apply Forall2_nil.
  - apply Forall2_cons; [lra | exact IH].
Qed.

(** X9.  When the values of [sqrt] at the pixels are not negative and
    fit an [int], the pixel loops of [processMicrograph] have defined
    behaviour for every particle (no radius index falls outside the
    vectors), the two profiles they return have [sh] entries each, and
    with weights that are not negative no entry of [t_rad] is
    negative. *)
Theorem particleProfiles_shape (pt : Particle) :
  sqrtInRange ->
  exists t_rad s_rad,
    particleProfiles pt = Some (t_rad, s_rad) /\
    length t_rad = Z.to_nat (sh_of s_) /\
    length s_rad = Z.to_nat (sh_of s_) /\
    ((forall y x, 0 <= freqWeight y x) -> Forall (fun t => 0 <= t) t_rad).
Proof.
  intros Hsqrt.
  unfold BFactorRefiner.particleProfiles, BFactorRefiner.accumulateParticle.
  destruct (loop_profiles pt pixels Hsqrt pixels_range (zeroProfiles s_))
    as ([t s] & Hrun & Ht & Hs & Hpos).
  unfold zeroProfiles in Ht, Hs, Hpos. cbn [fst snd] in *.
  rewrite repeat_length in Ht, Hs.
  exists t, s. repeat split; try assumption.
  intros Hw. apply Hpos; [exact Hw|].
  apply Forall_forall. intros q Hq. apply repeat_spec in Hq. subst q. lra.
Qed.


End PixelFacts.

(** The integer square root of the concrete environment on an image
    of size 4. *)
Lemma sqrtInRange_Env : sqrtInRange Env.sqrt 4.
Proof.
  intros y x Hy Hx. unfold BFactorRefiner.sh_of in Hx. cbn in Hx.
  assert (Hyc : (y = 0 \/ y = 1 \/ y = 2 \/ y = 3)%Z) by lia.
  assert (Hxc : (x = 0 \/ x = 1 \/ x = 2)%Z) by lia.
  destruct Hyc as [-> | [-> | [-> | ->]]];
    destruct Hxc as [-> | [-> | ->]];
    split; vm_compute; discriminate.
Qed.

(** X9 on the particle of the concrete environment. *)
Lemma particleProfiles_shape_witness :
  sqrtInRange Env.sqrt 4 /\
  exists t_rad s_rad,
    BFactorRefiner.particleProfiles Env.sqrt 4 Env.freqWeight Env.particle
    = Some (t_rad, s_rad) /\
    length t_rad = Z.to_nat (BFactorRefiner.sh_of 4) /\
    length s_rad = Z.to_nat (BFactorRefiner.sh_of 4) /\
    ((forall y x, 0 <= Env.freqWeight y x) -> Forall (fun t => 0 <= t) t_rad).
Proof.
  split; [exact sqrtInRange_Env|].
  exact (particleProfiles_shape Env.sqrt 4 Env.freqWeight Env.particle
           sqrtInRange_Env).
Defined.


(** ** Validation and sampling in init, continued *)

Lemma filter_Permutation {A : Type} (f : A -> bool) (l l' : list A) :
  Permutation l l' -> Permutation (filter f l) (filter f l').
Proof.
  induction 1 as [|x l l' _ IH|x y l|l l' l'' _ IH1 _ IH2]; cbn [filter].
  - constructor.
  - destruct (f x); [now constructor | exact IH].
  - destruct (f x), (f y); try apply Permutation_refl. apply perm_swap.
  - eapply perm_trans; eassumption.
Qed.

Lemma lookupAll_seq_app {A : Type} (l pre : list A) :
  lookupAll (pre ++ l) (seq (length pre) (length l)) = l.
Proof.
  revert pre. induction l as [|x l IH]; intros pre; [reflexivity|].
  cbn [length seq]. unfold lookupAll. cbn [flat_map].
  rewrite nth_error_app2, Nat.sub_diag by lia. cbn [nth_error app].
  f_equal. specialize (IH (pre ++ [x])).
  rewrite <- app_assoc, length_app, Nat.add_1_r in IH. exact IH.
Qed.

Lemma lookupAll_seq {A : Type} (l : list A) :
  lookupAll l (seq 0 (length l)) = l.
Proof. exact (lookupAll_seq_app l []). Qed.

Lemma lookupAll_Permutation {A : Type} (l : list A) (order : list nat) :
  Permutation order (seq 0 (length l)) -> Permutation (lookupAll l order) l.
Proof.
  intros H. rewrite <- (lookupAll_seq l) at 2.
  unfold lookupAll. now apply Permutation_flat_map.
Qed.

Section InitFacts.

Variable MetaDataTable : Type.
Variable numberOfObjects : MetaDataTable -> Z.
Variable rng : Type.
Variable srand : Z -> rng.
Variable rand : rng -> Z * rng.
Variable RAND_MAX : Z.
Variable sortIndices : list double -> list nat.
Variable angToPix : double -> Z -> double.

Local Abbreviation selectLoop := (selectLoop MetaDataTable numberOfObjects).
Local Abbreviation drawRandNums := (drawRandNums rng rand RAND_MAX).
Local Abbreviation sample :=
  (sample MetaDataTable numberOfObjects rng srand rand RAND_MAX sortIndices).
Local Abbreviation init :=
  (init MetaDataTable numberOfObjects rng srand rand RAND_MAX sortIndices
        angToPix).
Local Abbreviation particleTotal := (particleTotal numberOfObjects).

(** What a call of [init] leaves as it was, by the way it ends. *)
Lemma init_outcomes (verb_ nr_omp_threads_ : Z) (debug_ : bool) (s_ fc_ : Z)
      (allMdts : list MetaDataTable) (mready : bool) (kout : double)
      (st st' : Estimator MetaDataTable) (g g' : rng) (oc : outcome) :
  init verb_ nr_omp_threads_ debug_ s_ fc_ allMdts mready kout st g
  = (oc, st', g') ->
  paramsRead st' = paramsRead st /\ opts st' = opts st /\
  (oc <> Done -> ready st' = ready st /\ mdts st' = mdts st /\
                 k_out st' = k_out st) /\
  (forall e, oc = Fatal e -> g' = g).
Proof.
  unfold MotionParamEstimator.init.
  repeat match goal with
         | |- (if ?c then (Fatal _, _, _) else _) = _ -> _ =>
             destruct c;
             [intros H; injection H as <- <- <-; cbn;
              repeat split; try reflexivity; intros; reflexivity|]
         end.
  cbn [opts set_cut set_ctx].
  destruct (sample _ _ _) as [[[pc sel]|] g''];
    intros H; injection H as <- <- <-; cbn;
    repeat split; try reflexivity; try congruence; intros; discriminate.
Qed.


(** X11.  Whatever fatal error [init] ends in, it is raised before the
    sampling: the generator, the micrographs selected earlier, [ready],
    [k_out], the options and [paramsRead] are as they were. *)
Theorem init_fatal_before_sampling
        (verb_ threads : Z) (debug_ : bool) (s_ fc_ : Z)
        (allMdts : list MetaDataTable) (mready : bool) (kout : double)
        (st st' : Estimator MetaDataTable) (g g' : rng) (e : error) :
  init verb_ threads debug_ s_ fc_ allMdts mready kout st g
  = (Fatal e, st', g') ->
  g' = g /\ mdts st' = mdts st /\ ready st' = ready st /\
  k_out st' = k_out st /\ opts st' = opts st /\
  paramsRead st' = paramsRead st.
Proof.
  intros H. apply init_outcomes in H.
  destruct H as (Hp & Ho & Hn & Hg).
  destruct (Hn ltac:(discriminate)) as (Hr & Hm & Hk).
  specialize (Hg e eq_refl). tauto.
Qed.

(** X12.  Every fatal error of [init] is justified by what the call
    was given: the parameters were not read; or the motion estimator
    was not ready; or both cutoffs, or both evaluation frequencies, were
    positive; or an estimation was requested and the pixel cutoff is
    negative after the completion of the units; or both estimation
    modes were set.  [init] never raises the error of [run]. *)
Theorem init_error_justified
        (verb_ threads : Z) (debug_ : bool) (s_ fc_ : Z)
        (allMdts : list MetaDataTable) (mready : bool) (kout : double)
        (st st' : Estimator MetaDataTable) (g g' : rng) (e : error) :
  init verb_ threads debug_ s_ fc_ allMdts mready kout st g
  = (Fatal e, st', g') ->
  match e with
  | ParamsNotRead => paramsRead st = false
  | EstimatorNotReady => paramsRead st = true /\ mready = false
  | BothCutoffUnits => 0 < k_cutoff (cut st) /\ 0 < k_cutoff_Angst (cut st)
  | BothEvalUnits => 0 < k_eval (cut st) /\ 0 < k_eval_Angst (cut st)
  | CutoffRequired =>
      (estim2 (opts st) = true \/ estim3 (opts st) = true) /\
      k_cutoff (cut st') < 0
  | BothParamCounts => estim2 (opts st) = true /\ estim3 (opts st) = true
  | NotInitialized => False
  end.
Proof.
  unfold MotionParamEstimator.init.
  destruct (paramsRead st) eqn:Hread; cbn [negb];
    [|intros H; injection H as <- _ _; reflexivity].
  destruct mready; cbn [negb];
    [|intros H; injection H as <- _ _; split; reflexivity].
  cbn [cut set_ctx opts set_cut].
  destruct (dltb 0 (k_cutoff_Angst (cut st)) && dltb 0 (k_cutoff (cut st)))
    eqn:Hcut.
  { intros H; injection H as <- _ _.
    apply andb_prop in Hcut. destruct Hcut as [H1 H2].
    apply dltb_lt in H1, H2. now split. }
  destruct (dltb 0 (k_eval_Angst (cut st)) && dltb 0 (k_eval (cut st)))
    eqn:Hev.
  { intros H; injection H as <- _ _.
    apply andb_prop in Hev. destruct Hev as [H1 H2].
    apply dltb_lt in H1, H2. now split. }
  match goal with
  | |- (if ?c then (Fatal _, _, _) else _) = _ -> _ => destruct c eqn:Hreq
  end.
  { intros H; injection H as <- <- _. cbn [cut].
    apply andb_prop in Hreq. destruct Hreq as [H1 H2].
    apply dltb_lt in H2. apply orb_prop in H1. now split. }
  destruct (estim2 (opts st) && estim3 (opts st)) eqn:Hboth.
  { intros H; injection H as <- _ _. now apply andb_prop in Hboth. }
  destruct (sample _ _ _) as [[[pc sel]|] g'']; discriminate.
Qed.

(** X13.  With the parameters read, the motion estimator ready and not
    both cutoffs positive, a call of [init] with [--k_eval] and
    [--k_eval_A] both positive ends in the error for the two evaluation
    units, having stored its arguments and nothing else. *)
Theorem init_rejects_both_eval_units
        (verb_ threads : Z) (debug_ : bool) (s_ fc_ : Z)
        (allMdts : list MetaDataTable) (kout : double)
        (st : Estimator MetaDataTable) (g : rng) :
  paramsRead st = true ->
  ~ (0 < k_cutoff (cut st) /\ 0 < k_cutoff_Angst (cut st)) ->
  0 < k_eval (cut st) -> 0 < k_eval_Angst (cut st) ->
  init verb_ threads debug_ s_ fc_ allMdts true kout st g
  = (Fatal BothEvalUnits,
     set_ctx (mk_Context verb_ threads debug_ s_ fc_) st, g).
Proof.
  intros Hread Hcut He HeA. unfold MotionParamEstimator.init.
  rewrite Hread. cbn [negb cut set_ctx].
  assert (Hc : dltb 0 (k_cutoff_Angst (cut st)) && dltb 0 (k_cutoff (cut st))
               = false).
  { apply andb_false_iff.
    destruct (dltb 0 (k_cutoff_Angst (cut st))) eqn:H1; [|now left].
    destruct (dltb 0 (k_cutoff (cut st))) eqn:H2; [|now right].
    apply dltb_lt in H1, H2. tauto. }
  rewrite Hc. apply dltb_lt in He, HeA. rewrite He, HeA. reflexivity.
Qed.

(** X14.  With the parameters read and the motion estimator ready, an
    estimation requested without a cutoff ([k_cutoff < 0] and
    [k_cutoff_Angst <= 0]) ends in the error that asks for one, unless
    both evaluation frequencies are positive (which is found first). *)
Theorem init_requires_cutoff
        (verb_ threads : Z) (debug_ : bool) (s_ fc_ : Z)
        (allMdts : list MetaDataTable) (kout : double)
        (st : Estimator MetaDataTable) (g : rng) :
  paramsRead st = true ->
  estim2 (opts st) = true \/ estim3 (opts st) = true ->
  k_cutoff (cut st) < 0 -> k_cutoff_Angst (cut st) <= 0 ->
  ~ (0 < k_eval (cut st) /\ 0 < k_eval_Angst (cut st)) ->
  init verb_ threads debug_ s_ fc_ allMdts true kout st g
  = (Fatal CutoffRequired,
     set_ctx (mk_Context verb_ threads debug_ s_ fc_) st, g).
Proof.
  intros Hread Hest Hk HkA Hev. unfold MotionParamEstimator.init.
  rewrite Hread. cbn [negb cut set_ctx opts set_cut].
  assert (H1 : dltb 0 (k_cutoff_Angst (cut st)) = false) by now apply dltb_ge.
  assert (H2 : dltb 0 (k_cutoff (cut st)) = false) by (apply dltb_ge; lra).
  assert (H3 : dltb (k_cutoff (cut st)) 0 = true) by now apply dltb_lt.
  assert (H4 : dltb 0 (k_eval_Angst (cut st)) && dltb 0 (k_eval (cut st))
               = false).
  { apply andb_false_iff.
    destruct (dltb 0 (k_eval_Angst (cut st))) eqn:E1; [|now left].
    destruct (dltb 0 (k_eval (cut st))) eqn:E2; [|now right].
    apply dltb_lt in E1, E2. tauto. }
  rewrite H1, H2, H4. cbn [andb]. rewrite H3.
  assert (H5 : estim2 (opts st) || estim3 (opts st) = true)
    by (apply orb_true_iff; exact Hest).
  rewrite H5. cbn [andb].
  destruct st as [pr rd o c x m k]. destruct c. reflexivity.
Qed.

(** X15.  With [--params2] and [--params3] both set, a pixel cutoff
    that is not negative and the checks on the units passed, [init]
    ends in the error for the two parameter counts. *)
Theorem init_rejects_both_modes
        (verb_ threads : Z) (debug_ : bool) (s_ fc_ : Z)
        (allMdts : list MetaDataTable) (kout : double)
        (st : Estimator MetaDataTable) (g : rng) :
  paramsRead st = true ->
  estim2 (opts st) = true -> estim3 (opts st) = true ->
  0 <= k_cutoff (cut st) ->
  ~ (0 < k_cutoff (cut st) /\ 0 < k_cutoff_Angst (cut st)) ->
  ~ (0 < k_eval (cut st) /\ 0 < k_eval_Angst (cut st)) ->
  fst (fst (init verb_ threads debug_ s_ fc_ allMdts true kout st g))
  = Fatal BothParamCounts.
Proof.
  intros Hread H2 H3 Hk Hcut Hev. unfold MotionParamEstimator.init.
  rewrite Hread. cbn [negb cut set_ctx opts set_cut].
  assert (Hc : dltb 0 (k_cutoff_Angst (cut st)) && dltb 0 (k_cutoff (cut st))
               = false).
  { apply andb_false_iff.
    destruct (dltb 0 (k_cutoff_Angst (cut st))) eqn:E1; [|now left].
    destruct (dltb 0 (k_cutoff (cut st))) eqn:E2; [|now right].
    apply dltb_lt in E1, E2. tauto. }
  assert (He : dltb 0 (k_eval_Angst (cut st)) && dltb 0 (k_eval (cut st))
               = false).
  { apply andb_false_iff.
    destruct (dltb 0 (k_eval_Angst (cut st))) eqn:E1; [|now left].
    destruct (dltb 0 (k_eval (cut st))) eqn:E2; [|now right].
    apply dltb_lt in E1, E2. tauto. }
  assert (Hn : dltb (k_cutoff (cut st)) 0 = false) by now apply dltb_ge.
  rewrite Hc, He, Hn, H2, H3. rewrite andb_false_r. cbn [andb orb].
  destruct (dltb 0 (k_cutoff (cut st)) && dltb (k_cutoff_Angst (cut st)) 0);
    cbn [k_cutoff]; rewrite ?Hn; cbn [andb]; reflexivity.
Qed.


(** X16.  A call of [init] that ends normally had its parameters read
    and a ready motion estimator, and neither both cutoffs nor both
    evaluation frequencies positive; it leaves the estimator ready,
    with the options unchanged, its arguments and [reference->k_out]
    stored, at most one of the two estimation modes set, and, if one is
    set, a pixel cutoff that is not negative. *)
Theorem init_establishes
        (verb_ threads : Z) (debug_ : bool) (s_ fc_ : Z)
        (allMdts : list MetaDataTable) (mready : bool) (kout : double)
        (st st' : Estimator MetaDataTable) (g g' : rng) :
  init verb_ threads debug_ s_ fc_ allMdts mready kout st g
  = (Done, st', g') ->
  paramsRead st = true /\ mready = true /\
  ready st' = true /\ paramsRead st' = true /\ opts st' = opts st /\
  ctx st' = mk_Context verb_ threads debug_ s_ fc_ /\ k_out st' = kout /\
  (estim2 (opts st') = false \/ estim3 (opts st') = false) /\
  (estim2 (opts st') = true \/ estim3 (opts st') = true ->
   0 <= k_cutoff (cut st')) /\
  ~ (0 < k_cutoff (cut st) /\ 0 < k_cutoff_Angst (cut st)) /\
  ~ (0 < k_eval (cut st) /\ 0 < k_eval_Angst (cut st)).
Proof.
  unfold MotionParamEstimator.init.
  destruct (paramsRead st) eqn:Hread; cbn [negb]; [|discriminate].
  destruct mready; cbn [negb]; [|discriminate].
  cbn [cut set_ctx opts set_cut].
  destruct (dltb 0 (k_cutoff_Angst (cut st)) && dltb 0 (k_cutoff (cut st)))
    eqn:Hcut; [discriminate|].
  destruct (dltb 0 (k_eval_Angst (cut st)) && dltb 0 (k_eval (cut st)))
    eqn:Hev; [discriminate|].
  match goal with
  | |- (if ?c then (Fatal _, _, _) else _) = _ -> _ =>
      destruct c eqn:Hreq; [discriminate|]
  end.
  destruct (estim2 (opts st) && estim3 (opts st)) eqn:Hboth; [discriminate|].
  destruct (sample _ _ _) as [[[pc sel]|] g'']; [|discriminate].
  intros H. injection H as <- <-.
  cbn [ready paramsRead opts ctx k_out cut].
  match type of Hreq with
  | context [dltb (k_cutoff ?c) 0] => set (c1 := c) in *
  end.
  repeat split; try reflexivity; try exact Hread.
  - apply andb_false_iff in Hboth. exact Hboth.
  - intros Hest. apply orb_true_iff in Hest. rewrite Hest in Hreq.
    cbn [andb] in Hreq. apply dltb_ge in Hreq.
    match goal with
    | |- 0 <= k_cutoff (if ?c then _ else if ?d then _ else _) =>
        destruct c; [|destruct d]; cbn [k_cutoff]; exact Hreq
    end.
  - intros [H1 H2]. apply dltb_lt in H1, H2. rewrite H1, H2 in Hcut.
    discriminate.
  - intros [H1 H2]. apply dltb_lt in H1, H2. rewrite H1, H2 in Hev.
    discriminate.
Qed.

(** X17.  The frequencies after a call of [init] that ends normally: a
    cutoff given in one unit only (the other negative) is completed by
    [angToPix] in the other unit; so is an evaluation frequency given
    in one unit only; in every other case both evaluation frequencies
    are set to the cutoff. *)
Theorem init_completes_units
        (verb_ threads : Z) (debug_ : bool) (s_ fc_ : Z)
        (allMdts : list MetaDataTable) (mready : bool) (kout : double)
        (st st' : Estimator MetaDataTable) (g g' : rng) :
  init verb_ threads debug_ s_ fc_ allMdts mready kout st g
  = (Done, st', g') ->
  let c := cut st in
  let c' := cut st' in
  (k_cutoff c < 0 -> 0 < k_cutoff_Angst c ->
   k_cutoff c' = angToPix (k_cutoff_Angst c) s_ /\
   k_cutoff_Angst c' = k_cutoff_Angst c) /\
  (0 < k_cutoff c -> k_cutoff_Angst c < 0 ->
   k_cutoff c' = k_cutoff c /\
   k_cutoff_Angst c' = angToPix (k_cutoff c) s_) /\
  (k_eval c < 0 -> 0 < k_eval_Angst c ->
   k_eval c' = angToPix (k_eval_Angst c) s_ /\
   k_eval_Angst c' = k_eval_Angst c) /\
  (0 < k_eval c -> k_eval_Angst c < 0 ->
   k_eval c' = k_eval c /\
   k_eval_Angst c' = angToPix (k_eval c) s_) /\
  (~ (k_eval c < 0 /\ 0 < k_eval_Angst c) ->
   ~ (0 < k_eval c /\ k_eval_Angst c < 0) ->
   k_eval c' = k_cutoff c' /\ k_eval_Angst c' = k_cutoff_Angst c').
Proof.
  unfold MotionParamEstimator.init.
  destruct (paramsRead st) eqn:Hread; cbn [negb]; [|discriminate].
  destruct mready; cbn [negb]; [|discriminate].
  cbn [cut set_ctx opts set_cut].
  destruct (dltb 0 (k_cutoff_Angst (cut st)) && dltb 0 (k_cutoff (cut st)))
    eqn:Hcut; [discriminate|].
  destruct (dltb 0 (k_eval_Angst (cut st)) && dltb 0 (k_eval (cut st)))
    eqn:Hev; [discriminate|].
  match goal with
  | |- (if ?c then (Fatal _, _, _) else _) = _ -> _ =>
      destruct c eqn:Hreq; [discriminate|]
  end.
  destruct (estim2 (opts st) && estim3 (opts st)) eqn:Hboth; [discriminate|].
  destruct (sample _ _ _) as [[[pc sel]|] g'']; [|discriminate].
  intros H. injection H as <- <-. cbn [cut]. cbv zeta.
  clear Hreq Hcut Hev Hboth.
  destruct (cut st) as [k kA e eA].
  cbn [k_cutoff k_cutoff_Angst k_eval k_eval_Angst].
  match goal with
  | |- context [dltb (k_eval ?c) 0] => set (c1 := c)
  end.
  assert (He1 : k_eval c1 = e /\ k_eval_Angst c1 = eA).
  { subst c1.
    destruct (dltb 0 kA && dltb k 0); [|destruct (dltb 0 k && dltb kA 0)];
      split; reflexivity. }
  destruct He1 as [He1 He1A]. rewrite He1, He1A.
  repeat split; intros;
    repeat match goal with
      | |- context [dltb ?x ?y] =>
          case_ltb x y; try (exfalso; lra);
          cbn [andb k_cutoff k_cutoff_Angst k_eval k_eval_Angst]
      end;
    try reflexivity; try (exfalso; tauto);
    subst c1;
    repeat match goal with
      | |- context [dltb ?x ?y] =>
          case_ltb x y; try (exfalso; lra);
          cbn [andb k_cutoff k_cutoff_Angst k_eval k_eval_Angst]
      end;
    reflexivity.
Qed.


(** *** The selection *)

Lemma lookupAll_cons (l : list MetaDataTable) (m : nat) (order : list nat) :
  lookupAll l (m :: order)
  = match nth_error l m with
    | Some x => x :: lookupAll l order
    | None => lookupAll l order
    end.
Proof.
  unfold lookupAll. cbn [flat_map]. now destruct (nth_error l m).
Qed.

Lemma selectLoop_prefix (allMdts : list MetaDataTable) (minP : Z)
      (order : list nat) :
  forall (pc : Z) (sel : list MetaDataTable) (pc' : Z)
         (sel' : list MetaDataTable),
    selectLoop allMdts minP order pc sel = Some (pc', sel') ->
    exists new rest,
      sel' = sel ++ new /\
      filter (eligible numberOfObjects) (lookupAll allMdts order) = new ++ rest /\
      pc' = (pc + particleTotal new)%Z /\
      ((pc' < minP)%Z -> rest = []) /\
      (forall k, (0 < k < length new)%nat ->
                 (pc + particleTotal (firstn k new) < minP)%Z).
Proof.
  induction order as [|m order IH]; intros pc sel pc' sel' Hrun;
    cbn [MotionParamEstimator.selectLoop] in Hrun.
  - injection Hrun as <- <-. exists [], []. cbn.
    rewrite app_nil_r. repeat split; try lia.
  - rewrite lookupAll_cons.
    destruct (nth_error allMdts m) as [md|]; [|discriminate].
    cbn [filter]. unfold eligible at 1.
    destruct (numberOfObjects md <? 2)%Z eqn:Hpcm.
    + apply Z.ltb_lt in Hpcm.
      replace (2 <=? numberOfObjects md)%Z with false
        by (symmetry; apply Z.leb_gt; lia).
      now apply IH.
    + apply Z.ltb_ge in Hpcm.
      replace (2 <=? numberOfObjects md)%Z with true
        by (symmetry; apply Z.leb_le; lia).
      destruct (pc + numberOfObjects md >=? minP)%Z eqn:Hfloor.
      * injection Hrun as <- <-.
        exists [md], (filter (eligible numberOfObjects) (lookupAll allMdts order)).
        cbn. repeat split; lia.
      * destruct (IH _ _ _ _ Hrun) as (new & rest & Hs & Hf & Hp & Hr & Hk).
        exists (md :: new), rest. cbn [app particleTotal fold_right].
        fold (particleTotal new).
        repeat split.
        -- rewrite Hs, <- app_assoc. reflexivity.
        -- now rewrite Hf.
        -- lia.
        -- exact Hr.
        -- intros [|k] Hlen; [lia|]. cbn [firstn fold_right length] in *.
           fold (particleTotal (firstn k new)).
           destruct k as [|k].
           ++ cbn. rewrite Z.geb_leb in Hfloor. apply Z.leb_gt in Hfloor. lia.
           ++ specialize (Hk (S k) ltac:(lia)).
              change (particleTotal (md :: firstn (S k) new))
                with (numberOfObjects md + particleTotal (firstn (S k) new))%Z.
              lia.
Qed.


Lemma drawRandNums_length (mc : nat) :
  forall g : rng, length (fst (drawRandNums mc g)) = mc.
Proof.
  induction mc as [|mc IH]; intros g; cbn [MotionParamEstimator.drawRandNums];
    [reflexivity|].
  destruct (rand g) as [r g1]. specialize (IH g1).
  destruct (drawRandNums mc g1) as [rest g2]. cbn [fst length] in *.
  now rewrite IH.
Qed.

(** The order in which [init] visits the micrographs. *)
Lemma init_Done_selectLoop (verb_ threads : Z) (debug_ : bool) (s_ fc_ : Z)
      (allMdts : list MetaDataTable) (mready : bool) (kout : double)
      (st st' : Estimator MetaDataTable) (g g' : rng) :
  init verb_ threads debug_ s_ fc_ allMdts mready kout st g
  = (Done, st', g') ->
  exists pc,
    selectLoop allMdts (minParticles (opts st))
      (sortIndices
         (fst (drawRandNums (length allMdts) (srand (seed (opts st))))))
      0 []
    = Some (pc, mdts st').
Proof.
  intros H.
  apply (init_Done MetaDataTable numberOfObjects rng srand rand RAND_MAX
           sortIndices angToPix) in H.
  destruct H as (pc & H). exists pc.
  unfold MotionParamEstimator.sample in H.
  destruct (drawRandNums (length allMdts) (srand (seed (opts st))))
    as [randNums g1].
  cbn [fst]. now injection H.
Qed.

(** X18.  The micrographs that [init] selects are a prefix of the
    micrographs with at least 2 particles, taken in the order of the
    index sort of the random numbers; when the particles selected stay
    below [minParticles], they are all of them. *)
Theorem init_selects_prefix
        (verb_ threads : Z) (debug_ : bool) (s_ fc_ : Z)
        (allMdts : list MetaDataTable) (mready : bool) (kout : double)
        (st st' : Estimator MetaDataTable) (g g' : rng) :
  init verb_ threads debug_ s_ fc_ allMdts mready kout st g
  = (Done, st', g') ->
  let order :=
    sortIndices
      (fst (drawRandNums (length allMdts) (srand (seed (opts st))))) in
  exists rest,
    filter (eligible numberOfObjects) (lookupAll allMdts order) = mdts st' ++ rest /\
    ((particleTotal (mdts st') < minParticles (opts st))%Z -> rest = []).
Proof.
  intros H order. apply init_Done_selectLoop in H. destruct H as (pc & H).
  apply selectLoop_prefix in H.
  destruct H as (new & rest & Hs & Hf & Hp & Hr & _).
  cbn [app] in Hs. subst new. exists rest. split; [exact Hf|].
  intros Hlt. apply Hr. lia.
Qed.

(** X19.  [init] stops selecting as soon as [minParticles] is reached:
    the particles of every proper, non-empty prefix of the selection
    are fewer. *)
Theorem init_stops_at_floor
        (verb_ threads : Z) (debug_ : bool) (s_ fc_ : Z)
        (allMdts : list MetaDataTable) (mready : bool) (kout : double)
        (st st' : Estimator MetaDataTable) (g g' : rng) (k : nat) :
  init verb_ threads debug_ s_ fc_ allMdts mready kout st g
  = (Done, st', g') ->
  (0 < k < length (mdts st'))%nat ->
  (particleTotal (firstn k (mdts st')) < minParticles (opts st))%Z.
Proof.
  intros H Hk. apply init_Done_selectLoop in H. destruct H as (pc & H).
  apply selectLoop_prefix in H.
  destruct H as (new & rest & Hs & _ & _ & _ & Hfirst).
  cbn [app] in Hs. subst new. specialize (Hfirst k Hk). lia.
Qed.

(** X20.  If [sortIndices] returns a permutation of the indices of its
    argument, [init] reads [allMdts] inside the vector only: it ends
    normally or in a fatal error. *)
Theorem init_never_undefined
        (verb_ threads : Z) (debug_ : bool) (s_ fc_ : Z)
        (allMdts : list MetaDataTable) (mready : bool) (kout : double)
        (st : Estimator MetaDataTable) (g : rng) :
  (forall data, Permutation (sortIndices data) (seq 0 (length data))) ->
  fst (fst (init verb_ threads debug_ s_ fc_ allMdts mready kout st g))
  <> Undefined.
Proof.
  intros Hsort. unfold MotionParamEstimator.init.
  repeat match goal with
         | |- fst (fst (if ?c then (Fatal _, _, _) else _)) <> _ =>
             destruct c; [discriminate|]
         end.
  cbn [opts set_cut set_ctx]. unfold MotionParamEstimator.sample.
  pose proof (drawRandNums_length (length allMdts) (srand (seed (opts st))))
    as Hlen.
  destruct (drawRandNums (length allMdts) (srand (seed (opts st))))
    as [randNums g1]. cbn [fst] in Hlen.
  assert (Hin : Forall (fun m => (m < length allMdts)%nat)
                       (sortIndices randNums)).
  { apply Forall_forall. intros m Hm.
    apply (Permutation_in _ (Hsort randNums)) in Hm.
    apply in_seq in Hm. lia. }
  pose proof (selectLoop_defined MetaDataTable numberOfObjects allMdts
                (minParticles (opts st)) (sortIndices randNums) Hin 0%Z [])
    as Hdef.
  destruct (selectLoop allMdts (minParticles (opts st))
              (sortIndices randNums) 0 []) as [[pc sel]|];
    [discriminate | contradiction].
Qed.

(** X21.  If [sortIndices] returns a permutation of the indices of its
    argument, the micrographs selected, together with some others, are
    a permutation of the micrographs of [allMdts] with at least 2
    particles: none is selected more often than it occurs there.  When
    the particles selected stay below [minParticles] there are no
    others. *)
Theorem init_selects_each_once
        (verb_ threads : Z) (debug_ : bool) (s_ fc_ : Z)
        (allMdts : list MetaDataTable) (mready : bool) (kout : double)
        (st st' : Estimator MetaDataTable) (g g' : rng) :
  (forall data, Permutation (sortIndices data) (seq 0 (length data))) ->
  init verb_ threads debug_ s_ fc_ allMdts mready kout st g
  = (Done, st', g') ->
  exists rest,
    Permutation (mdts st' ++ rest) (filter (eligible numberOfObjects) allMdts) /\
    ((particleTotal (mdts st') < minParticles (opts st))%Z -> rest = []).
Proof.
  intros Hsort H. apply init_Done_selectLoop in H. destruct H as (pc & H).
  apply selectLoop_prefix in H.
  destruct H as (new & rest & Hs & Hf & Hp & Hr & _).
  cbn [app] in Hs. subst new. exists rest. split.
  - rewrite <- Hf. apply filter_Permutation, lookupAll_Permutation.
    rewrite <- (drawRandNums_length (length allMdts)
                  (srand (seed (opts st)))) at 2.
    apply Hsort.
  - intros Hlt. apply Hr. lia.
Qed.

End InitFacts.

(** ** run and evaluateParams, continued *)

Lemma nearestInteger_nonneg (N : Z) (y : double) :
  0 <= y -> nearestInteger N y -> (0 <= N)%Z.
Proof.
  unfold nearestInteger. intros Hy HN.
  apply Qabs_Qle_condition in HN. destruct HN as [Hlo _].
  assert (H : inject_Z (-1) < inject_Z N).
  { change (inject_Z (-1)) with (- (1)). lra. }
  rewrite <- Zlt_Qlt in H. lia.
Qed.

Section RunAfterInit.

Variable MetaDataTable : Type.
Variable numberOfObjects : MetaDataTable -> Z.
Variable rng : Type.
Variable srand : Z -> rng.
Variable rand : rng -> Z * rng.
Variable RAND_MAX : Z.
Variable sortIndices : list double -> list nat.
Variable angToPix : double -> Z -> double.
Variable optimizeTwo :
  Estimator MetaDataTable -> double -> list double -> double -> double -> Z ->
  list double * double.
Variable optimizeThree :
  Estimator MetaDataTable -> list double -> double -> double -> Z ->
  list double * double.

Local Abbreviation init :=
  (init MetaDataTable numberOfObjects rng srand rand RAND_MAX sortIndices
        angToPix).
Local Abbreviation run := (run MetaDataTable optimizeTwo optimizeThree).
Local Abbreviation optimum := (optimum MetaDataTable optimizeTwo optimizeThree).
Local Abbreviation anythingToDo := (anythingToDo MetaDataTable).

Lemma init_Done_ready (verb_ threads : Z) (debug_ : bool) (s_ fc_ : Z)
      (allMdts : list MetaDataTable) (mready : bool) (kout : double)
      (st st' : Estimator MetaDataTable) (g g' : rng) :
  init verb_ threads debug_ s_ fc_ allMdts mready kout st g
  = (Done, st', g') ->
  ready st' = true.
Proof.
  unfold MotionParamEstimator.init.
  repeat match goal with
         | |- (if ?c then (Fatal _, _, _) else _) = _ -> _ =>
             destruct c; [discriminate|]
         end.
  cbn [opts set_cut set_ctx].
  destruct (sample _ _ _ _ _ _ _ _ _ _) as [[[pc sel]|] g''];
    [|discriminate].
  intros H. injection H as <- _. reflexivity.
Qed.

Lemma run_ready (st : Estimator MetaDataTable) :
  ready st = true ->
  (forall e, run st <> RunFatal e) /\
  (run st = NothingToDo <-> anythingToDo st = false).
Proof.
  intros Hr. unfold MotionParamEstimator.run, MotionParamEstimator.anythingToDo.
  rewrite Hr. cbn [negb].
  destruct (estim2 (opts st)), (estim3 (opts st)); cbn [negb andb orb];
    try (split; [discriminate | split; [reflexivity | reflexivity]]);
    repeat match goal with
      | |- context [match ?x with Some _ => _ | None => _ end] => destruct x
      end;
    split; try discriminate; split; discriminate.
Qed.

(** X22.  After a call of [init] that ended normally, [run] passes its
    test of [ready] (it does not raise the error "not initialized"),
    and it returns before [prepAlignment] and the search exactly when
    [anythingToDo] answers false.  (Errors that [prepAlignment] or the
    optimiser raise are not part of the model of [run].) *)
Theorem run_after_init
        (verb_ threads : Z) (debug_ : bool) (s_ fc_ : Z)
        (allMdts : list MetaDataTable) (mready : bool) (kout : double)
        (st st' : Estimator MetaDataTable) (g g' : rng) :
  init verb_ threads debug_ s_ fc_ allMdts mready kout st g
  = (Done, st', g') ->
  run st' <> RunFatal NotInitialized /\
  (run st' = NothingToDo <-> anythingToDo st' = false).
Proof.
  intros H.
  destruct (run_ready st' (init_Done_ready _ _ _ _ _ _ _ _ _ _ _ _ H))
    as [Hf Hn].
  split; [apply Hf | exact Hn].
Qed.

Lemma roundToHalfConv_nonneg (c scale x r : double) :
  0 < c -> 0 < scale -> 0 <= x ->
  roundToHalfConv c scale (x * scale) = Some r -> 0 <= r.
Proof.
  intros Hc Hs Hx H.
  destruct (roundToHalfConv_nearest c scale x r Hc Hs Hx H) as (N & HN & ->).
  assert (Hy : 0 <= 2 * (x * scale) / c).
  { apply Qle_shift_div_l; [exact Hc|]. nra. }
  pose proof (nearestInteger_nonneg N _ Hy HN) as HN0.
  assert (HNq : 0 <= inject_Z N).
  { change 0 with (inject_Z 0). rewrite <- Zle_Qle. exact HN0. }
  apply Qle_shift_div_l; [exact Hs|].
  assert (0 <= c * (1 # 2)) by lra.
  assert (0 <= c * (1 # 2) * inject_Z N)
    by (apply Qmult_le_0_compat; assumption).
  lra.
Qed.

(** X23.  With a tolerance [conv > 0] and not both estimation modes
    set, the acceleration sigma that [run] reports is the sentinel -1
    or is not negative. *)
Theorem run_acceleration_sign (st : Estimator MetaDataTable) (rnd : d3Vector) :
  run st = GoodParameters rnd ->
  0 < conv (opts st) ->
  estim2 (opts st) = false \/ estim3 (opts st) = false ->
  d3_2 rnd = - (1) \/ 0 <= d3_2 rnd.
Proof.
  intros Hrun Hc Hmode.
  pose proof Hrun as Hgood. apply run_GoodParameters in Hgood.
  destruct Hgood as (r0 & r1 & r2 & _ & _ & H2 & ->). cbn [d3_2].
  set (opt := optimum st) in *.
  case_eq (dleb (d4_2 opt) 0); intros Hle; [now left|right].
  apply dleb_gt in Hle.
  destruct (estim2 (opts st)) eqn:He2.
  - destruct Hmode as [Hm|He3]; [discriminate|].
    assert (Hopt : d4_2 opt = sA (opts st)).
    { subst opt. unfold MotionParamEstimator.optimum. rewrite He2, He3.
      unfold estimateTwoParamsNM.
      destruct (optimizeTwo _ _ _ _ _ _) as [final minTsc]. reflexivity. }
    rewrite <- Hopt. lra.
  - apply (roundToHalfConv_nonneg (conv (opts st)) accScale (d4_2 opt) r2);
      [exact Hc | reflexivity | lra | exact H2].
Qed.

End RunAfterInit.

Section EvalMore.

Variable MetaDataTable : Type.
Variable numberOfObjects : MetaDataTable -> Z.
Variables normalizeSigVel normalizeSigDiv normalizeSigAcc : double -> double.
Variable trackTsc : nat -> double -> double -> double -> d3Vector.
Variable sqrt : double -> double.

Local Abbreviation score := (score sqrt).
Local Abbreviation finalTsc := (finalTsc sqrt).
Local Abbreviation evaluateParams :=
  (evaluateParams MetaDataTable numberOfObjects normalizeSigVel
                  normalizeSigDiv normalizeSigAcc trackTsc sqrt).
Local Abbreviation accumulateTsc :=
  (accumulateTsc MetaDataTable numberOfObjects trackTsc).

Lemma resize_length (n : nat) (v : list double) : length (resize n v) = n.
Proof.
  unfold resize. rewrite length_app, length_firstn, repeat_length. lia.
Qed.

Lemma finalTsc_length (tscsAs : list d3Vector) :
  forall TSCs : list double, length (finalTsc tscsAs TSCs) = length TSCs.
Proof.
  induction tscsAs as [|acc l IH]; intros [|old T];
    cbn [MotionParamEstimator.finalTsc length]; try reflexivity.
  now rewrite IH.
Qed.

(** X24.  [evaluateParams] returns one score per candidate, whatever
    the length of the vector it was passed. *)
Theorem evaluateParams_length (st : Estimator MetaDataTable)
        (sig_vals : list d3Vector) (TSCs : list double) :
  length (evaluateParams st sig_vals TSCs) = length sig_vals.
Proof.
  unfold MotionParamEstimator.evaluateParams.
  rewrite finalTsc_length. apply resize_length.
Qed.

Lemma combine_app_same {A B : Type} (l1 l2 : list A) (k1 k2 : list B) :
  length l1 = length k1 ->
  combine (l1 ++ l2) (k1 ++ k2) = combine l1 k1 ++ combine l2 k2.
Proof.
  revert k1. induction l1 as [|x l1 IH]; intros [|y k1] Hlen;
    try discriminate; [reflexivity|].
  cbn [app combine]. f_equal. apply IH. now injection Hlen.
Qed.

Lemma accumulateTsc_app (s1 s2 : list d3Vector) (ms : list MetaDataTable) :
  forall (g : nat) (a1 a2 : list d3Vector),
    length s1 = length a1 ->
    accumulateTsc (s1 ++ s2) g ms (a1 ++ a2)
    = accumulateTsc s1 g ms a1 ++ accumulateTsc s2 g ms a2.
Proof.
  induction ms as [|md ms IH]; intros g a1 a2 Hlen;
    cbn [MotionParamEstimator.accumulateTsc]; [reflexivity|].
  destruct (numberOfObjects md <? 2)%Z; [now apply IH|].
  rewrite combine_app_same by exact Hlen. rewrite map_app.
  apply IH. rewrite length_map, length_combine. lia.
Qed.

Lemma finalTsc_app (a1 a2 : list d3Vector) :
  forall T1 T2 : list double,
    length a1 = length T1 ->
    finalTsc (a1 ++ a2) (T1 ++ T2) = finalTsc a1 T1 ++ finalTsc a2 T2.
Proof.
  induction a1 as [|acc a1 IH]; intros [|old T1] T2 Hlen; try discriminate.
  - cbn [app MotionParamEstimator.finalTsc]. destruct a2; reflexivity.
  - cbn [app MotionParamEstimator.finalTsc]. f_equal. apply IH.
    now injection Hlen.
Qed.

Lemma resize_app (n m : nat) (T1 T2 : list double) :
  length T1 = n -> resize (n + m) (T1 ++ T2) = T1 ++ resize m T2.
Proof.
  intros <-. unfold resize.
  rewrite firstn_app_2, length_app, <- app_assoc. do 2 f_equal.
  f_equal. lia.
Qed.

Lemma resize_exact (T : list double) : resize (length T) T = T.
Proof.
  unfold resize. rewrite firstn_all, Nat.sub_diag. apply app_nil_r.
Qed.

Lemma evaluateParams_app (st : Estimator MetaDataTable)
      (a b : list d3Vector) (T1 T2 : list double) :
  length T1 = length a ->
  evaluateParams st (a ++ b) (T1 ++ T2)
  = evaluateParams st a T1 ++ evaluateParams st b T2.
Proof.
  intros Hlen. unfold MotionParamEstimator.evaluateParams.
  rewrite length_app, resize_app by exact Hlen.
  replace (resize (length a) T1) with T1
    by (rewrite <- Hlen; symmetry; apply resize_exact).
  rewrite map_app, repeat_app.
  rewrite accumulateTsc_app by now rewrite length_map, repeat_length.
  apply finalTsc_app.
  rewrite accumulateTsc_length; rewrite repeat_length;
    [now symmetry | now rewrite length_map].
Qed.

Lemma evaluateParams_resize (st : Estimator MetaDataTable)
      (sig_vals : list d3Vector) (TSCs : list double) :
  evaluateParams st sig_vals TSCs
  = evaluateParams st sig_vals (resize (length sig_vals) TSCs).
Proof.
  unfold MotionParamEstimator.evaluateParams.
  pose proof (resize_exact (resize (length sig_vals) TSCs)) as H.
  rewrite resize_length in H. now rewrite H.
Qed.

(** X25.  The candidates of a batch do not influence each other:
    evaluating [a ++ b] gives the scores of [a] followed by those of
    [b], both on a vector [T1 ++ T2] in which [T1] holds one entry per
    candidate of [a], and on an empty vector. *)
Theorem evaluateParams_batch (st : Estimator MetaDataTable)
        (a b : list d3Vector) :
  (forall T1 T2 : list double,
      length T1 = length a ->
      evaluateParams st (a ++ b) (T1 ++ T2)
      = evaluateParams st a T1 ++ evaluateParams st b T2) /\
  evaluateParams st (a ++ b) []
  = evaluateParams st a [] ++ evaluateParams st b [].
Proof.
  split; [intros T1 T2; apply evaluateParams_app|].
  rewrite (evaluateParams_resize st (a ++ b)).
  rewrite (evaluateParams_resize st a), (evaluateParams_resize st b).
  unfold resize at 1. rewrite firstn_nil. cbn [app length].
  rewrite Nat.sub_0_r, length_app, repeat_app.
  unfold resize. rewrite !firstn_nil. cbn [app length]. rewrite !Nat.sub_0_r.
  apply evaluateParams_app. apply repeat_length.
Qed.

Lemma accumulateTsc_skips (sig_px : list d3Vector) (ms : list MetaDataTable) :
  Forall (fun md => (numberOfObjects md < 2)%Z) ms ->
  forall (g : nat) (tscsAs : list d3Vector),
    accumulateTsc sig_px g ms tscsAs = tscsAs.
Proof.
  induction 1 as [|md ms Hmd _ IH]; intros g tscsAs;
    cbn [MotionParamEstimator.accumulateTsc]; [reflexivity|].
  apply Z.ltb_lt in Hmd. rewrite Hmd. apply IH.
Qed.

Lemma finalTsc_zero (n : nat) :
  forall TSCs : list double, finalTsc (repeat (mk_d3 0 0 0) n) TSCs = TSCs.
Proof.
  induction n as [|n IH]; intros [|old T];
    cbn [repeat MotionParamEstimator.finalTsc]; try reflexivity.
  rewrite IH. reflexivity.
Qed.

(** X26.  If no micrograph held has 2 particles or more,
    [evaluateParams] assigns no score: the vector returned is the one
    passed in, resized to the number of candidates. *)
Theorem evaluateParams_nothing_usable (st : Estimator MetaDataTable)
        (sig_vals : list d3Vector) (TSCs : list double) :
  Forall (fun md => (numberOfObjects md < 2)%Z) (mdts st) ->
  evaluateParams st sig_vals TSCs = resize (length sig_vals) TSCs.
Proof.
  intros Hms. unfold MotionParamEstimator.evaluateParams.
  rewrite accumulateTsc_skips by exact Hms. apply finalTsc_zero.
Qed.

End EvalMore.

(** ** The estimator in the concrete environment *)

(** The index sort of the concrete environment returns a permutation of
    the indices. *)
Lemma insertIndex_Permutation (data : list double) (i : nat)
      (sorted : list nat) :
  Permutation (Env.insertIndex data i sorted) (i :: sorted).
Proof.
  induction sorted as [|j rest IH]; cbn [Env.insertIndex];
    [apply Permutation_refl|].
  destruct (dltb (nth i data 0) (nth j data 0)); [apply Permutation_refl|].
  eapply perm_trans; [apply perm_skip, IH | apply perm_swap].
Qed.

Lemma sortIndices_Permutation (data : list double) :
  Permutation (Env.sortIndices data) (seq 0 (length data)).
Proof.
  unfold Env.sortIndices.
  assert (H : forall l acc,
             Permutation
               (fold_left (fun sorted i => Env.insertIndex data i sorted) l acc)
               (l ++ acc)).
  { induction l as [|x l IH]; intros acc; cbn [fold_left app];
      [apply Permutation_refl|].
    eapply perm_trans; [apply IH|].
    eapply perm_trans;
      [apply Permutation_app_head, insertIndex_Permutation|].
    apply Permutation_sym, Permutation_middle. }
  specialize (H (seq 0 (length data)) []). now rewrite app_nil_r in H.
Qed.

Local Abbreviation opts8 :=
  (mk_Options true false 8 (6 # 10) 3000 5 100 10 50 50 23).
Local Abbreviation st_ok :=
  (Env.afterRead opts8 (mk_Cutoffs (- (1)) 4 (- (1)) (- (1)))).

(** X11 on a call with both evaluation frequencies positive, made when
    the generator stands at 7. *)
Lemma init_fatal_before_sampling_witness :
  let st := Env.afterRead opts8 (mk_Cutoffs 20 (- (1)) 20 4) in
  exists st',
    Env.init 1 4 false 64 20 Env.micrographs true 30 st 7%Z
    = (Fatal BothEvalUnits, st', 7%Z) /\
    7%Z = 7%Z /\ mdts st' = mdts st /\ ready st' = ready st /\
    k_out st' = k_out st /\ opts st' = opts st /\
    paramsRead st' = paramsRead st.
Proof.
  cbv zeta. eexists. split; [reflexivity|].
  eapply (init_fatal_before_sampling Env.Mdt Env.mdt_particles Z Env.srand
            Env.rand Env.RAND_MAX Env.sortIndices Env.angToPix
            1 4 false 64 20 Env.micrographs true 30).
  reflexivity.
Defined.

(** X12 on a two-parameter estimation requested without a cutoff. *)
Lemma init_error_justified_witness :
  let st := Env.afterRead opts8 (mk_Cutoffs (- (1)) (- (1)) 20 (- (1))) in
  exists st',
    Env.init 1 4 false 64 20 Env.micrographs true 30 st 7%Z
    = (Fatal CutoffRequired, st', 7%Z) /\
    (estim2 (opts st) = true \/ estim3 (opts st) = true) /\
    k_cutoff (cut st') < 0.
Proof.
  cbv zeta. eexists. split; [reflexivity|].
  apply (init_error_justified Env.Mdt Env.mdt_particles Z Env.srand
           Env.rand Env.RAND_MAX Env.sortIndices Env.angToPix
           1 4 false 64 20 Env.micrographs true 30
           (Env.afterRead opts8 (mk_Cutoffs (- (1)) (- (1)) 20 (- (1))))
           _ 7%Z 7%Z CutoffRequired).
  reflexivity.
Defined.

(** X13 on a call with [--k_cut 20 --k_eval 20 --k_eval_A 4]. *)
Lemma init_rejects_both_eval_units_witness :
  let st := Env.afterRead opts8 (mk_Cutoffs 20 (- (1)) 20 4) in
  paramsRead st = true /\
  ~ (0 < k_cutoff (cut st) /\ 0 < k_cutoff_Angst (cut st)) /\
  0 < k_eval (cut st) /\ 0 < k_eval_Angst (cut st) /\
  Env.init 1 4 false 64 20 Env.micrographs true 30 st 7%Z
  = (Fatal BothEvalUnits, set_ctx (mk_Context 1 4 false 64 20) st, 7%Z).
Proof.
  cbv zeta.
  assert (H : ~ (0 < 20 /\ 0 < - (1))) by (intros [_ H]; discriminate H).
  split; [reflexivity|]. split; [exact H|].
  split; [reflexivity|]. split; [reflexivity|].
  apply (init_rejects_both_eval_units Env.Mdt Env.mdt_particles Z Env.srand
           Env.rand Env.RAND_MAX Env.sortIndices Env.angToPix
           1 4 false 64 20 Env.micrographs 30
           (Env.afterRead opts8 (mk_Cutoffs 20 (- (1)) 20 4)) 7%Z);
    [reflexivity | exact H | reflexivity | reflexivity].
Defined.

(** X14 on a call with [--params2 --k_eval 20] and no cutoff. *)
Lemma init_requires_cutoff_witness :
  let st := Env.afterRead opts8 (mk_Cutoffs (- (1)) (- (1)) 20 (- (1))) in
  paramsRead st = true /\
  (estim2 (opts st) = true \/ estim3 (opts st) = true) /\
  k_cutoff (cut st) < 0 /\ k_cutoff_Angst (cut st) <= 0 /\
  ~ (0 < k_eval (cut st) /\ 0 < k_eval_Angst (cut st)) /\
  Env.init 1 4 false 64 20 Env.micrographs true 30 st 7%Z
  = (Fatal CutoffRequired, set_ctx (mk_Context 1 4 false 64 20) st, 7%Z).
Proof.
  cbv zeta.
  assert (H : ~ (0 < 20 /\ 0 < - (1))) by (intros [_ H]; discriminate H).
  split; [reflexivity|]. split; [now left|].
  split; [reflexivity|]. split; [discriminate|]. split; [exact H|].
  apply (init_requires_cutoff Env.Mdt Env.mdt_particles Z Env.srand
           Env.rand Env.RAND_MAX Env.sortIndices Env.angToPix
           1 4 false 64 20 Env.micrographs 30
           (Env.afterRead opts8 (mk_Cutoffs (- (1)) (- (1)) 20 (- (1)))) 7%Z);
    [reflexivity | now left | reflexivity | discriminate | exact H].
Defined.

(** X15 on a call with [--params2 --params3 --k_cut 20]. *)
Lemma init_rejects_both_modes_witness :
  let st :=
    Env.afterRead (mk_Options true true 8 (6 # 10) 3000 5 100 10 50 50 23)
                  (mk_Cutoffs 20 (- (1)) (- (1)) (- (1))) in
  paramsRead st = true /\
  estim2 (opts st) = true /\ estim3 (opts st) = true /\
  0 <= k_cutoff (cut st) /\
  ~ (0 < k_cutoff (cut st) /\ 0 < k_cutoff_Angst (cut st)) /\
  ~ (0 < k_eval (cut st) /\ 0 < k_eval_Angst (cut st)) /\
  fst (fst (Env.init 1 4 false 64 20 Env.micrographs true 30 st 7%Z))
  = Fatal BothParamCounts.
Proof.
  cbv zeta.
  assert (H : ~ (0 < 20 /\ 0 < - (1))) by (intros [_ H]; discriminate H).
  assert (H' : ~ (0 < - (1) /\ 0 < - (1))) by (intros [_ H']; discriminate H').
  split; [reflexivity|]. split; [reflexivity|]. split; [reflexivity|].
  split; [discriminate|]. split; [exact H|]. split; [exact H'|].
  apply (init_rejects_both_modes Env.Mdt Env.mdt_particles Z Env.srand
           Env.rand Env.RAND_MAX Env.sortIndices Env.angToPix
           1 4 false 64 20 Env.micrographs 30
           (Env.afterRead
              (mk_Options true true 8 (6 # 10) 3000 5 100 10 50 50 23)
              (mk_Cutoffs 20 (- (1)) (- (1)) (- (1)))) 7%Z);
    [reflexivity | reflexivity | reflexivity | discriminate | exact H
     | exact H'].
Defined.

(** X16 on a call with [--params2 --k_cut_A 4 --min_p 8 --seed 23] on
    the six micrographs. *)
Lemma init_establishes_witness :
  exists st' g',
    Env.init 1 4 false 64 20 Env.micrographs true 30 st_ok 0%Z
    = (Done, st', g') /\
    paramsRead st_ok = true /\ true = true /\
    ready st' = true /\ paramsRead st' = true /\ opts st' = opts st_ok /\
    ctx st' = mk_Context 1 4 false 64 20 /\ k_out st' = 30 /\
    (estim2 (opts st') = false \/ estim3 (opts st') = false) /\
    (estim2 (opts st') = true \/ estim3 (opts st') = true ->
     0 <= k_cutoff (cut st')) /\
    ~ (0 < k_cutoff (cut st_ok) /\ 0 < k_cutoff_Angst (cut st_ok)) /\
    ~ (0 < k_eval (cut st_ok) /\ 0 < k_eval_Angst (cut st_ok)).
Proof.
  do 2 eexists. split; [vm_compute; reflexivity|].
  eapply (init_establishes Env.Mdt Env.mdt_particles Z Env.srand
            Env.rand Env.RAND_MAX Env.sortIndices Env.angToPix
            1 4 false 64 20 Env.micrographs true 30 st_ok _ 0%Z).
  vm_compute. reflexivity.
Defined.

(** X17 on the same call, for an image size of 64: the cutoff of 4 A
    becomes 16 pixels, and the evaluation frequencies take the values
    of the cutoff. *)
Lemma init_completes_units_witness :
  exists st' g',
    Env.init 1 4 false 64 20 Env.micrographs true 30 st_ok 0%Z
    = (Done, st', g') /\
    cut st' = mk_Cutoffs (64 / 4) 4 (64 / 4) 4 /\
    let c := cut st_ok in
    let c' := cut st' in
    (k_cutoff c < 0 -> 0 < k_cutoff_Angst c ->
     k_cutoff c' = Env.angToPix (k_cutoff_Angst c) 64 /\
     k_cutoff_Angst c' = k_cutoff_Angst c) /\
    (0 < k_cutoff c -> k_cutoff_Angst c < 0 ->
     k_cutoff c' = k_cutoff c /\
     k_cutoff_Angst c' = Env.angToPix (k_cutoff c) 64) /\
    (k_eval c < 0 -> 0 < k_eval_Angst c ->
     k_eval c' = Env.angToPix (k_eval_Angst c) 64 /\
     k_eval_Angst c' = k_eval_Angst c) /\
    (0 < k_eval c -> k_eval_Angst c < 0 ->
     k_eval c' = k_eval c /\
     k_eval_Angst c' = Env.angToPix (k_eval c) 64) /\
    (~ (k_eval c < 0 /\ 0 < k_eval_Angst c) ->
     ~ (0 < k_eval c /\ k_eval_Angst c < 0) ->
     k_eval c' = k_cutoff c' /\ k_eval_Angst c' = k_cutoff_Angst c').
Proof.
  do 2 eexists. split; [vm_compute; reflexivity|]. split; [reflexivity|].
  eapply (init_completes_units Env.Mdt Env.mdt_particles Z Env.srand
            Env.rand Env.RAND_MAX Env.sortIndices Env.angToPix
            1 4 false 64 20 Env.micrographs true 30 st_ok _ 0%Z).
  vm_compute. reflexivity.
Defined.

(** X18 on the same call: the micrographs 2, 3 and 5 are selected. *)
Lemma init_selects_prefix_witness :
  exists st' g',
    Env.init 1 4 false 64 20 Env.micrographs true 30 st_ok 0%Z
    = (Done, st', g') /\
    map Env.mdt_id (mdts st') = [2; 3; 5]%nat /\
    let order :=
      Env.sortIndices
        (fst (drawRandNums Z Env.rand Env.RAND_MAX (length Env.micrographs)
                (Env.srand (seed (opts st_ok))))) in
    exists rest,
      filter (eligible Env.mdt_particles) (lookupAll Env.micrographs order)
      = mdts st' ++ rest /\
      ((particleTotal Env.mdt_particles (mdts st')
        < minParticles (opts st_ok))%Z -> rest = []).
Proof.
  do 2 eexists. split; [vm_compute; reflexivity|]. split; [reflexivity|].
  eapply (init_selects_prefix Env.Mdt Env.mdt_particles Z Env.srand
            Env.rand Env.RAND_MAX Env.sortIndices Env.angToPix
            1 4 false 64 20 Env.micrographs true 30 st_ok _ 0%Z).
  vm_compute. reflexivity.
Defined.

(** X19 on the same call: the first two micrographs selected hold 6
    particles, fewer than the floor of 8. *)
Lemma init_stops_at_floor_witness :
  exists st' g',
    Env.init 1 4 false 64 20 Env.micrographs true 30 st_ok 0%Z
    = (Done, st', g') /\
    (0 < 2 < length (mdts st'))%nat /\
    (particleTotal Env.mdt_particles (firstn 2 (mdts st'))
     < minParticles (opts st_ok))%Z.
Proof.
  do 2 eexists. split; [vm_compute; reflexivity|].
  split; [cbn; lia|].
  eapply (init_stops_at_floor Env.Mdt Env.mdt_particles Z Env.srand
            Env.rand Env.RAND_MAX Env.sortIndices Env.angToPix
            1 4 false 64 20 Env.micrographs true 30 st_ok _ 0%Z _ 2%nat);
    [vm_compute; reflexivity | cbn; lia].
Defined.

(** X20 in the concrete environment, whose index sort is the
    insertion sort. *)
Lemma init_never_undefined_witness :
  (forall data, Permutation (Env.sortIndices data) (seq 0 (length data))) /\
  fst (fst (Env.init 1 4 false 64 20 Env.micrographs true 30 st_ok 0%Z))
  <> Undefined.
Proof.
  split; [exact sortIndices_Permutation|].
  apply (init_never_undefined Env.Mdt Env.mdt_particles Z Env.srand
           Env.rand Env.RAND_MAX Env.sortIndices Env.angToPix
           1 4 false 64 20 Env.micrographs true 30 st_ok 0%Z
           sortIndices_Permutation).
Defined.

(** X21 on the same call. *)
Lemma init_selects_each_once_witness :
  (forall data, Permutation (Env.sortIndices data) (seq 0 (length data))) /\
  exists st' g',
    Env.init 1 4 false 64 20 Env.micrographs true 30 st_ok 0%Z
    = (Done, st', g') /\
    exists rest,
      Permutation (mdts st' ++ rest)
                  (filter (eligible Env.mdt_particles) Env.micrographs) /\
      ((particleTotal Env.mdt_particles (mdts st')
        < minParticles (opts st_ok))%Z -> rest = []).
Proof.
  split; [exact sortIndices_Permutation|].
  do 2 eexists. split; [vm_compute; reflexivity|].
  eapply (init_selects_each_once Env.Mdt Env.mdt_particles Z Env.srand
            Env.rand Env.RAND_MAX Env.sortIndices Env.angToPix
            1 4 false 64 20 Env.micrographs true 30 st_ok _ 0%Z _
            sortIndices_Permutation).
  vm_compute. reflexivity.
Defined.

(** X22 on the same call of [init], followed by [run]. *)
Lemma run_after_init_witness :
  exists st' g',
    Env.init 1 4 false 64 20 Env.micrographs true 30 st_ok 0%Z
    = (Done, st', g') /\
    run Env.Mdt Env.optimizeTwo Env.optimizeThree st'
    <> RunFatal NotInitialized /\
    (run Env.Mdt Env.optimizeTwo Env.optimizeThree st' = NothingToDo
     <-> anythingToDo Env.Mdt st' = false).
Proof.
  do 2 eexists. split; [vm_compute; reflexivity|].
  eapply (run_after_init Env.Mdt Env.mdt_particles Z Env.srand
            Env.rand Env.RAND_MAX Env.sortIndices Env.angToPix
            Env.optimizeTwo Env.optimizeThree
            1 4 false 64 20 Env.micrographs true 30 st_ok _ 0%Z).
  vm_compute. reflexivity.
Defined.

(** X23 on a three-parameter run with a tolerance of 10. *)
Lemma run_acceleration_sign_witness :
  let st :=
    Env.afterInit (mk_Options false true 1000 (6 # 10) 3000 5 100 10 50 50 23) in
  exists rnd,
    run Env.Mdt Env.optimizeTwo Env.optimizeThree st = GoodParameters rnd /\
    0 < conv (opts st) /\
    (estim2 (opts st) = false \/ estim3 (opts st) = false) /\
    (d3_2 rnd = - (1) \/ 0 <= d3_2 rnd).
Proof.
  cbv zeta. eexists.
  split; [vm_compute; reflexivity|]. split; [reflexivity|].
  split; [now left|].
  apply (run_acceleration_sign Env.Mdt Env.optimizeTwo Env.optimizeThree
           (Env.afterInit
              (mk_Options false true 1000 (6 # 10) 3000 5 100 10 50 50 23)));
    [vm_compute; reflexivity | reflexivity | now left].
Defined.

(** X26 on an estimator that holds micrographs of 1 and 0 particles,
    for two candidates and a vector that holds the score 7. *)
Lemma evaluateParams_nothing_usable_witness :
  let st :=
    mk_Estimator true true opts8
      (mk_Cutoffs 20 (64 # 20) 20 (64 # 20)) (mk_Context 1 4 false 64 20)
      [Env.mk_Mdt 1 1; Env.mk_Mdt 4 0] 30 in
  Forall (fun md => (Env.mdt_particles md < 2)%Z) (mdts st) /\
  evaluateParams Env.Mdt Env.mdt_particles
                 (fun x => x) (fun x => x) (fun x => x)
                 (fun _ _ _ _ => mk_d3 1 1 1) (fun x => x)
                 st [mk_d3 (6 # 10) 3000 5; mk_d3 1 2000 4] [7]
  = resize (length [mk_d3 (6 # 10) 3000 5; mk_d3 1 2000 4]) [7].
Proof.
  cbv zeta.
  assert (H : Forall (fun md => (Env.mdt_particles md < 2)%Z)
                     [Env.mk_Mdt 1 1; Env.mk_Mdt 4 0])
    by (repeat constructor).
  split; [exact H|].
  apply (evaluateParams_nothing_usable Env.Mdt Env.mdt_particles
           (fun x => x) (fun x => x) (fun x => x)
           (fun _ _ _ _ => mk_d3 1 1 1) (fun x => x)
           (mk_Estimator true true opts8
              (mk_Cutoffs 20 (64 # 20) 20 (64 # 20))
              (mk_Context 1 4 false 64 20)
              [Env.mk_Mdt 1 1; Env.mk_Mdt 4 0] 30)
           [mk_d3 (6 # 10) 3000 5; mk_d3 1 2000 4] [7] H).
Defined.

(** ** Small runs *)

Example double_to_int_truncates :
  double_to_int (- (3 # 2)) = Some (-1)%Z /\
  double_to_int (241 # 2) = Some 120%Z /\
  double_to_int (inject_Z (2 ^ 31)) = None.
Proof.
  repeat split; reflexivity.
Qed.

Example resize_keeps_and_fills :
  resize 2 [5; 6; 7] = [5; 6] /\ resize 3 [5] = [5; 0; 0].
Proof.
  split; reflexivity.
Qed.

Example roundToHalfConv_default :
  roundToHalfConv 10 velScale 600 = Some (1200 # 2000) /\
  roundToHalfConv 10 velScale 604 = Some (1210 # 2000).
Proof.
  split; reflexivity.
Qed.

Example sortIndices_orders :
  Env.sortIndices [1 # 2; 1 # 10; 3 # 10] = [1; 2; 0]%nat.
Proof.
  reflexivity.
Qed.

(** A flat profile of one radius: every candidate has the same residual
    and the first one, at [B0], is kept, with scale 1. *)
Example findBKRec1D_flat :
  let r := BFactorRefiner.findBKRec1D exp_poly [1] [1] 0 1 (1 # 5) 3 0 in
  d2_0 r == 0 /\ d2_1 r == 1.
Proof.
  split; vm_compute; reflexivity.
Qed.

Section SmallRuns64.

Import PrimFloat.
Import Binary64.
Local Open Scope float_scope.

(** The stand-in for [exp]: exact at 0, the library's values at -1,
    1/4 and -1/2, one unit in the last place above the library's value
    at 1, infinity from 709.79 on. *)
Example exp_std_values :
  exp_std 0 = 1 /\ exp_std (- 1) = 0x1.78b56362cef38p-2 /\
  exp_std 0x1p-2 = 0x1.48b5e3c3e8186p+0 /\
  exp_std (- 0x1p-1) = 0x1.368b2fc6f960ap-1 /\
  exp_std 1 = 0x1.5bf0a8b14576ap+1 /\
  exp_std 710 = infinity /\ is_nan (exp_std nan) = true.
Proof.
  repeat split; vm_compute; reflexivity.
Qed.

Example double_to_int_binary64 :
  double_to_int (- 0x1.8p+0) = Some (-1)%Z /\
  double_to_int 0x1.e2p+6 = Some 120%Z /\
  double_to_int 0x1p+31 = None /\
  double_to_int infinity = None /\ double_to_int nan = None.
Proof.
  repeat split; vm_compute; reflexivity.
Qed.

(** With a single step the candidate is [B0 + 0 * (B1 - B0) / 0], which
    is NaN: no candidate is accepted and the initial pair is
    returned. *)
Example findBKRec1D_single_step :
  is_nan (BFactorRefiner64.gridPoint 1 0 1 0) = true /\
  BFactorRefiner64.findBKRec1D exp_std [1; 1] [1; 0] 0 1 0x1p-1 1 3
  = Binary64.mk_d2 0 1.
Proof.
  split; vm_compute; reflexivity.
Qed.

(** [0.0021 * 1000 / 1000] and [0.49999999999999994 + 0.5]. *)
Example binary64_rounds :
  0x1.13404ea4a8c15p-9 * 1000 / 1000 = 0x1.13404ea4a8c16p-9 /\
  0x1.fffffffffffffp-2 + 0x1p-1 = 1.
Proof.
  split; vm_compute; reflexivity.
Qed.

End SmallRuns64.
